(** * ApiClient (src/api-client.ts): a shallow embedding and its properties

    The module is a facade over three external services: a Qdrant vector
    store, an OpenAI-compatible embeddings endpoint and a Playwright browser.
    The embedding below keeps the code's own shape:

    - JavaScript values that cross the HTTP boundary untyped ([response.data]
      of axios is [any]) are values of [JsVal], with the language's
      truthiness and member access;
    - numbers are IEEE-754 doubles (the kernel's primitive floats); what
      the statements say of their values is said of the real numbers they
      stand for, through the kernel's specification of each operation;
    - an asynchronous method is a function from the machine state to a
      completion (normal or abrupt, as in ECMAScript) and a new state; the
      external services are oracles over an arbitrary world [W], so that a
      statement quantified over the oracles covers every behaviour of the
      network, the store and the browser launcher;
    - every call to an external collaborator is recorded in a chronological
      trace, which is what the statements about "performs no call" and
      "launches at most once" read. *)

From Stdlib Require Import String Ascii List Bool Arith ZArith Lia.
From Stdlib Require Import DecimalString.
From Stdlib Require Import Floats.
From Stdlib Require Import Reals Lra.
Import ListNotations.
Open Scope list_scope.
Open Scope string_scope.

Set Implicit Arguments.
Set Warnings "-register-all,-abstract-large-number,-inexact-float".

(* ------------------------------------------------------------------ *)
(** ** Strings: the three methods of [String.prototype] the code uses  *)
(* ------------------------------------------------------------------ *)

Module Str.

(** [hay.startsWith(needle)] *)
Fixpoint startsWith (needle hay : string) : bool :=
  match needle, hay with
  | EmptyString, _ => true
  | String a n', String b h' => Ascii.eqb a b && startsWith n' h'
  | String _ _, EmptyString => false
  end.

(** [hay.includes(needle)]: some suffix of [hay] starts with [needle]. *)
Fixpoint includes (hay needle : string) : bool :=
  startsWith needle hay ||
  match hay with
  | EmptyString => false
  | String _ h' => includes h' needle
  end.

(** [s.endsWith(suffix)]: the last [length suffix] characters of [s]. *)
Definition endsWith (s suffix : string) : bool :=
  let n := String.length s in
  let k := String.length suffix in
  Nat.leb k n && String.eqb (substring (n - k) k s) suffix.

(** [s.toLowerCase()], on the letters A to Z. *)
Definition lower_ascii (c : ascii) : ascii :=
  let n := nat_of_ascii c in
  if Nat.leb 65 n && Nat.leb n 90 then ascii_of_nat (n + 32) else c.

Fixpoint toLowerCase (s : string) : string :=
  match s with
  | EmptyString => EmptyString
  | String c s' => String (lower_ascii c) (toLowerCase s')
  end.

(** What [includes] decides, said without the search. *)
Definition occurs_in (needle hay : string) : Prop :=
  exists pre post, hay = pre ++ needle ++ post.

End Str.

(* ------------------------------------------------------------------ *)
(** ** JavaScript values                                               *)
(* ------------------------------------------------------------------ *)

Inductive JsVal : Type :=
| JUndefined
| JNull
| JBool (b : bool)
| JNum (x : float)
| JStr (s : string)
| JArr (items : list JsVal)
| JObj (fields : list (string * JsVal)).

(** ToBoolean: [undefined], [null], [false], [+0], [-0], [NaN] and the
    empty string are falsy; every array and object is truthy. *)
Definition truthy (v : JsVal) : bool :=
  match v with
  | JUndefined | JNull => false
  | JBool b => b
  | JNum x => negb (PrimFloat.eqb x 0%float || PrimFloat.is_nan x)
  | JStr s => negb (s =? "")
  | JArr _ | JObj _ => true
  end.

(** A property key: a name ([.data]) or an index ([[0]]). *)
Inductive PropKey : Type :=
| KName (name : string)
| KIndex (i : nat).

Definition key_string (k : PropKey) : string :=
  match k with
  | KName s => s
  | KIndex i => NilEmpty.string_of_uint (Nat.to_uint i)
  end.

(** Own properties of an object, by key (the keys of an object are
    distinct; the first binding is read). *)
Fixpoint lookup_field (fields : list (string * JsVal)) (k : string) : JsVal :=
  match fields with
  | [] => JUndefined
  | (k', v) :: rest => if k' =? k then v else lookup_field rest k
  end.

(** The one-character string at index [i], as [s[i]] gives it. *)
Definition char_at (s : string) (i : nat) : JsVal :=
  match String.get i s with
  | Some c => JStr (String c EmptyString)
  | None => JUndefined
  end.

(** Errors and other thrown values.  The code looks at a caught value in
    three ways: [instanceof Error], [error.message.includes(...)] and
    [`${error}`].  The last two can themselves raise a [TypeError], so a
    thrown value is kept with what these three give. *)
Inductive ErrorCode : Type :=
| InvalidRequest
| InternalError.

(** What [String(v)] gives: a string, or a [TypeError] with this message
    (for a Symbol, or an object with no usable [toString]). *)
Inductive Rendering : Type :=
| Rendered (s : string)
| NotRenderable (reason : string).

(** - [JsError]: an [Error] with a string name and message and the
      inherited [toString];
    - [McpError]: the SDK's error class;
    - [ErrorObject]: any other instance of [Error], with the value of its
      [message] property and what [String] gives for it;
    - [NonError]: a value that is not an [Error] and converts to the
      string given;
    - [Unprintable]: a value that is not an [Error] and whose conversion
      to a string raises a [TypeError] with the message given. *)
Inductive Thrown : Type :=
| JsError (name message : string)
| McpError (code : ErrorCode) (message : string)
| ErrorObject (message : JsVal) (rendering : Rendering)
| NonError (rendering : string)
| Unprintable (reason : string).

Inductive Completion (A : Type) : Type :=
| Normal (a : A)
| Abrupt (e : Thrown).
Arguments Normal {A} a.
Arguments Abrupt {A} e.

(** [new Error(msg)] and the engine's own [TypeError]. *)
Definition new_Error (msg : string) : Thrown := JsError "Error" msg.
Definition new_TypeError (msg : string) : Thrown := JsError "TypeError" msg.

(** Member access [v[k]].  On [undefined] and [null] it raises a
    [TypeError]; primitives other than strings have none of the keys used
    here; of an array and a string only the indices are modelled (the code
    reads no [length] and no method through this function). *)
Definition member (v : JsVal) (k : PropKey) : Completion JsVal :=
  match v with
  | JUndefined =>
      Abrupt (new_TypeError
                ("Cannot read properties of undefined (reading '" ++ key_string k ++ "')"))
  | JNull =>
      Abrupt (new_TypeError
                ("Cannot read properties of null (reading '" ++ key_string k ++ "')"))
  | JBool _ | JNum _ => Normal JUndefined
  | JStr s => match k with
              | KIndex i => Normal (char_at s i)
              | KName _ => Normal JUndefined
              end
  | JArr items => match k with
                  | KIndex i => Normal (nth i items JUndefined)
                  | KName _ => Normal JUndefined
                  end
  | JObj fields => Normal (lookup_field fields (key_string k))
  end.

(** [a && b]: the value of [a] when it is falsy, otherwise the value of
    [b], which is evaluated only then. *)
Definition js_and (a : Completion JsVal) (b : JsVal -> Completion JsVal)
  : Completion JsVal :=
  match a with
  | Normal va => if truthy va then b va else Normal va
  | Abrupt e => Abrupt e
  end.

(** [a.k1.k2...]: member accesses from left to right. *)
Fixpoint member_path (v : JsVal) (ks : list PropKey) : Completion JsVal :=
  match ks with
  | [] => Normal v
  | k :: ks' => match member v k with
                | Normal v' => member_path v' ks'
                | Abrupt e => Abrupt e
                end
  end.

(** The MCP SDK's numeric codes, as they print in a message. *)
Definition code_string (c : ErrorCode) : string :=
  match c with
  | InvalidRequest => "-32600"
  | InternalError => "-32603"
  end.

Definition instanceof_Error (e : Thrown) : bool :=
  match e with
  | JsError _ _ | McpError _ _ | ErrorObject _ _ => true
  | NonError _ | Unprintable _ => false
  end.

(** [error.message]; the SDK's [McpError] passes
    [`MCP error ${code}: ${message}`] to [Error].  A value that is not an
    [Error] is not asked for it. *)
Definition message_of (e : Thrown) : JsVal :=
  match e with
  | JsError _ m => JStr m
  | McpError c m => JStr ("MCP error " ++ code_string c ++ ": " ++ m)
  | ErrorObject m _ => m
  | NonError _ | Unprintable _ => JUndefined
  end.

(** [v.includes(needle)] for a string [needle]: the substring search of
    [String.prototype] on a string, the membership test of
    [Array.prototype] on an array, and a [TypeError] on anything else:
    reading a property of [undefined] or [null], or calling what is not a
    function. *)
Definition js_includes (v : JsVal) (needle : string) : Completion bool :=
  match v with
  | JStr s => Normal (Str.includes s needle)
  | JArr items =>
      Normal (existsb (fun x => match x with
                                | JStr t => t =? needle
                                | _ => false
                                end) items)
  | JUndefined =>
      Abrupt (new_TypeError
                "Cannot read properties of undefined (reading 'includes')")
  | JNull =>
      Abrupt (new_TypeError
                "Cannot read properties of null (reading 'includes')")
  | JBool _ | JNum _ | JObj _ =>
      Abrupt (new_TypeError "error.message.includes is not a function")
  end.

(** [Error.prototype.toString] on a string name and message. *)
Definition Error_toString (n m : string) : string :=
  if n =? "" then m
  else if m =? "" then n
  else n ++ ": " ++ m.

(** [`${error}`]: the conversion of the caught value to a string, which
    raises a [TypeError] for a value that has none. *)
Definition to_string (e : Thrown) : Completion string :=
  match e with
  | JsError n m => Normal (Error_toString n m)
  | McpError c m =>
      Normal (Error_toString "McpError"
                ("MCP error " ++ code_string c ++ ": " ++ m))
  | ErrorObject _ (Rendered r) => Normal r
  | ErrorObject _ (NotRenderable reason) => Abrupt (new_TypeError reason)
  | NonError r => Normal r
  | Unprintable reason => Abrupt (new_TypeError reason)
  end.

(* ------------------------------------------------------------------ *)
(** ** Arithmetic of the fallback generator                            *)
(* ------------------------------------------------------------------ *)

(** JavaScript numbers are IEEE-754 doubles: [*], [-], [+], [/] and
    [Math.sqrt] are the operations of the kernel's primitive floats, which
    round to nearest, ties to even. *)

(** [Math.random() * 2 - 1], from the value [Math.random()] returned. *)
Definition scale_draw (r : float) : float :=
  PrimFloat.sub (PrimFloat.mul r 2%float) 1%float.

(** [embedding.reduce((sum, val) => sum + val * val, 0)] *)
Definition sum_of_squares (embedding : list float) : float :=
  fold_left (fun sum val => PrimFloat.add sum (PrimFloat.mul val val))
            embedding 0%float.

(** [Math.sqrt(embedding.reduce(...))] *)
Definition magnitude_of (embedding : list float) : float :=
  PrimFloat.sqrt (sum_of_squares embedding).

(** [embedding.map(val => val / magnitude)] *)
Definition divide_all (embedding : list float) (magnitude : float) : list float :=
  map (fun val => PrimFloat.div val magnitude) embedding.

(** The body of [generateRandomEmbedding] as a function of the values
    that the successive calls of [Math.random] return. *)
Definition embedding_of_draws (draws : list float) : list float :=
  let embedding := map scale_draw draws in
  let magnitude := magnitude_of embedding in
  divide_all embedding magnitude.


(* ------------------------------------------------------------------ *)
(** ** Handles, requests and the trace                                 *)
(* ------------------------------------------------------------------ *)

(** [new QdrantClient({ url, apiKey })] *)
Record QdrantClient : Type := {
  qdrant_url : string;
  qdrant_apiKey : string
}.

(** [new OpenAI({ apiKey, baseURL })] *)
Record OpenAI : Type := {
  openai_apiKey : string;
  openai_baseURL : option string
}.

(** What [chromium.launch()] resolves to: an object, hence truthy. *)
Definition Browser : Type := nat.

(** The second argument of [createCollection]. *)
Record CollectionParams : Type := {
  vectors_size : nat;
  vectors_distance : string;
  default_segment_number : nat;
  memmap_threshold : nat;
  replication_factor : nat
}.

(** An entry of [getCollections().collections]. *)
Record CollectionDescription : Type := {
  name : string
}.

(** An entry of the SDK's [CreateEmbeddingResponse.data]. *)
Record Embedding : Type := {
  embedding : list float
}.

Record CreateEmbeddingResponse : Type := {
  data : list Embedding
}.

Inductive Event : Type :=
| EvNewQdrantClient (url apiKey : string)
| EvNewOpenAI (apiKey : string) (baseURL : option string)
| EvLaunch (outcome : Completion Browser)
| EvClose (b : Browser)
| EvAxiosPost (url : string) (body : JsVal) (headers : list (string * string))
| EvEmbeddingsCreate (client : OpenAI) (model input : string)
| EvGetCollections (client : QdrantClient)
| EvCreateCollection (client : QdrantClient) (collection : string)
                     (params : CollectionParams)
| EvConsoleError (label : string) (error : Thrown)
| EvConsoleWarn (message : string).

(** The class's fields. [browser: any] starts out [undefined]. *)
Record ApiClient : Type := {
  qdrantClient : QdrantClient;
  openaiClient : option OpenAI;
  browser : option Browser
}.

(** The module-level constants after the two guards: the Qdrant values
    are then non-empty strings, the OpenAI ones stay [string | undefined]. *)
Record Config : Type := {
  OPENAI_API_KEY : option string;
  OPENAI_BASE_URL : option string;
  QDRANT_URL : string;
  QDRANT_API_KEY : string
}.

(** [process.env] *)
Definition Env : Type := string -> option string.

(** Truthiness of a [string | undefined]: defined and not empty. *)
Definition defined (o : option string) : bool :=
  match o with
  | Some s => negb (s =? "")
  | None => false
  end.

(** The external collaborators, over a world [W] they may read and change.
    Each promise settles either way; [Math.random] returns a number. *)
Record Services (W : Type) : Type := {
  axios_post : string -> JsVal -> list (string * string) -> W ->
               Completion JsVal * W;
  embeddings_create : OpenAI -> string -> string -> W ->
                      Completion CreateEmbeddingResponse * W;
  getCollections : QdrantClient -> W ->
                   Completion (list CollectionDescription) * W;
  createCollection : QdrantClient -> string -> CollectionParams -> W ->
                     Completion unit * W;
  chromium_launch : W -> Completion Browser * W;
  browser_close : Browser -> W -> Completion unit * W;
  Math_random : W -> float * W
}.

Record Machine (W : Type) : Type := {
  world : W;
  trace : list Event;
  this : ApiClient
}.

(* ------------------------------------------------------------------ *)
(** ** Module load and construction (lines 7-40)                       *)
(* ------------------------------------------------------------------ *)

(** What [if (x)] leaves of a [string | undefined]: the string, when it is
    defined and not empty. *)
Definition narrow (o : option string) : option string :=
  match o with
  | Some s => if s =? "" then None else Some s
  | None => None
  end.

(** Lines 8-19: the four constants are read, then the two guards run in
    order.  Nothing else has run when a guard throws. *)
Definition module_guard (env : Env) : Completion Config :=
  let openai_api_key := env "OPENAI_API_KEY" in
  let openai_base_url := env "OPENAI_BASE_URL" in
  let qdrant_url := env "QDRANT_URL" in
  let qdrant_api_key := env "QDRANT_API_KEY" in
  match narrow qdrant_url with
  | None =>
      Abrupt (new_Error
                "QDRANT_URL environment variable is required for cloud storage")
  | Some url =>
      match narrow qdrant_api_key with
      | None =>
          Abrupt (new_Error
                    "QDRANT_API_KEY environment variable is required for cloud storage")
      | Some key =>
          Normal {| OPENAI_API_KEY := openai_api_key;
                    OPENAI_BASE_URL := openai_base_url;
                    QDRANT_URL := url;
                    QDRANT_API_KEY := key |}
      end
  end.

(** The constructors of the two client libraries check their arguments
    ([new QdrantClient] refuses a URL without a scheme, for one): what each
    throws for the arguments given, when it throws. *)
Record ClientLibraries : Type := {
  QdrantClient_throws : string -> string -> option Thrown;
  OpenAI_throws : string -> option string -> option Thrown
}.

(** The object that lines 26-40 build and the client objects created, in
    the order of their creation, when the library constructors return. *)
Definition constructed (cfg : Config) : ApiClient * list Event :=
  let qdrant := {| qdrant_url := QDRANT_URL cfg;
                   qdrant_apiKey := QDRANT_API_KEY cfg |} in
  match narrow (OPENAI_API_KEY cfg) with
  | Some key =>
      let openai := {| openai_apiKey := key;
                       openai_baseURL := OPENAI_BASE_URL cfg |} in
      ({| qdrantClient := qdrant; openaiClient := Some openai; browser := None |},
       [EvNewQdrantClient (QDRANT_URL cfg) (QDRANT_API_KEY cfg);
        EvNewOpenAI key (OPENAI_BASE_URL cfg)])
  | None =>
      ({| qdrantClient := qdrant; openaiClient := None; browser := None |},
       [EvNewQdrantClient (QDRANT_URL cfg) (QDRANT_API_KEY cfg)])
  end.

(** Lines 26-40: the constructor.  A library constructor that throws ends
    it, with the client objects created until then. *)
Definition constructor (lib : ClientLibraries) (cfg : Config)
  : Completion ApiClient * list Event :=
  match QdrantClient_throws lib (QDRANT_URL cfg) (QDRANT_API_KEY cfg) with
  | Some e => (Abrupt e, [])
  | None =>
      let qdrant := {| qdrant_url := QDRANT_URL cfg;
                       qdrant_apiKey := QDRANT_API_KEY cfg |} in
      match narrow (OPENAI_API_KEY cfg) with
      | Some key =>
          match OpenAI_throws lib key (OPENAI_BASE_URL cfg) with
          | Some e =>
              (Abrupt e,
               [EvNewQdrantClient (QDRANT_URL cfg) (QDRANT_API_KEY cfg)])
          | None =>
              let openai := {| openai_apiKey := key;
                               openai_baseURL := OPENAI_BASE_URL cfg |} in
              (Normal {| qdrantClient := qdrant; openaiClient := Some openai;
                         browser := None |},
               [EvNewQdrantClient (QDRANT_URL cfg) (QDRANT_API_KEY cfg);
                EvNewOpenAI key (OPENAI_BASE_URL cfg)])
          end
      | None =>
          (Normal {| qdrantClient := qdrant; openaiClient := None;
                     browser := None |},
           [EvNewQdrantClient (QDRANT_URL cfg) (QDRANT_API_KEY cfg)])
      end
  end.

(** Importing the module and then running [new ApiClient()]: the
    completion, and the client objects created on the way. *)
Definition startup (lib : ClientLibraries) (env : Env)
  : Completion (Config * ApiClient) * list Event :=
  match module_guard env with
  | Abrupt e => (Abrupt e, [])
  | Normal cfg =>
      match constructor lib cfg with
      | (Normal client, created) => (Normal (cfg, client), created)
      | (Abrupt e, created) => (Abrupt e, created)
      end
  end.

(* ------------------------------------------------------------------ *)
(** ** Asynchronous methods                                            *)
(* ------------------------------------------------------------------ *)

Section Methods.
Context {W : Type}.
Variable svc : Services W.
Variable cfg : Config.

Definition Async (A : Type) : Type := Machine W -> Completion A * Machine W.

Definition ret {A} (a : A) : Async A := fun m => (Normal a, m).

Definition throw {A} (e : Thrown) : Async A := fun m => (Abrupt e, m).

Definition bind {A B} (c : Async A) (k : A -> Async B) : Async B :=
  fun m =>
    match c m with
    | (Normal a, m') => k a m'
    | (Abrupt e, m') => (Abrupt e, m')
    end.

(** [try { body } catch (error) { handler }] *)
Definition try_catch {A} (body : Async A) (handler : Thrown -> Async A) : Async A :=
  fun m =>
    match body m with
    | (Normal a, m') => (Normal a, m')
    | (Abrupt e, m') => handler e m'
    end.

Definition lift {A} (c : Completion A) : Async A := fun m => (c, m).

Notation "x <- c ;; k" := (bind c (fun x => k))
  (at level 61, c at next level, right associativity).
Notation "c ;;; k" := (bind c (fun _ => k))
  (at level 61, right associativity).

Definition get_this : Async ApiClient := fun m => (Normal (this m), m).

(** [this.browser = b] *)
Definition set_browser (b : Browser) : Async unit :=
  fun m =>
    (Normal tt,
     {| world := world m;
        trace := trace m;
        this := {| qdrantClient := qdrantClient (this m);
                   openaiClient := openaiClient (this m);
                   browser := Some b |} |}).

(** A synchronous effect that only leaves a record ([console.*]). *)
Definition emit (ev : Event) : Async unit :=
  fun m =>
    (Normal tt,
     {| world := world m; trace := (trace m ++ [ev])%list; this := this m |}).

(** [await] of a call to an external collaborator: the call is recorded,
    the oracle settles it. *)
Definition await {A} (ev : Event) (oracle : W -> Completion A * W) : Async A :=
  fun m =>
    let (r, w') := oracle (world m) in
    (r, {| world := w'; trace := (trace m ++ [ev])%list; this := this m |}).

(** [await chromium.launch()], recorded with what it settled to. *)
Definition launch : Async Browser :=
  fun m =>
    let (r, w') := chromium_launch svc (world m) in
    (r, {| world := w'; trace := (trace m ++ [EvLaunch r])%list; this := this m |}).

(** [Math.random()] *)
Definition random : Async float :=
  fun m =>
    let (r, w') := Math_random svc (world m) in
    (Normal r, {| world := w'; trace := trace m; this := this m |}).

(** [Array.from({ length }, fn)]: [fn] runs once per index, in order. *)
Fixpoint array_from {A} (length : nat) (fn : Async A) : Async (list A) :=
  match length with
  | O => ret []
  | S n => x <- fn ;; rest <- array_from n fn ;; ret (x :: rest)
  end.

(** Lines 42-46. *)
Definition initBrowser : Async unit :=
  self <- get_this ;;
  match browser self with
  | None => b <- launch ;; set_browser b
  | Some _ => ret tt
  end.

(** Lines 48-52. *)
Definition cleanup : Async unit :=
  self <- get_this ;;
  match browser self with
  | Some b => await (EvClose b) (browser_close svc b)
  | None => ret tt
  end.

(** Lines 101-105. *)
Definition generateRandomEmbedding (dimension : nat) : Async (list float) :=
  embedding <- array_from dimension (r <- random ;; ret (scale_draw r)) ;;
  let magnitude := magnitude_of embedding in
  ret (divide_all embedding magnitude).

(** A [number[]] as a value. *)
Definition number_array (xs : list float) : JsVal := JArr (map JNum xs).

(** Lines 59-61. *)
Definition ollamaUrl (base : string) : string :=
  if Str.endsWith base "/v1"
  then base ++ "/embeddings"
  else base ++ "/v1/embeddings".

(** Lines 64-65. *)
Definition request_body (text : string) : JsVal :=
  JObj [("model", JStr "nomic-embed-text"); ("input", JStr text)].

(** Lines 67-70: the spread adds [Authorization] only for a truthy key. *)
Definition request_headers : list (string * string) :=
  (("Content-Type", "application/json") ::
   match narrow (OPENAI_API_KEY cfg) with
   | Some key => [("Authorization", ("Bearer " ++ key)%string)]
   | None => []
   end)%list.

(** Line 73: the condition, on [response.data] (called [d] here). *)
Definition has_embedding (d : JsVal) : Completion JsVal :=
  js_and (Normal d) (fun d1 =>
  js_and (member d1 (KName "data")) (fun d2 =>
  js_and (member d2 (KIndex 0)) (fun d3 =>
  member d3 (KName "embedding")))).

(** Lines 57-76: the branch taken when [OPENAI_BASE_URL] is truthy.  The
    oracle gives the [data] of the response that [axios.post] resolves to. *)
Definition embed_direct (base text : string) : Async JsVal :=
  let url := ollamaUrl base in
  d <- await (EvAxiosPost url (request_body text) request_headers)
             (axios_post svc url (request_body text) request_headers) ;;
  c <- lift (has_embedding d) ;;
  if truthy c
  then lift (member_path d [KName "data"; KIndex 0; KName "embedding"])
  else throw (new_Error "Invalid response format from Ollama embeddings API").

(** Lines 78-90: the branch through the SDK client. *)
Definition embed_sdk (text : string) : Async JsVal :=
  self <- get_this ;;
  match openaiClient self with
  | None => throw (McpError InvalidRequest "OpenAI API key not configured")
  | Some client =>
      response <- await (EvEmbeddingsCreate client "nomic-embed-text" text)
                        (embeddings_create svc client "nomic-embed-text" text) ;;
      match data response with
      | first :: _ => ret (number_array (embedding first))
      | [] => throw (new_TypeError
                       "Cannot read properties of undefined (reading 'embedding')")
      end
  end.

(** Lines 55-91: the [try] block. *)
Definition getEmbeddings_try (text : string) : Async JsVal :=
  match narrow (OPENAI_BASE_URL cfg) with
  | Some base => embed_direct base text
  | None => embed_sdk text
  end.

(** Lines 92-98: the [catch] block. *)
Definition getEmbeddings_catch (error : Thrown) : Async JsVal :=
  emit (EvConsoleError "Embedding error details:" error) ;;;
  emit (EvConsoleWarn "Generating fallback random embeddings") ;;;
  v <- generateRandomEmbedding 768 ;;
  ret (number_array v).

(** Lines 54-99. *)
Definition getEmbeddings (text : string) : Async JsVal :=
  try_catch (getEmbeddings_try text) getEmbeddings_catch.

(** Lines 113-124: the fixed descriptor. *)
Definition collection_params : CollectionParams :=
  {| vectors_size := 768;
     vectors_distance := "Cosine";
     default_segment_number := 2;
     memmap_threshold := 20000;
     replication_factor := 2 |}.

(** Lines 109-125: the [try] block. *)
Definition initCollection_try (COLLECTION_NAME : string) : Async unit :=
  self <- get_this ;;
  collections <- await (EvGetCollections (qdrantClient self))
                       (getCollections svc (qdrantClient self)) ;;
  let exists_ := existsb (fun c => name c =? COLLECTION_NAME) collections in
  if negb exists_
  then await (EvCreateCollection (qdrantClient self) COLLECTION_NAME collection_params)
             (createCollection svc (qdrantClient self) COLLECTION_NAME collection_params)
  else ret tt.

(** Lines 126-144: the [catch] block. *)
Definition initCollection_catch (error : Thrown) : Async unit :=
  (if instanceof_Error error
   then
     unauthorized <- lift (js_includes (message_of error) "unauthorized") ;;
     if unauthorized
     then throw (McpError InvalidRequest
                   "Failed to authenticate with Qdrant cloud. Please check your API key.")
     else
       refused <- lift (js_includes (message_of error) "ECONNREFUSED") ;;
       unreachable <- (if refused
                       then ret true
                       else lift (js_includes (message_of error) "ETIMEDOUT")) ;;
       if unreachable
       then throw (McpError InternalError
                     "Failed to connect to Qdrant cloud. Please check your QDRANT_URL.")
       else ret tt
   else ret tt) ;;;
  rendered <- lift (to_string error) ;;
  throw (McpError InternalError
           ("Failed to initialize Qdrant cloud collection: " ++ rendered)).

(** Lines 107-145. *)
Definition initCollection (COLLECTION_NAME : string) : Async unit :=
  try_catch (initCollection_try COLLECTION_NAME) initCollection_catch.

End Methods.

(* ------------------------------------------------------------------ *)
(** ** Vocabulary of the statements                                    *)
(* ------------------------------------------------------------------ *)

(** [v?.[k]]: member access that gives [undefined] on a nullish value. *)
Definition opt_member (v : JsVal) (k : PropKey) : JsVal :=
  match member v k with
  | Normal x => x
  | Abrupt _ => JUndefined
  end.

(** [d?.data?.[0]?.embedding]: the place of the embedding in a response
    body shaped as [{ data: [ { embedding: [...] } ] }]. *)
Definition data0_embedding (d : JsVal) : JsVal :=
  opt_member (opt_member (opt_member d (KName "data")) (KIndex 0))
             (KName "embedding").

(** A finite double: neither NaN nor an infinity. *)
Definition finite (x : float) : bool :=
  negb (PrimFloat.is_nan x || PrimFloat.is_infinity x).

(** A value that is an array of exactly [n] numbers. *)
Definition is_vector (n : nat) (v : JsVal) : Prop :=
  exists xs, v = number_array xs /\ List.length xs = n.

(** A value that is an array of exactly [n] finite numbers. *)
Definition is_finite_vector (n : nat) (v : JsVal) : Prop :=
  exists xs, v = number_array xs /\ List.length xs = n /\ forallb finite xs = true.

(** [| sqrt (sum of squares) - 1 | <= 1e-6], computed on doubles. *)
Definition unit_within_tolerance (xs : list float) : bool :=
  PrimFloat.leb (PrimFloat.abs (PrimFloat.sub (magnitude_of xs) 1%float))
                1e-6%float.

(** The Euclidean norm of a real vector, as it is usually written. *)
Definition euclidean_norm (xs : list R) : R :=
  sqrt (fold_right (fun x acc => (x * x + acc)%R) 0%R xs).

(** The values the next [n] calls of [Math.random] return, and the world
    they leave. *)
Fixpoint draws_from {W} (svc : Services W) (n : nat) (w : W) : list float * W :=
  match n with
  | O => ([], w)
  | S n' =>
      let (r, w1) := Math_random svc w in
      let (rs, w2) := draws_from svc n' w1 in
      (r :: rs, w2)
  end.

Definition with_world {W} (m : Machine W) (w : W) : Machine W :=
  {| world := w; trace := trace m; this := this m |}.

(** The machine after one settled external call. *)
Definition after_call {W} (m : Machine W) (ev : Event) (w : W) : Machine W :=
  {| world := w; trace := (trace m ++ [ev])%list; this := this m |}.

(** The machine after a launch that resolved to [b] and was stored. *)
Definition after_launch {W} (m : Machine W) (b : Browser) (w : W) : Machine W :=
  {| world := w;
     trace := (trace m ++ [EvLaunch (Normal b)])%list;
     this := {| qdrantClient := qdrantClient (this m);
                openaiClient := openaiClient (this m);
                browser := Some b |} |}.

Definition is_create (ev : Event) : bool :=
  match ev with
  | EvCreateCollection _ _ _ => true
  | _ => false
  end.

Definition is_launched (ev : Event) : bool :=
  match ev with
  | EvLaunch (Normal _) => true
  | _ => false
  end.

Definition is_launch_call (ev : Event) : bool :=
  match ev with
  | EvLaunch _ => true
  | _ => false
  end.

Definition count (p : Event -> bool) (t : list Event) : nat :=
  List.length (filter p t).

Definition listed (collection : string) (cs : list CollectionDescription) : bool :=
  existsb (fun c => name c =? collection) cs.

(** The store answers [getCollections] at [w] and lists [collection]. *)
Definition lists_collection {W} (svc : Services W) (q : QdrantClient)
           (collection : string) (w : W) : Prop :=
  exists cs w', getCollections svc q w = (Normal cs, w') /\
                listed collection cs = true.

(** A store that keeps what it has: a collection it listed, or created
    with success, is listed by the next [getCollections]. *)
Definition coherent_store {W} (svc : Services W) (q : QdrantClient)
           (collection : string) : Prop :=
  (forall w cs w',
      getCollections svc q w = (Normal cs, w') ->
      listed collection cs = true ->
      lists_collection svc q collection w') /\
  (forall w params w',
      createCollection svc q collection params w = (Normal tt, w') ->
      lists_collection svc q collection w').

(** What the [catch] block of [initCollection] raises for the value it
    caught, in the order the code tests: the three classes, and the two
    places where the block itself raises a [TypeError] (the call of
    [includes] on the message, the conversion to a string). *)
Inductive surfaces : Thrown -> Thrown -> Prop :=
| surfaces_auth (e : Thrown) :
    instanceof_Error e = true ->
    js_includes (message_of e) "unauthorized" = Normal true ->
    surfaces e
      (McpError InvalidRequest
         "Failed to authenticate with Qdrant cloud. Please check your API key.")
| surfaces_connectivity (e : Thrown) :
    instanceof_Error e = true ->
    js_includes (message_of e) "unauthorized" = Normal false ->
    js_includes (message_of e) "ECONNREFUSED" = Normal true \/
    js_includes (message_of e) "ETIMEDOUT" = Normal true ->
    surfaces e
      (McpError InternalError
         "Failed to connect to Qdrant cloud. Please check your QDRANT_URL.")
| surfaces_generic (e : Thrown) (rendered : string) :
    instanceof_Error e = false \/
    (js_includes (message_of e) "unauthorized" = Normal false /\
     js_includes (message_of e) "ECONNREFUSED" = Normal false /\
     js_includes (message_of e) "ETIMEDOUT" = Normal false) ->
    to_string e = Normal rendered ->
    surfaces e
      (McpError InternalError
         ("Failed to initialize Qdrant cloud collection: " ++ rendered))
| surfaces_includes_error (e t : Thrown) :
    instanceof_Error e = true ->
    js_includes (message_of e) "unauthorized" = Abrupt t ->
    surfaces e t
| surfaces_string_error (e t : Thrown) :
    instanceof_Error e = false \/
    (js_includes (message_of e) "unauthorized" = Normal false /\
     js_includes (message_of e) "ECONNREFUSED" = Normal false /\
     js_includes (message_of e) "ETIMEDOUT" = Normal false) ->
    to_string e = Abrupt t ->
    surfaces e t.

(** The thrown values of the everyday kind: an [Error] with a string
    message and the inherited [toString], the SDK's error, or a value that
    is not an [Error] and converts to a string. *)
Definition ordinary (e : Thrown) : bool :=
  match e with
  | JsError _ _ | McpError _ _ | NonError _ => true
  | ErrorObject _ _ | Unprintable _ => false
  end.

(** A caller's use of the browser life cycle: calls made one after the
    other, each awaited, a rejection not stopping the next call. *)
Inductive Op : Type :=
| OpInitBrowser
| OpCleanup.

Definition run_op {W} (svc : Services W) (op : Op) (m : Machine W) : Machine W :=
  match op with
  | OpInitBrowser => snd (initBrowser svc m)
  | OpCleanup => snd (cleanup svc m)
  end.

Definition run_ops {W} (svc : Services W) (ops : list Op) (m : Machine W)
  : Machine W :=
  fold_left (fun m' op => run_op svc op m') ops m.

(** The kinds of events, by the collaborator they reach. *)
Definition is_embedding_request (ev : Event) : bool :=
  match ev with
  | EvAxiosPost _ _ _ | EvEmbeddingsCreate _ _ _ => true
  | _ => false
  end.

Definition is_console (ev : Event) : bool :=
  match ev with
  | EvConsoleError _ _ | EvConsoleWarn _ => true
  | _ => false
  end.

Definition is_qdrant_call (ev : Event) : bool :=
  match ev with
  | EvGetCollections _ | EvCreateCollection _ _ _ => true
  | _ => false
  end.

Definition is_browser_call (ev : Event) : bool :=
  match ev with
  | EvLaunch _ | EvClose _ => true
  | _ => false
  end.





(* ------------------------------------------------------------------ *)
(** ** A simulated world, to run the methods on                        *)
(* ------------------------------------------------------------------ *)

Module Sim.

(** An in-memory store, an embeddings endpoint with one fixed answer per
    path, a launcher that numbers the browsers, and a random source that
    returns [draw_default] each time.  A fault, when set, is what every
    call of that service rejects with. *)
Record World : Type := {
  http : Completion JsVal;
  sdk : Completion CreateEmbeddingResponse;
  store : list string;
  qdrant_fault : option Thrown;
  next_browser : nat;
  launch_fault : option Thrown;
  close_fault : option Thrown;
  draw_default : float
}.

Definition settle {A} (fault : option Thrown) (a : A) : Completion A :=
  match fault with
  | Some e => Abrupt e
  | None => Normal a
  end.

Definition add_collection (collection : string) (w : World) : World :=
  match qdrant_fault w with
  | Some _ => w
  | None =>
      {| http := http w; sdk := sdk w;
         store := (store w ++ [collection])%list;
         qdrant_fault := qdrant_fault w;
         next_browser := next_browser w;
         launch_fault := launch_fault w;
         close_fault := close_fault w;
         draw_default := draw_default w |}
  end.

Definition bump_browser (w : World) : World :=
  match launch_fault w with
  | Some _ => w
  | None =>
      {| http := http w; sdk := sdk w; store := store w;
         qdrant_fault := qdrant_fault w;
         next_browser := S (next_browser w);
         launch_fault := launch_fault w;
         close_fault := close_fault w;
         draw_default := draw_default w |}
  end.

Definition services : Services World :=
  {| axios_post := fun _ _ _ w => (http w, w);
     embeddings_create := fun _ _ _ w => (sdk w, w);
     getCollections := fun _ w =>
       (settle (qdrant_fault w) (map (fun n => {| name := n |}) (store w)), w);
     createCollection := fun _ collection _ w =>
       (settle (qdrant_fault w) tt, add_collection collection w);
     chromium_launch := fun w =>
       (settle (launch_fault w) (next_browser w), bump_browser w);
     browser_close := fun _ w => (settle (close_fault w) tt, w);
     Math_random := fun w => (draw_default w, w) |}.

(** A world where every service answers and the store is empty. *)
Definition calm : World :=
  {| http := Normal JUndefined;
     sdk := Normal {| data := [] |};
     store := [];
     qdrant_fault := None;
     next_browser := 0;
     launch_fault := None;
     close_fault := None;
     draw_default := 0.25%float |}.

Definition with_http (r : Completion JsVal) (w : World) : World :=
  {| http := r; sdk := sdk w; store := store w;
     qdrant_fault := qdrant_fault w; next_browser := next_browser w;
     launch_fault := launch_fault w; close_fault := close_fault w;
     draw_default := draw_default w |}.

Definition with_qdrant_fault (e : Thrown) (w : World) : World :=
  {| http := http w; sdk := sdk w; store := store w;
     qdrant_fault := Some e; next_browser := next_browser w;
     launch_fault := launch_fault w; close_fault := close_fault w;
     draw_default := draw_default w |}.

Definition with_draw (r : float) (w : World) : World :=
  {| http := http w; sdk := sdk w; store := store w;
     qdrant_fault := qdrant_fault w; next_browser := next_browser w;
     launch_fault := launch_fault w; close_fault := close_fault w;
     draw_default := r |}.

(** Client libraries whose constructors accept every argument. *)
Definition libraries : ClientLibraries :=
  {| QdrantClient_throws := fun _ _ => None;
     OpenAI_throws := fun _ _ => None |}.

(** Client libraries where [new QdrantClient] wants a URL with a scheme,
    as the real one does. *)
Definition strict_libraries : ClientLibraries :=
  {| QdrantClient_throws := fun url _ =>
       if Str.startsWith "http://" url || Str.startsWith "https://" url
       then None
       else Some (JsError "QdrantClientConfigError"
                    "The `url` param expects full URL with scheme, ex.: `http://localhost:6333`.");
     OpenAI_throws := fun _ _ => None |}.

(** An environment with the two Qdrant values and nothing else. *)
Definition env_qdrant_only : Env :=
  fun k =>
    if k =? "QDRANT_URL" then Some "https://qdrant.example:6333"
    else if k =? "QDRANT_API_KEY" then Some "secret"
    else None.

(** The same with an Ollama base URL that does not end in [/v1]. *)
Definition env_ollama : Env :=
  fun k =>
    if k =? "OPENAI_BASE_URL" then Some "http://localhost:11434"
    else env_qdrant_only k.

Definition cfg_qdrant_only : Config :=
  {| OPENAI_API_KEY := None; OPENAI_BASE_URL := None;
     QDRANT_URL := "https://qdrant.example:6333";
     QDRANT_API_KEY := "secret" |}.

Definition cfg_ollama : Config :=
  {| OPENAI_API_KEY := None;
     OPENAI_BASE_URL := Some "http://localhost:11434";
     QDRANT_URL := "https://qdrant.example:6333";
     QDRANT_API_KEY := "secret" |}.

(** The machine right after [new ApiClient()] under [cfg], in world [w]. *)
Definition boot (cfg : Config) (w : World) : Machine World :=
  {| world := w;
     trace := snd (constructed cfg);
     this := fst (constructed cfg) |}.

(** A response body with a three-component embedding. *)
Definition short_body : JsVal :=
  JObj [("data",
         JArr [JObj [("embedding",
                      JArr [JNum 1%float; JNum 2%float; JNum 3%float])]])].

End Sim.

(* ------------------------------------------------------------------ *)
(** ** Doubles as real numbers                                         *)
(* ------------------------------------------------------------------ *)

(** The vocabulary of the statements about rounding.  A double is read
    through [Prim2SF], the kernel's view of a primitive float as a sign, a
    mantissa and an exponent. *)

Section DoubleValues.
Local Open Scope R_scope.

(** [2^e] for an integer [e]. *)
Definition pow2 (e : Z) : R := powerRZ 2 e.

(** The sign bit, as a factor. *)
Definition sgn (s : bool) : R := if s then -1 else 1.

(** The real number for a sign, a mantissa and an exponent. *)
Definition SF2R (x : spec_float) : R :=
  match x with
  | S754_finite s m e => sgn s * (IZR (Zpos m) * pow2 e)
  | _ => 0
  end.

(** Neither NaN nor an infinity. *)
Definition SFfinite (x : spec_float) : bool :=
  match x with
  | S754_zero _ | S754_finite _ _ _ => true
  | _ => false
  end.

(** The real number a double stands for (0 for NaN and the infinities,
    which the statements exclude with [finite]). *)
Definition value (x : float) : R := SF2R (Prim2SF x).

(** A real [V] in [[m, m+1)], with the two bits that say where: on [m],
    below the middle, on the middle, above the middle. *)
Definition located (mrs : shr_record) (V : R) : Prop :=
  let f := V - IZR (shr_m mrs) in
  match shr_r mrs, shr_s mrs with
  | false, false => f = 0
  | false, true => 0 < f < 1 / 2
  | true, false => f = 1 / 2
  | true, true => 1 / 2 < f < 1
  end.

(** [x] is a positive real [V] rounded to the 53-bit grid of its binade:
    a multiple of the grid step at most half a step away. *)
Definition rounded (V x : R) : Prop :=
  exists E k : Z,
    pow2 (E - 1) <= V < pow2 E /\
    Rabs (IZR k - V / pow2 (fexp prec emax E)) <= 1 / 2 /\
    x = IZR k * pow2 (fexp prec emax E).

(** The same for a real of either sign; a real of the format is kept. *)
Definition rounded_signed (V x : R) : Prop :=
  x = V \/ (0 < V /\ rounded V x) \/ (V < 0 /\ rounded (- V) (- x)).

(** A real of the format: at most 53 bits above [2^-1074]. *)
Definition representable (V : R) : Prop :=
  exists m e : Z, V = IZR m * pow2 e /\ (Z.abs m < 2 ^ 53)%Z /\ (-1074 <= e)%Z.

(** The unit roundoff of the doubles. *)
Definition roundoff : R := pow2 (-53).

(** The sum of the squares of a real vector. *)
Definition sumsq (xs : list R) : R :=
  fold_right (fun x acc => x * x + acc) 0 xs.

(** A finite double, zero or between [2^-b] and [2^h] in magnitude. *)
Definition in_range (b h : Z) (x : float) : Prop :=
  finite x = true /\
  Rabs (value x) <= pow2 h /\
  (value x = 0 \/ pow2 (- b) <= Rabs (value x)).

(** What the running sum of [k] squares, exactly [A], may be. *)
Definition partial_sum (b h : Z) (s : float) (A : R) (k : nat) : Prop :=
  finite s = true /\
  A * (1 - roundoff) ^ (2 * k) <= value s <= A * (1 + roundoff) ^ (2 * k) /\
  (A = 0 \/ pow2 (- (2 * b)) <= A) /\
  0 <= A <= INR k * pow2 (2 * h).

(** What the code computes as the magnitude of a vector whose sum of
    squares is exactly [sumsq (map value xs)]. *)
Definition magnitude_facts (xs : list float) (M : R) : Prop :=
  0 < M /\
  sumsq (map value xs) *
    ((1 - roundoff) ^ (2 * List.length xs) * ((1 - roundoff) * (1 - roundoff)))
    <= M * M /\
  M * M
    <= sumsq (map value xs) *
       ((1 + roundoff) ^ (2 * List.length xs) * ((1 + roundoff) * (1 + roundoff))).

End DoubleValues.

(** A value [Math.random] may return: a double in [[0, 1)]. *)
Definition unit_draw (r : float) : bool :=
  PrimFloat.leb 0%float r && PrimFloat.ltb r 1%float.


(* ================================================================== *)
(** * Properties                                                       *)
(* ================================================================== *)

Unset Implicit Arguments.

(* ------------------------------------------------------------------ *)
(** ** String search                                                   *)
(* ------------------------------------------------------------------ *)

Lemma startsWith_spec (needle hay : string) :
  Str.startsWith needle hay = true <-> exists post, hay = needle ++ post.
Proof.
  revert hay. induction needle as [|a n IH]; intros hay; simpl.
  - split; [intros _; now exists hay | reflexivity].
  - destruct hay as [|b h].
    + split; [discriminate | intros [post E]; discriminate].
    + rewrite andb_true_iff, Ascii.eqb_eq, IH. split.
      * intros [-> [post ->]]. now exists post.
      * intros [post E]. injection E as -> ->. split; [reflexivity | now exists post].
Qed.

Lemma includes_spec (hay needle : string) :
  Str.includes hay needle = true <-> Str.occurs_in needle hay.
Proof.
  unfold Str.occurs_in. induction hay as [|c h IH].
  - cbn [Str.includes]. rewrite orb_false_r, startsWith_spec. split.
    + intros [post E]. now exists "", post.
    + intros [pre [post E]]. destruct pre; [now exists post | discriminate].
  - cbn [Str.includes]. rewrite orb_true_iff, startsWith_spec, IH. split.
    + intros [[post E] | [pre [post E]]].
      * now exists "", post.
      * exists (String c pre), post. simpl. now rewrite E.
    + intros [pre [post E]]. destruct pre as [|c' pre].
      * left. now exists post.
      * right. simpl in E. injection E as _ E. now exists pre, post.
Qed.

Lemma includes_false (hay needle : string) :
  Str.includes hay needle = false <-> ~ Str.occurs_in needle hay.
Proof.
  rewrite <- includes_spec. destruct (Str.includes hay needle); split; try easy.
Qed.

Lemma substring_skip (pre s : string) (k : nat) :
  substring (String.length pre) k (pre ++ s) = substring 0 k s.
Proof. induction pre as [|c pre IH]; simpl; [reflexivity | exact IH]. Qed.

Lemma substring_whole (s : string) :
  substring 0 (String.length s) s = s.
Proof. induction s as [|c s IH]; simpl; [reflexivity | now rewrite IH]. Qed.

Lemma split_at (s : string) (i : nat) :
  i <= String.length s ->
  s = substring 0 i s ++ substring i (String.length s - i) s.
Proof.
  revert i. induction s as [|c s IH]; intros i Hi.
  - destruct i; [reflexivity | simpl in Hi; lia].
  - destruct i as [|i].
    + cbn [substring append]. change (String.length (String c s) - 0)
        with (S (String.length s)). cbn [substring]. now rewrite substring_whole.
    + simpl in Hi. cbn [substring append String.length Nat.sub].
      f_equal. apply IH. lia.
Qed.

Lemma length_append (a b : string) :
  String.length (a ++ b) = String.length a + String.length b.
Proof. induction a as [|c a IH]; simpl; [reflexivity | now rewrite IH]. Qed.

(** [endsWith] decides "is of the form [pre ++ suffix]". *)
Lemma endsWith_spec (s suffix : string) :
  Str.endsWith s suffix = true <-> exists pre, s = pre ++ suffix.
Proof.
  unfold Str.endsWith. rewrite andb_true_iff, Nat.leb_le, String.eqb_eq. split.
  - intros [Hle E]. exists (substring 0 (String.length s - String.length suffix) s).
    pose proof (split_at s (String.length s - String.length suffix)) as Hs.
    replace (String.length s - (String.length s - String.length suffix))
      with (String.length suffix) in Hs by lia.
    rewrite E in Hs. apply Hs. lia.
  - intros [pre ->]. rewrite length_append. split; [lia|].
    replace (String.length pre + String.length suffix - String.length suffix)
      with (String.length pre) by lia.
    rewrite substring_skip. apply substring_whole.
Qed.

(* ------------------------------------------------------------------ *)
(** ** The fallback generator                                          *)
(* ------------------------------------------------------------------ *)

Section FallbackFacts.
Context {W : Type}.
Variable svc : Services W.

Lemma draws_from_length (n : nat) (w : W) :
  List.length (fst (draws_from svc n w)) = n.
Proof.
  revert w. induction n as [|n IH]; intros w; simpl; [reflexivity|].
  destruct (Math_random svc w) as [r w1]. specialize (IH w1).
  destruct (draws_from svc n w1) as [rs w2]. simpl in *. now rewrite IH.
Qed.

(** [Array.from] with the generator's callback: [Math.random] is called
    once per index, and each value is scaled at once. *)
Lemma array_from_random (n : nat) (m : Machine W) :
  array_from n (bind (random svc) (fun r => ret (scale_draw r))) m =
  (Normal (map scale_draw (fst (draws_from svc n (world m)))),
   with_world m (snd (draws_from svc n (world m)))).
Proof.
  revert m. induction n as [|n IH]; intros m.
  - destruct m; reflexivity.
  - cbn [array_from draws_from]. unfold bind at 1. unfold bind at 1.
    unfold random at 1.
    destruct (Math_random svc (world m)) as [r w1]. cbn [ret].
    unfold bind at 1. rewrite IH. cbn [world].
    destruct (draws_from svc n w1) as [rs w2]. reflexivity.
Qed.

(** The generator never raises: it returns the draws, scaled and divided
    by their magnitude, and touches nothing but the random source. *)
Lemma generateRandomEmbedding_run (n : nat) (m : Machine W) :
  generateRandomEmbedding svc n m =
  (Normal (embedding_of_draws (fst (draws_from svc n (world m)))),
   with_world m (snd (draws_from svc n (world m)))).
Proof.
  unfold generateRandomEmbedding, bind. rewrite array_from_random. reflexivity.
Qed.

End FallbackFacts.

Lemma embedding_of_draws_length (draws : list float) :
  List.length (embedding_of_draws draws) = List.length draws.
Proof.
  unfold embedding_of_draws, divide_all. now rewrite !length_map.
Qed.

(* ------------------------------------------------------------------ *)
(** ** getEmbeddings                                                   *)
(* ------------------------------------------------------------------ *)

Section EmbeddingFacts.
Context {W : Type}.
Variable svc : Services W.
Variable cfg : Config.

(** What the [catch] block does with any error. *)
Lemma getEmbeddings_catch_run (error : Thrown) (m : Machine W) :
  getEmbeddings_catch svc error m =
  (Normal (number_array
             (embedding_of_draws (fst (draws_from svc 768 (world m))))),
   {| world := snd (draws_from svc 768 (world m));
      trace := (trace m ++
                [EvConsoleError "Embedding error details:" error;
                 EvConsoleWarn "Generating fallback random embeddings"])%list;
      this := this m |}).
Proof.
  unfold getEmbeddings_catch, bind, emit.
  rewrite generateRandomEmbedding_run. cbn [world trace this with_world ret].
  now rewrite <- app_assoc.
Qed.

Lemma getEmbeddings_of_try (text : string) (m : Machine W) :
  getEmbeddings svc cfg text m =
  match getEmbeddings_try svc cfg text m with
  | (Normal v, m') => (Normal v, m')
  | (Abrupt error, m') => getEmbeddings_catch svc error m'
  end.
Proof. reflexivity. Qed.

End EmbeddingFacts.

(** C1.  Whatever the services do (the oracles and the world are
    arbitrary: a rejected request, a malformed body, no SDK client),
    [getEmbeddings] completes normally.  When the [try] block completes
    normally its value is returned; when it raises, on either path, the
    error is logged and the value returned is the vector generated locally
    from the next 768 values of [Math.random]. *)
Theorem C1_getEmbeddings_never_raises :
  forall (W : Type) (svc : Services W) (cfg : Config) (text : string)
         (m : Machine W),
    (exists v m', getEmbeddings svc cfg text m = (Normal v, m')) /\
    match getEmbeddings_try svc cfg text m with
    | (Normal v, m') => getEmbeddings svc cfg text m = (Normal v, m')
    | (Abrupt error, m') =>
        getEmbeddings svc cfg text m =
        (Normal (number_array
                   (embedding_of_draws (fst (draws_from svc 768 (world m'))))),
         {| world := snd (draws_from svc 768 (world m'));
            trace := (trace m' ++
                      [EvConsoleError "Embedding error details:" error;
                       EvConsoleWarn "Generating fallback random embeddings"])%list;
            this := this m' |})
    end.
Proof.
  intros W svc cfg text m. rewrite getEmbeddings_of_try.
  destruct (getEmbeddings_try svc cfg text m) as [[v | error] m'].
  - split; [now exists v, m' | reflexivity].
  - rewrite getEmbeddings_catch_run. split; [eauto | reflexivity].
Qed.

(* ------------------------------------------------------------------ *)
(** ** The condition of line 73                                        *)
(* ------------------------------------------------------------------ *)

Lemma narrow_Some (o : option string) (s : string) :
  narrow o = Some s <-> o = Some s /\ s <> "".
Proof.
  destruct o as [t|]; simpl.
  - destruct (String.eqb_spec t "") as [E | N].
    + split; [discriminate | intros [H1 H2]; congruence].
    + split; [intros H; injection H as <-; now split | intros [H _]; exact H].
  - split; [discriminate | intros [H _]; discriminate].
Qed.

Lemma narrow_None (o : option string) :
  narrow o = None <-> defined o = false.
Proof.
  destruct o as [t|]; simpl; [|tauto].
  destruct (t =? ""); simpl; split; congruence.
Qed.

(** A falsy value has none of the properties: [v?.[k]] is [undefined]. *)
Lemma opt_member_falsy (v : JsVal) (k : PropKey) :
  truthy v = false -> opt_member v k = JUndefined.
Proof.
  unfold opt_member. destruct v as [| |b|x|s|items|fields]; simpl; try easy.
  destruct s as [|c s]; [|discriminate]. intros _.
  destruct k as [n|i]; [reflexivity|]. now destruct i.
Qed.

(** On a truthy value member access does not raise. *)
Lemma member_truthy (v : JsVal) (k : PropKey) :
  truthy v = true -> member v k = Normal (opt_member v k).
Proof.
  unfold opt_member. destruct v; simpl; try discriminate; intros _;
    try reflexivity; now destruct k.
Qed.

(** The chain of [&&] is truthy exactly when [d?.data?.[0]?.embedding]
    is, and then both it and the [return] expression have that value. *)
Lemma has_embedding_spec (d : JsVal) :
  exists c,
    has_embedding d = Normal c /\
    truthy c = truthy (data0_embedding d) /\
    (truthy c = true ->
     c = data0_embedding d /\
     member_path d [KName "data"; KIndex 0; KName "embedding"] =
     Normal (data0_embedding d)).
Proof.
  unfold has_embedding, data0_embedding. cbn [js_and member_path].
  destruct (truthy d) eqn:T1.
  2:{ exists d. rewrite (opt_member_falsy d _ T1). simpl.
      rewrite T1. repeat split; congruence. }
  rewrite (member_truthy d _ T1).
  set (d2 := opt_member d (KName "data")). cbn [js_and].
  destruct (truthy d2) eqn:T2.
  2:{ exists d2. rewrite (opt_member_falsy d2 _ T2). simpl.
      rewrite T2. repeat split; congruence. }
  rewrite (member_truthy d2 _ T2).
  set (d3 := opt_member d2 (KIndex 0)). cbn [js_and].
  destruct (truthy d3) eqn:T3.
  2:{ exists d3. rewrite (opt_member_falsy d3 _ T3). simpl.
      rewrite T3. repeat split; congruence. }
  rewrite (member_truthy d3 _ T3).
  exists (opt_member d3 (KName "embedding")). repeat split; reflexivity.
Qed.

Section DirectFacts.
Context {W : Type}.
Variable svc : Services W.
Variable cfg : Config.

(** The direct branch: one POST, then the check of the body. *)
Lemma embed_direct_run (base text : string) (m : Machine W) :
  let url := ollamaUrl base in
  let body := request_body text in
  let headers := request_headers cfg in
  let r := axios_post svc url body headers (world m) in
  embed_direct svc cfg base text m =
  (match fst r with
   | Abrupt e => Abrupt e
   | Normal d =>
       if truthy (data0_embedding d)
       then Normal (data0_embedding d)
       else Abrupt (new_Error "Invalid response format from Ollama embeddings API")
   end,
   after_call m (EvAxiosPost url body headers) (snd r)).
Proof.
  cbv zeta. unfold embed_direct, bind, await, after_call.
  destruct (axios_post svc (ollamaUrl base) (request_body text)
              (request_headers cfg) (world m)) as [[d | e] w']; cbn [fst snd].
  2: reflexivity.
  unfold lift. destruct (has_embedding_spec d) as [c [Hc [Ht Hv]]].
  rewrite Hc, Ht. destruct (truthy (data0_embedding d)) eqn:T.
  - rewrite Ht in Hv. destruct (Hv eq_refl) as [_ Hp]. now rewrite Hp.
  - reflexivity.
Qed.

(** The SDK branch. *)
Lemma embed_sdk_run (text : string) (m : Machine W) :
  embed_sdk svc text m =
  match openaiClient (this m) with
  | None => (Abrupt (McpError InvalidRequest "OpenAI API key not configured"), m)
  | Some client =>
      let r := embeddings_create svc client "nomic-embed-text" text (world m) in
      (match fst r with
       | Abrupt e => Abrupt e
       | Normal response =>
           match data response with
           | first :: _ => Normal (number_array (embedding first))
           | [] => Abrupt (new_TypeError
                             "Cannot read properties of undefined (reading 'embedding')")
           end
       end,
       after_call m (EvEmbeddingsCreate client "nomic-embed-text" text) (snd r))
  end.
Proof.
  unfold embed_sdk, bind, get_this. cbn [fst snd].
  destruct (openaiClient (this m)) as [client|]; [|reflexivity].
  unfold await, after_call.
  destruct (embeddings_create svc client "nomic-embed-text" text (world m))
    as [[response | e] w']; cbn [fst snd]; [|reflexivity].
  destruct (data response); reflexivity.
Qed.

End DirectFacts.

Lemma request_headers_authorization (cfg : Config) (v : string) :
  In ("Authorization", v) (request_headers cfg) <->
  exists key, OPENAI_API_KEY cfg = Some key /\ key <> "" /\ v = "Bearer " ++ key.
Proof.
  unfold request_headers.
  destruct (narrow (OPENAI_API_KEY cfg)) as [key|] eqn:N.
  - apply narrow_Some in N. destruct N as [E Hk]. split.
    + intros [H | [H | []]]; [discriminate|]. injection H as <-. now exists key.
    + intros [key' [E' [_ ->]]]. right. left. congruence.
  - split.
    + intros [H | []]. discriminate.
    + intros [key [E [Hk _]]].
      assert (narrow (OPENAI_API_KEY cfg) = Some key) by now apply narrow_Some.
      congruence.
Qed.

(** C9.  With a base URL override configured (defined and not empty), the
    [try] block of [getEmbeddings] makes exactly one external call, the
    POST (so no call of the SDK client): its target is [base/embeddings]
    when [base] ends in [/v1] and [base/v1/embeddings] otherwise; its body
    is [{ model: "nomic-embed-text", input: text }]; its headers carry
    [Authorization: Bearer key] if and only if an API key is configured.
    When the request settles with a body [d] whose [d.data[0].embedding]
    is there (truthy) that value is returned; when it is absent the block
    raises [Invalid response format ...], which [getEmbeddings] hands to
    its [catch] block, as it does a rejected request. *)
Theorem C9_direct_http_branch :
  forall (W : Type) (svc : Services W) (cfg : Config) (text base : string)
         (m : Machine W),
    OPENAI_BASE_URL cfg = Some base ->
    base <> "" ->
    exists url headers,
      ((exists pre, base = pre ++ "/v1") -> url = base ++ "/embeddings") /\
      (~ (exists pre, base = pre ++ "/v1") -> url = base ++ "/v1/embeddings") /\
      In ("Content-Type", "application/json") headers /\
      (forall v,
          In ("Authorization", v) headers <->
          exists key,
            OPENAI_API_KEY cfg = Some key /\ key <> "" /\ v = "Bearer " ++ key) /\
      let body := JObj [("model", JStr "nomic-embed-text"); ("input", JStr text)] in
      let r := axios_post svc url body headers (world m) in
      let m1 := after_call m (EvAxiosPost url body headers) (snd r) in
      let invalid :=
        new_Error "Invalid response format from Ollama embeddings API" in
      getEmbeddings_try svc cfg text m =
      (match fst r with
       | Normal d =>
           if truthy (data0_embedding d)
           then Normal (data0_embedding d)
           else Abrupt invalid
       | Abrupt e => Abrupt e
       end, m1) /\
      getEmbeddings svc cfg text m =
      match fst r with
      | Normal d =>
          if truthy (data0_embedding d)
          then (Normal (data0_embedding d), m1)
          else getEmbeddings_catch svc invalid m1
      | Abrupt e => getEmbeddings_catch svc e m1
      end.
Proof.
  intros W svc cfg text base m Hbase Hne.
  assert (N : narrow (OPENAI_BASE_URL cfg) = Some base) by now apply narrow_Some.
  exists (ollamaUrl base), (request_headers cfg).
  split; [|split; [|split; [|split]]].
  - intros Hv. apply endsWith_spec in Hv. unfold ollamaUrl. now rewrite Hv.
  - intros Hv. unfold ollamaUrl.
    destruct (Str.endsWith base "/v1") eqn:E; [|reflexivity].
    apply endsWith_spec in E. contradiction.
  - left. reflexivity.
  - apply request_headers_authorization.
  - cbv zeta. rewrite getEmbeddings_of_try. unfold getEmbeddings_try. rewrite N.
    pose proof (embed_direct_run svc cfg base text m) as R. cbv zeta in R.
    unfold request_body in R. rewrite R. split.
    + destruct (fst (axios_post svc (ollamaUrl base) _ _ (world m))) as [d | e];
        [destruct (truthy (data0_embedding d))|]; reflexivity.
    + destruct (fst (axios_post svc (ollamaUrl base) _ _ (world m))) as [d | e];
        [destruct (truthy (data0_embedding d))|]; reflexivity.
Qed.

(** The theorem at an Ollama base URL that does not end in [/v1], with a
    server that answers a well-formed body. *)
Lemma C9_direct_http_branch_witness :
  exists url : string,
    url = "http://localhost:11434/v1/embeddings" /\
    exists headers : list (string * string),
      ~ In ("Authorization", "Bearer ") headers /\
      fst (getEmbeddings_try Sim.services Sim.cfg_ollama "hello"
             (Sim.boot Sim.cfg_ollama
                (Sim.with_http (Normal Sim.short_body) Sim.calm))) =
      Normal (JArr [JNum 1%float; JNum 2%float; JNum 3%float]).
Proof.
  destruct (C9_direct_http_branch Sim.World Sim.services Sim.cfg_ollama
              "hello" "http://localhost:11434"
              (Sim.boot Sim.cfg_ollama
                 (Sim.with_http (Normal Sim.short_body) Sim.calm))
              eq_refl ltac:(discriminate))
    as [url [headers [_ [Hurl [_ [Hauth [Htry _]]]]]]].
  exists url. split.
  - apply Hurl. intros Hv. apply endsWith_spec in Hv. discriminate Hv.
  - exists headers. split.
    + intros Hin. apply Hauth in Hin. destruct Hin as [key [E _]]. discriminate E.
    + rewrite Htry. reflexivity.
Defined.

Lemma number_array_length (xs ys : list float) :
  number_array xs = number_array ys -> List.length xs = List.length ys.
Proof.
  unfold number_array. intros E. injection E as E.
  apply (f_equal (@List.length JsVal)) in E. now rewrite !length_map in E.
Qed.

(** C2, as the code has it.  On the fallback path the value returned is an
    array of exactly 768 numbers.  On the two other paths the value is the
    service's, unchanged and unchecked: [d.data[0].embedding] of the body
    [d] of the HTTP response, or [response.data[0].embedding] of the SDK's
    response, whatever its length. *)
Theorem C2_result_by_path :
  forall (W : Type) (svc : Services W) (cfg : Config) (text : string)
         (m : Machine W),
    match getEmbeddings_try svc cfg text m with
    | (Abrupt _, _) =>
        exists v, fst (getEmbeddings svc cfg text m) = Normal v /\ is_vector 768 v
    | (Normal v, _) =>
        fst (getEmbeddings svc cfg text m) = Normal v /\
        match narrow (OPENAI_BASE_URL cfg) with
        | Some base =>
            exists d,
              fst (axios_post svc (ollamaUrl base) (request_body text)
                     (request_headers cfg) (world m)) = Normal d /\
              v = data0_embedding d
        | None =>
            exists client response first rest,
              openaiClient (this m) = Some client /\
              fst (embeddings_create svc client "nomic-embed-text" text (world m))
              = Normal response /\
              data response = first :: rest /\
              v = number_array (embedding first)
        end
    end.
Proof.
  intros W svc cfg text m.
  rewrite getEmbeddings_of_try.
  destruct (getEmbeddings_try svc cfg text m) as [[v | error] m'] eqn:T.
  - split; [reflexivity|].
    unfold getEmbeddings_try in T.
    destruct (narrow (OPENAI_BASE_URL cfg)) as [base|].
    + pose proof (embed_direct_run svc cfg base text m) as R. cbv zeta in R.
      rewrite R in T. clear R.
      destruct (fst (axios_post svc _ _ _ (world m))) as [d | e];
        [|discriminate T].
      exists d. split; [reflexivity|]. cbv beta iota in T.
      destruct (truthy (data0_embedding d)); [|discriminate T].
      injection T as <- _. reflexivity.
    + rewrite embed_sdk_run in T.
      destruct (openaiClient (this m)) as [client|]; [|discriminate T].
      cbv zeta in T.
      destruct (fst (embeddings_create svc client _ text (world m)))
        as [response | e] eqn:R; [|discriminate T].
      destruct (data response) as [|first rest] eqn:D; [discriminate T|].
      injection T as <- _. now exists client, response, first, rest.
  - rewrite getEmbeddings_catch_run. cbn [fst]. eexists. split; [reflexivity|].
    eexists. split; [reflexivity|].
    now rewrite embedding_of_draws_length, draws_from_length.
Qed.

(** C2 fails as stated: the direct path returns a three-component
    embedding as the server sent it. *)
Lemma C2_counterexample_short_vector :
  "hello" <> "" /\
  exists v,
    fst (getEmbeddings Sim.services Sim.cfg_ollama "hello"
           (Sim.boot Sim.cfg_ollama
              (Sim.with_http (Normal Sim.short_body) Sim.calm))) = Normal v /\
    ~ is_finite_vector 768 v.
Proof.
  split; [discriminate|].
  exists (number_array [1%float; 2%float; 3%float]). split; [reflexivity|].
  intros [xs [E [L _]]]. apply number_array_length in E. simpl in E.
  rewrite <- E in L. discriminate L.
Qed.

(* ------------------------------------------------------------------ *)
(** ** The arithmetic of the doubles                                   *)
(* ------------------------------------------------------------------ *)

(** The kernel states each operation on doubles by its IEEE-754
    specification on [spec_float].  What follows reads that specification
    on the real numbers: an operation returns its exact result rounded to
    nearest, and in the normal range the relative error is at most 2^-53. *)

Section DoubleRounding.
Local Open Scope R_scope.

(** *** Powers of two and the number of bits of a mantissa *)

Lemma pow2_pos (e : Z) : 0 < pow2 e.
Proof. apply powerRZ_lt. lra. Qed.

Lemma pow2_add (a b : Z) : pow2 (a + b) = pow2 a * pow2 b.
Proof. apply powerRZ_add. lra. Qed.

Lemma pow2_0 : pow2 0 = 1.
Proof. reflexivity. Qed.

Lemma pow2_1 : pow2 1 = 2.
Proof. unfold pow2. simpl. lra. Qed.

Lemma pow2_succ (e : Z) : pow2 (e + 1) = 2 * pow2 e.
Proof. rewrite pow2_add, pow2_1. lra. Qed.

Lemma pow2_pred (e : Z) : pow2 (e - 1) = pow2 e / 2.
Proof.
  replace e with ((e - 1) + 1)%Z at 2 by lia. rewrite pow2_succ. lra.
Qed.

Lemma pow2_opp (e : Z) : pow2 (- e) = / pow2 e.
Proof.
  assert (H : pow2 (- e) * pow2 e = 1).
  { rewrite <- pow2_add. replace (- e + e)%Z with 0%Z by lia. apply pow2_0. }
  pose proof (pow2_pos e). apply Rmult_eq_reg_r with (pow2 e); [|lra].
  rewrite H. field. lra.
Qed.

Lemma pow2_sub (a b : Z) : pow2 (a - b) = pow2 a / pow2 b.
Proof.
  replace (a - b)%Z with (a + - b)%Z by lia.
  rewrite pow2_add, pow2_opp. reflexivity.
Qed.

Lemma pow2_IZR (n : Z) : (0 <= n)%Z -> pow2 n = IZR (2 ^ n).
Proof.
  intros Hn. unfold pow2. rewrite <- (Z2Nat.id n Hn) at 1.
  rewrite <- pow_powerRZ. rewrite <- (Z2Nat.id n Hn) at 2.
  rewrite <- Zpower_nat_Z. generalize (Z.to_nat n). intros k.
  induction k as [|k IH]; [reflexivity|].
  rewrite Zpower_nat_succ_r, mult_IZR, <- IH. simpl. reflexivity.
Qed.

Lemma pow2_le (a b : Z) : (a <= b)%Z -> pow2 a <= pow2 b.
Proof.
  intros H. replace b with (a + (b - a))%Z by lia. rewrite pow2_add.
  assert (1 <= pow2 (b - a)).
  { rewrite pow2_IZR by lia. apply IZR_le.
    assert (0 < 2 ^ (b - a))%Z by (apply Z.pow_pos_nonneg; lia). lia. }
  pose proof (pow2_pos a). nra.
Qed.

Lemma pow2_lt (a b : Z) : (a < b)%Z -> pow2 a < pow2 b.
Proof.
  intros H. apply Rlt_le_trans with (pow2 (a + 1)).
  - rewrite pow2_succ. pose proof (pow2_pos a). lra.
  - apply pow2_le. lia.
Qed.

Lemma pow2_lt_inv (a b : Z) : pow2 a < pow2 b -> (a < b)%Z.
Proof.
  intros H. destruct (Z_lt_le_dec a b) as [L | L]; [exact L|].
  apply pow2_le in L. lra.
Qed.

(** The number of bits of a mantissa. *)
Lemma digits2_size (m : positive) : digits2_pos m = Pos.size m.
Proof. induction m; simpl; congruence. Qed.

Lemma digits_bounds (m : positive) :
  (2 ^ (Zpos (digits2_pos m) - 1) <= Zpos m < 2 ^ Zpos (digits2_pos m))%Z.
Proof.
  rewrite digits2_size. split.
  - pose proof (Pos.size_le m) as H.
    assert (E : (2 ^ Zpos (Pos.size m) = 2 * 2 ^ (Zpos (Pos.size m) - 1))%Z).
    { rewrite <- Z.pow_succ_r by lia. f_equal. lia. }
    assert (H' : (2 ^ Zpos (Pos.size m) <= Zpos m~0)%Z).
    { rewrite <- Pos2Z.inj_pow. apply Pos2Z.pos_le_pos. exact H. }
    rewrite Pos2Z.inj_xO in H'. lia.
  - pose proof (Pos.size_gt m) as H.
    rewrite <- Pos2Z.inj_pow. apply Pos2Z.pos_lt_pos. exact H.
Qed.

Lemma digits_bounds_R (m : positive) :
  pow2 (Zpos (digits2_pos m) - 1) <= IZR (Zpos m) < pow2 (Zpos (digits2_pos m)).
Proof.
  destruct (digits_bounds m) as [L U].
  rewrite !pow2_IZR by lia. split; [apply IZR_le | apply IZR_lt]; assumption.
Qed.

(** The number of bits, from bounds on the mantissa. *)
Lemma digits_le (m : positive) (k : Z) :
  (Zpos m < 2 ^ k)%Z -> (0 <= k)%Z -> (Zpos (digits2_pos m) <= k)%Z.
Proof.
  intros H Hk. destruct (digits_bounds m) as [L _].
  destruct (Z_le_gt_dec (Zpos (digits2_pos m)) k) as [G | G]; [exact G|].
  assert (2 ^ k <= 2 ^ (Zpos (digits2_pos m) - 1))%Z
    by (apply Z.pow_le_mono_r; lia).
  lia.
Qed.

Lemma digits_ge (m : positive) (k : Z) :
  (2 ^ (k - 1) <= Zpos m)%Z -> (1 <= k)%Z -> (k <= Zpos (digits2_pos m))%Z.
Proof.
  intros H Hk. destruct (digits_bounds m) as [_ U].
  destruct (Z_le_gt_dec k (Zpos (digits2_pos m))) as [G | G]; [exact G|].
  assert (2 ^ Zpos (digits2_pos m) <= 2 ^ (k - 1))%Z
    by (apply Z.pow_le_mono_r; lia).
  lia.
Qed.

(** *** Shifting a mantissa to the right *)

Lemma located_bounds (mrs : shr_record) (V : R) :
  located mrs V -> IZR (shr_m mrs) <= V < IZR (shr_m mrs) + 1.
Proof.
  unfold located. destruct (shr_r mrs), (shr_s mrs); cbv zeta; lra.
Qed.

Lemma shr_1_located (mrs : shr_record) (V : R) :
  (0 <= shr_m mrs)%Z ->
  located mrs V ->
  located (shr_1 mrs) (V / 2) /\ (0 <= shr_m (shr_1 mrs))%Z.
Proof.
  destruct mrs as [m r s]. unfold located. cbn [shr_m shr_r shr_s].
  intros Hm H.
  destruct m as [|p|p]; [| |lia].
  - cbn [shr_1 shr_m shr_r shr_s]. split; [|lia].
    destruct r, s; cbn [orb] in *; cbv zeta in *; lra.
  - destruct p as [p|p|].
    + cbn [shr_1 shr_m shr_r shr_s]. split; [|lia].
      replace (IZR (Z.pos p~1)) with (2 * IZR (Z.pos p) + 1) in H
        by (change (Z.pos p~1) with (2 * Z.pos p + 1)%Z;
            now rewrite plus_IZR, mult_IZR).
      revert H. generalize (IZR (Z.pos p)). intros x H.
      destruct r, s; cbn [orb] in *; cbv zeta in *; lra.
    + cbn [shr_1 shr_m shr_r shr_s]. split; [|lia].
      replace (IZR (Z.pos p~0)) with (2 * IZR (Z.pos p)) in H
        by (change (Z.pos p~0) with (2 * Z.pos p)%Z; now rewrite mult_IZR).
      revert H. generalize (IZR (Z.pos p)). intros x H.
      destruct r, s; cbn [orb] in *; cbv zeta in *; lra.
    + cbn [shr_1 shr_m shr_r shr_s]. split; [|lia].
      destruct r, s; cbn [orb] in *; cbv zeta in *; lra.
Qed.

Lemma pow2_double (p : positive) :
  pow2 (Zpos p~0) = pow2 (Zpos p) * pow2 (Zpos p).
Proof. rewrite <- pow2_add. f_equal. lia. Qed.

Lemma pow2_double_succ (p : positive) :
  pow2 (Zpos p~1) = 2 * (pow2 (Zpos p) * pow2 (Zpos p)).
Proof.
  rewrite <- pow2_add, <- pow2_succ. f_equal. lia.
Qed.

Lemma iter_shr_located (p : positive) :
  forall (mrs : shr_record) (V : R),
    (0 <= shr_m mrs)%Z ->
    located mrs V ->
    located (SpecFloat.iter_pos shr_1 p mrs) (V / pow2 (Zpos p)) /\
    (0 <= shr_m (SpecFloat.iter_pos shr_1 p mrs))%Z.
Proof.
  induction p as [p IH | p IH |]; intros mrs V Hm H; cbn [SpecFloat.iter_pos].
  - destruct (shr_1_located mrs V Hm H) as [H1 M1].
    destruct (IH _ _ M1 H1) as [H2 M2].
    destruct (IH _ _ M2 H2) as [H3 M3].
    split; [|exact M3].
    replace (V / pow2 (Zpos p~1))
      with (V / 2 / pow2 (Zpos p) / pow2 (Zpos p)); [exact H3|].
    rewrite pow2_double_succ. pose proof (pow2_pos (Zpos p)). field. lra.
  - destruct (IH _ _ Hm H) as [H2 M2].
    destruct (IH _ _ M2 H2) as [H3 M3].
    split; [|exact M3].
    replace (V / pow2 (Zpos p~0))
      with (V / pow2 (Zpos p) / pow2 (Zpos p)); [exact H3|].
    rewrite pow2_double. pose proof (pow2_pos (Zpos p)). field. lra.
  - rewrite pow2_1. now apply shr_1_located.
Qed.

(** [shr] by a non-negative number of bits. *)
Lemma shr_located (mrs : shr_record) (e n : Z) (V : R) :
  (0 <= n)%Z ->
  (0 <= shr_m mrs)%Z ->
  located mrs V ->
  located (fst (shr mrs e n)) (V / pow2 n) /\
  (0 <= shr_m (fst (shr mrs e n)))%Z /\
  snd (shr mrs e n) = (e + n)%Z.
Proof.
  intros Hn Hm H. destruct n as [|p|p]; [| |lia].
  - cbn [shr fst snd]. rewrite pow2_0. split; [|split; [exact Hm | lia]].
    now replace (V / 1) with V by field.
  - cbn [shr fst snd].
    destruct (iter_shr_located p mrs V Hm H) as [H1 M1]. now repeat split.
Qed.

Lemma located_of_loc_exact (m : Z) :
  located (shr_record_of_loc m loc_Exact) (IZR m).
Proof. unfold located. cbn. lra. Qed.

(** Rounding to nearest, ties to even: at most half a unit away. *)
Lemma round_nearest_even_located (mrs : shr_record) (V : R) :
  located mrs V ->
  let k := round_nearest_even (shr_m mrs) (loc_of_shr_record mrs) in
  Rabs (IZR k - V) <= 1 / 2 /\
  (shr_m mrs <= k <= shr_m mrs + 1)%Z /\
  (V = IZR (shr_m mrs) -> k = shr_m mrs).
Proof.
  destruct mrs as [m r s]. unfold located. cbn [shr_m shr_r shr_s].
  intros H. cbv zeta in *.
  destruct r, s; cbn [loc_of_shr_record round_nearest_even].
  - rewrite plus_IZR. split; [apply Rabs_le; lra|]. split; [lia|]. intros E. lra.
  - destruct (Z.even m).
    + split; [apply Rabs_le; lra|]. split; [lia|]. intros E. lra.
    + rewrite plus_IZR. split; [apply Rabs_le; lra|]. split; [lia|]. intros E. lra.
  - split; [apply Rabs_le; lra|]. split; [lia|]. reflexivity.
  - split; [apply Rabs_le; lra|]. split; [lia|]. reflexivity.
Qed.

(** *** The rounding step of the operations *)

Lemma fexp_64 (e : Z) : fexp prec emax e = Z.max (e - 53) (-1074).
Proof. reflexivity. Qed.

Lemma Zdigits2_bounds (m : Z) :
  (0 <= m)%Z -> (0 <= Zdigits2 m)%Z /\ (m < 2 ^ Zdigits2 m)%Z.
Proof.
  intros H. destruct m as [|p|p]; [cbn; lia | | lia].
  cbn [Zdigits2]. destruct (digits_bounds p). lia.
Qed.

Lemma IZR_below_pow2 (m n : Z) :
  (0 <= n)%Z -> (m < 2 ^ n)%Z -> IZR m + 1 <= pow2 n.
Proof.
  intros Hn H. rewrite pow2_IZR by exact Hn. rewrite <- plus_IZR.
  apply IZR_le. lia.
Qed.

Lemma shr_nonpos (mrs : shr_record) (e n : Z) :
  (n <= 0)%Z -> shr mrs e n = (mrs, e).
Proof. intros H. destruct n; [reflexivity | lia | reflexivity]. Qed.

Lemma Zdigits2_le (m k : Z) :
  (0 <= m < 2 ^ k)%Z -> (0 <= k)%Z -> (Zdigits2 m <= k)%Z.
Proof.
  intros [L U] Hk. destruct m as [|p|p]; [cbn; lia | | lia].
  cbn [Zdigits2]. now apply digits_le.
Qed.

(** The rounding step shared by the operations. *)
Lemma binary_round_aux_correct (sx : bool) (mx ex : Z) (lx : location) (V : R) :
  (0 <= mx)%Z ->
  located (shr_record_of_loc mx lx) (V / pow2 ex) ->
  (ex <= fexp prec emax (Zdigits2 mx + ex))%Z ->
  (fexp prec emax (Zdigits2 mx + ex) <= 970)%Z ->
  exists k : Z,
    (0 <= k <= 2 ^ 53)%Z /\
    Rabs (IZR k - V / pow2 (fexp prec emax (Zdigits2 mx + ex))) <= 1 / 2 /\
    SFfinite (binary_round_aux prec emax sx mx ex lx) = true /\
    SF2R (binary_round_aux prec emax sx mx ex lx) =
      sgn sx * (IZR k * pow2 (fexp prec emax (Zdigits2 mx + ex))).
Proof.
  intros Hmx Hloc Hn Hmax.
  set (e1 := fexp prec emax (Zdigits2 mx + ex)) in *.
  assert (He1 : (Zdigits2 mx + ex - 53 <= e1)%Z /\ (-1074 <= e1)%Z)
    by (unfold e1; rewrite fexp_64; lia).
  destruct (Zdigits2_bounds mx Hmx) as [Hd0 Hd].
  assert (Hm0 : (0 <= shr_m (shr_record_of_loc mx lx))%Z)
    by (destruct lx as [|[]]; exact Hmx).
  destruct (shr_located (shr_record_of_loc mx lx) ex (e1 - ex) _
              ltac:(lia) Hm0 Hloc) as (H1 & M1 & E1).
  replace (V / pow2 ex / pow2 (e1 - ex)) with (V / pow2 e1) in H1.
  2:{ rewrite pow2_sub. pose proof (pow2_pos ex). pose proof (pow2_pos e1).
      field. lra. }
  unfold binary_round_aux, shr_fexp. fold e1.
  destruct (shr (shr_record_of_loc mx lx) ex (e1 - ex)) as [mrs1 e'] eqn:S1.
  cbn [fst snd] in H1, M1, E1. subst e'.
  replace (ex + (e1 - ex))%Z with e1 by lia.
  destruct (round_nearest_even_located mrs1 _ H1) as (K1 & K2 & _).
  set (k := round_nearest_even (shr_m mrs1) (loc_of_shr_record mrs1)) in *.
  (* the truncated mantissa has at most 53 bits *)
  assert (Hm1 : (shr_m mrs1 < 2 ^ 53)%Z).
  { apply lt_IZR. rewrite <- pow2_IZR by lia.
    destruct (located_bounds _ _ H1) as [L1 _].
    destruct (located_bounds _ _ Hloc) as [_ U0].
    assert (Hs : shr_m (shr_record_of_loc mx lx) = mx)
      by (destruct lx as [|[]]; reflexivity).
    rewrite Hs in U0.
    pose proof (IZR_below_pow2 mx _ Hd0 Hd) as Hb.
    assert (HV : V < pow2 (Zdigits2 mx + ex)).
    { rewrite pow2_add. pose proof (pow2_pos ex).
      apply Rmult_lt_reg_r with (/ pow2 ex); [apply Rinv_0_lt_compat; lra|].
      replace (pow2 (Zdigits2 mx) * pow2 ex * / pow2 ex)
        with (pow2 (Zdigits2 mx)) by (field; lra).
      unfold Rdiv in U0. lra. }
    apply Rle_lt_trans with (V / pow2 e1); [exact L1|].
    apply Rlt_le_trans with (pow2 (Zdigits2 mx + ex) / pow2 e1).
    - pose proof (pow2_pos e1). unfold Rdiv.
      apply Rmult_lt_compat_r; [apply Rinv_0_lt_compat; lra | exact HV].
    - rewrite <- pow2_sub. apply pow2_le. lia. }
  exists k. split; [lia|]. split; [exact K1|].
  destruct (Z.eq_dec k (2 ^ 53)) as [Ek | Nk].
  - (* the rounding carried into a 54th bit *)
    rewrite Ek.
    assert (Hs : (fexp prec emax (Zdigits2 (2 ^ 53) + e1) - e1 = 1)%Z)
      by (rewrite fexp_64; change (Zdigits2 (2 ^ 53)) with 54%Z; lia).
    rewrite Hs. cbn [shr_record_of_loc shr SpecFloat.iter_pos].
    change (shr_1 {| shr_m := 2 ^ 53; shr_r := false; shr_s := false |})
      with {| shr_m := 2 ^ 52; shr_r := false; shr_s := false |}.
    cbn [shr_m]. change (2 ^ 52)%Z with (Zpos (2 ^ 52)).
    replace (e1 + 1 <=? emax - prec)%Z with true
      by (symmetry; apply Z.leb_le; change (emax - prec)%Z with 971%Z; lia).
    split; [reflexivity|]. cbn [SF2R]. rewrite pow2_succ.
    change (IZR (2 ^ 53)) with (2 * IZR (Zpos (2 ^ 52))). ring.
  - assert (Hs : (fexp prec emax (Zdigits2 k + e1) - e1 <= 0)%Z).
    { assert (Zdigits2 k <= 53)%Z by (apply Zdigits2_le; lia).
      rewrite fexp_64. lia. }
    rewrite (shr_nonpos _ _ _ Hs). cbn [shr_record_of_loc shr_m].
    destruct k as [|p|p]; [| |lia].
    + split; [reflexivity|]. cbn [SF2R]. ring.
    + replace (e1 <=? emax - prec)%Z with true
        by (symmetry; apply Z.leb_le; change (emax - prec)%Z with 971%Z; lia).
      split; reflexivity.
Qed.

(** *** Rounding to nearest, as a relation on reals *)

Lemma Rabs_le_inv (x y : R) : Rabs x <= y -> - y <= x <= y.
Proof. unfold Rabs. destruct (Rcase_abs x); lra. Qed.

Lemma binade_le (V : R) (E E' : Z) :
  pow2 (E - 1) <= V -> V < pow2 E' -> (E <= E')%Z.
Proof.
  intros L U. assert (E - 1 < E')%Z by (apply pow2_lt_inv; lra). lia.
Qed.

Lemma fexp_mono (a b : Z) :
  (a <= b)%Z -> (fexp prec emax a <= fexp prec emax b)%Z.
Proof. rewrite !fexp_64. lia. Qed.

Lemma pow2_scale (c e e1 : Z) :
  (e1 <= e)%Z -> IZR c * pow2 e = IZR (c * 2 ^ (e - e1)) * pow2 e1.
Proof.
  intros H. rewrite mult_IZR, <- pow2_IZR by lia.
  rewrite Rmult_assoc, <- pow2_add. do 2 f_equal. lia.
Qed.

(** Rounding does not cross a point of the grid. *)
Lemma rounded_le (V x : R) (E' c e : Z) :
  rounded V x ->
  V < pow2 E' -> (fexp prec emax E' <= e)%Z ->
  V <= IZR c * pow2 e -> x <= IZR c * pow2 e.
Proof.
  intros (E & k & [L U] & Hk & ->) HE' He Hc.
  assert (He1 : (fexp prec emax E <= e)%Z).
  { pose proof (fexp_mono E E' (binade_le V E E' L HE')). lia. }
  set (e1 := fexp prec emax E) in *.
  rewrite (pow2_scale c e e1 He1) in *.
  set (C := (c * 2 ^ (e - e1))%Z) in *.
  pose proof (pow2_pos e1) as P.
  assert (HW : V / pow2 e1 <= IZR C).
  { apply Rmult_le_reg_r with (pow2 e1); [exact P|].
    replace (V / pow2 e1 * pow2 e1) with V by (field; lra). exact Hc. }
  assert (Hk' : (k <= C)%Z).
  { apply Rabs_le_inv in Hk.
    assert (IZR k < IZR (C + 1)) by (rewrite plus_IZR; lra).
    apply lt_IZR in H. lia. }
  apply Rmult_le_compat_r; [lra | now apply IZR_le].
Qed.

Lemma rounded_ge (V x : R) (E' c e : Z) :
  rounded V x ->
  V < pow2 E' -> (fexp prec emax E' <= e)%Z ->
  IZR c * pow2 e <= V -> IZR c * pow2 e <= x.
Proof.
  intros (E & k & [L U] & Hk & ->) HE' He Hc.
  assert (He1 : (fexp prec emax E <= e)%Z).
  { pose proof (fexp_mono E E' (binade_le V E E' L HE')). lia. }
  set (e1 := fexp prec emax E) in *.
  rewrite (pow2_scale c e e1 He1) in *.
  set (C := (c * 2 ^ (e - e1))%Z) in *.
  pose proof (pow2_pos e1) as P.
  assert (HW : IZR C <= V / pow2 e1).
  { apply Rmult_le_reg_r with (pow2 e1); [exact P|].
    replace (V / pow2 e1 * pow2 e1) with V by (field; lra). exact Hc. }
  assert (Hk' : (C <= k)%Z).
  { apply Rabs_le_inv in Hk.
    assert (IZR (C - 1) < IZR k) by (rewrite minus_IZR; lra).
    apply lt_IZR in H. lia. }
  apply Rmult_le_compat_r; [lra | now apply IZR_le].
Qed.

(** A real on the grid is its own rounding. *)
Lemma rounded_exact (V x : R) (E' c e : Z) :
  rounded V x ->
  V < pow2 E' -> (fexp prec emax E' <= e)%Z ->
  V = IZR c * pow2 e -> x = V.
Proof.
  intros H HE' He Hc.
  pose proof (rounded_le V x E' c e H HE' He ltac:(lra)).
  pose proof (rounded_ge V x E' c e H HE' He ltac:(lra)).
  lra.
Qed.

(** In the normal range the relative error is at most 2^-53. *)
Lemma rounded_relative (V x : R) :
  rounded V x ->
  pow2 (-1022) <= V ->
  exists delta, Rabs delta <= pow2 (-53) /\ x = V * (1 + delta).
Proof.
  intros (E & k & [L U] & Hk & ->) Hn.
  assert (HE : (-1022 < E)%Z) by (apply pow2_lt_inv; lra).
  assert (He : fexp prec emax E = (E - 53)%Z) by (rewrite fexp_64; lia).
  rewrite He in *.
  pose proof (pow2_pos (E - 53)) as P.
  set (W := V / pow2 (E - 53)) in *.
  assert (HW : pow2 52 <= W).
  { unfold W. replace 52%Z with ((E - 1) - (E - 53))%Z by lia.
    rewrite pow2_sub. unfold Rdiv.
    apply Rmult_le_compat_r; [apply Rlt_le, Rinv_0_lt_compat; lra | exact L]. }
  pose proof (pow2_pos 52) as P52.
  exists ((IZR k - W) / W). split.
  - unfold Rdiv. rewrite Rabs_mult, (Rabs_pos_eq (/ W)).
    2:{ apply Rlt_le, Rinv_0_lt_compat. lra. }
    apply Rle_trans with (1 / 2 * / pow2 52).
    + apply Rmult_le_compat; [apply Rabs_pos | | exact Hk |].
      * apply Rlt_le, Rinv_0_lt_compat. lra.
      * apply Rinv_le_contravar; lra.
    + change (-53)%Z with (Z.opp 53). rewrite pow2_opp.
      change 53%Z with (52 + 1)%Z. rewrite pow2_succ.
      apply Req_le. field. lra.
  - assert (EV : V = W * pow2 (E - 53)) by (unfold W; field; lra).
    rewrite EV at 1. field. lra.
Qed.

Lemma rounded_pos (V x : R) : rounded V x -> 0 <= x.
Proof.
  intros (E & k & [L U] & Hk & ->).
  pose proof (pow2_pos (fexp prec emax E)) as P.
  pose proof (pow2_pos (E - 1)) as P1.
  apply Rabs_le_inv in Hk.
  assert (0 < V / pow2 (fexp prec emax E))
    by (apply Rdiv_lt_0_compat; lra).
  assert (IZR (-1) < IZR k) by (simpl; lra).
  apply lt_IZR in H0.
  apply Rmult_le_pos; [apply IZR_le; lia | lra].
Qed.

(** The same for a real of either sign. *)
Lemma rounded_signed_relative (V x : R) :
  rounded_signed V x ->
  V = 0 \/ pow2 (-1022) <= Rabs V ->
  exists delta, Rabs delta <= pow2 (-53) /\ x = V * (1 + delta).
Proof.
  pose proof (pow2_pos (-53)) as P.
  intros [-> | [[Hp H] | [Hn H]]] Hr.
  - exists 0. rewrite Rabs_R0. split; lra.
  - destruct Hr as [-> | Hr]; [lra|].
    rewrite Rabs_pos_eq in Hr by lra. now apply rounded_relative.
  - destruct Hr as [-> | Hr]; [lra|].
    rewrite Rabs_left in Hr by lra.
    destruct (rounded_relative _ _ H Hr) as (d & Hd & E).
    exists d. split; [exact Hd | lra].
Qed.

(** *** Multiplication, addition and subtraction *)

Lemma sgn_xorb (a b : bool) : sgn (xorb a b) = sgn a * sgn b.
Proof. destruct a, b; unfold sgn; cbn; lra. Qed.

Lemma sgn_negb (a : bool) : sgn (negb a) = - sgn a.
Proof. destruct a; unfold sgn; cbn; lra. Qed.

Lemma sgn_abs (a : bool) (v : R) : 0 <= v -> Rabs (sgn a * v) = v.
Proof.
  intros H. destruct a; unfold sgn.
  - rewrite Rabs_left1 by lra. lra.
  - rewrite Rabs_pos_eq by lra. lra.
Qed.

Lemma rounded_signed_of (s : bool) (V r XY x : R) :
  0 < V -> rounded V r -> XY = sgn s * V -> x = sgn s * r ->
  rounded_signed XY x.
Proof.
  intros HV Hr -> ->. destruct s; unfold sgn.
  - right. right. split; [lra|].
    replace (- (-1 * V)) with V by lra. now replace (- (-1 * r)) with r by lra.
  - right. left. split; [lra|].
    now replace (1 * V) with V by lra; replace (1 * r) with r by lra.
Qed.

(** Between the mantissa and the real it locates. *)
Lemma located_binade (mx : positive) (ex : Z) (lx : location) (V : R) :
  located (shr_record_of_loc (Zpos mx) lx) (V / pow2 ex) ->
  pow2 (Zpos (digits2_pos mx) + ex - 1) <= V < pow2 (Zpos (digits2_pos mx) + ex).
Proof.
  intros H. destruct (located_bounds _ _ H) as [L U].
  assert (Hs : shr_m (shr_record_of_loc (Zpos mx) lx) = Zpos mx)
    by (destruct lx as [|[]]; reflexivity).
  rewrite Hs in L, U. clear Hs H.
  destruct (digits_bounds mx) as [DL DU].
  pose proof (digits_bounds_R mx) as [RL _].
  pose proof (IZR_below_pow2 (Zpos mx) (Zpos (digits2_pos mx)) ltac:(lia) DU)
    as RU.
  pose proof (pow2_pos ex) as P.
  assert (EV : V = V / pow2 ex * pow2 ex) by (field; lra).
  replace (Zpos (digits2_pos mx) + ex - 1)%Z
    with ((Zpos (digits2_pos mx) - 1) + ex)%Z by lia.
  rewrite !pow2_add. split.
  - rewrite EV. apply Rmult_le_compat_r; lra.
  - rewrite EV. apply Rmult_lt_compat_r; lra.
Qed.

(** The rounding step, on a positive mantissa below the overflow bound. *)
Lemma binary_round_aux_rounded
    (sx : bool) (mx : positive) (ex : Z) (lx : location) (V : R) :
  located (shr_record_of_loc (Zpos mx) lx) (V / pow2 ex) ->
  (ex <= fexp prec emax (Zpos (digits2_pos mx) + ex))%Z ->
  V < pow2 1023 ->
  SFfinite (binary_round_aux prec emax sx (Zpos mx) ex lx) = true /\
  exists r, rounded V r /\
    SF2R (binary_round_aux prec emax sx (Zpos mx) ex lx) = sgn sx * r.
Proof.
  intros Hloc Hn Hmax.
  pose proof (located_binade mx ex lx V Hloc) as HB.
  assert (HE : (Zpos (digits2_pos mx) + ex <= 1023)%Z)
    by (apply (binade_le V); lra).
  destruct (binary_round_aux_correct sx (Zpos mx) ex lx V ltac:(lia) Hloc Hn)
    as (k & Hk & Hr & Hf & Hv).
  { rewrite fexp_64. cbn [Zdigits2]. lia. }
  split; [exact Hf|].
  exists (IZR k * pow2 (fexp prec emax (Zpos (digits2_pos mx) + ex))).
  split; [|exact Hv].
  exists (Zpos (digits2_pos mx) + ex)%Z, k. now repeat split.
Qed.

(** A canonical mantissa and exponent. *)
Lemma valid_finite (s : bool) (m : positive) (e : Z) :
  valid_binary (S754_finite s m e) = true ->
  e = fexp prec emax (Zpos (digits2_pos m) + e) /\ (e <= 971)%Z.
Proof.
  cbn [SpecFloat.valid_binary]. unfold bounded, canonical_mantissa.
  intros H. apply andb_true_iff in H. destruct H as [H1 H2].
  apply Z.eqb_eq in H1. apply Z.leb_le in H2.
  change (emax - prec)%Z with 971%Z in H2. split; [now symmetry | exact H2].
Qed.

Lemma SF2R_finite_pos (m : positive) (e : Z) : 0 < IZR (Zpos m) * pow2 e.
Proof.
  apply Rmult_lt_0_compat; [apply IZR_lt; lia | apply pow2_pos].
Qed.

(** Multiplication. *)

Lemma digits_mul (mx my : positive) :
  (Zpos (digits2_pos mx) + Zpos (digits2_pos my) - 1
   <= Zpos (digits2_pos (mx * my)))%Z.
Proof.
  apply digits_ge; [|lia].
  destruct (digits_bounds mx) as [Lx _]. destruct (digits_bounds my) as [Ly _].
  replace (Zpos (digits2_pos mx) + Zpos (digits2_pos my) - 1 - 1)%Z
    with ((Zpos (digits2_pos mx) - 1) + (Zpos (digits2_pos my) - 1))%Z by lia.
  rewrite Z.pow_add_r by lia. rewrite Pos2Z.inj_mul.
  apply Z.mul_le_mono_nonneg; lia.
Qed.

Theorem SFmul_rounded (x y : spec_float) :
  valid_binary x = true -> valid_binary y = true ->
  SFfinite x = true -> SFfinite y = true ->
  Rabs (SF2R x * SF2R y) < pow2 1023 ->
  SFfinite (SFmul prec emax x y) = true /\
  rounded_signed (SF2R x * SF2R y) (SF2R (SFmul prec emax x y)).
Proof.
  intros Vx Vy Fx Fy Hmax.
  destruct x as [sx | sx | | sx mx ex]; try discriminate;
    destruct y as [sy | sy | | sy my ey]; try discriminate;
    cbn [SFmul SF2R SFfinite];
    try (split; [reflexivity | left; ring]).
  cbn [SF2R] in Hmax.
  set (V := IZR (Zpos (mx * my)) * pow2 (ex + ey)).
  assert (EV : sgn sx * (IZR (Zpos mx) * pow2 ex) *
               (sgn sy * (IZR (Zpos my) * pow2 ey)) = sgn (xorb sx sy) * V).
  { unfold V. rewrite sgn_xorb, Pos2Z.inj_mul, mult_IZR, pow2_add. ring. }
  pose proof (SF2R_finite_pos (mx * my) (ex + ey)) as HV. fold V in HV.
  rewrite EV in *. rewrite sgn_abs in Hmax by lra.
  destruct (valid_finite _ _ _ Vx) as [Cx _].
  destruct (valid_finite _ _ _ Vy) as [Cy _].
  rewrite fexp_64 in Cx, Cy. pose proof (digits_mul mx my) as Hd.
  destruct (binary_round_aux_rounded (xorb sx sy) (mx * my) (ex + ey)
              loc_Exact V) as (Hf & r & Hr & Hv).
  - unfold V. pose proof (pow2_pos (ex + ey)).
    replace (IZR (Zpos (mx * my)) * pow2 (ex + ey) / pow2 (ex + ey))
      with (IZR (Zpos (mx * my))) by (field; lra).
    apply located_of_loc_exact.
  - rewrite fexp_64. lia.
  - exact Hmax.
  - split; [exact Hf|].
    now apply (rounded_signed_of (xorb sx sy) V r).
Qed.

(** Addition and subtraction. *)

Lemma iter_xO (mx : positive) (d : positive) :
  Zpos (Pos.iter xO mx d) = (Zpos mx * 2 ^ Zpos d)%Z.
Proof.
  change (Pos.iter xO mx d) with (shift_pos d mx).
  rewrite shift_pos_correct. change (Zpower_pos 2 d) with (2 ^ Zpos d)%Z.
  ring.
Qed.

Lemma shl_align_spec (mx : positive) (ex e' : Z) :
  let '(mz, ez) := shl_align mx ex e' in
  ez = Z.min ex e' /\ Zpos mz = (Zpos mx * 2 ^ (ex - ez))%Z.
Proof.
  unfold shl_align. destruct (e' - ex)%Z as [|d|d] eqn:E.
  - split; [lia|]. replace (ex - ex)%Z with 0%Z by lia. lia.
  - split; [lia|]. replace (ex - ex)%Z with 0%Z by lia. lia.
  - split; [lia|]. rewrite iter_xO. f_equal. f_equal. lia.
Qed.

Lemma shl_align_value (mx : positive) (ex e' : Z) :
  IZR (Zpos (fst (shl_align mx ex e'))) * pow2 (snd (shl_align mx ex e')) =
  IZR (Zpos mx) * pow2 ex.
Proof.
  pose proof (shl_align_spec mx ex e') as H.
  destruct (shl_align mx ex e') as [mz ez]. destruct H as [He Hm].
  cbn [fst snd]. rewrite Hm, mult_IZR, <- pow2_IZR by lia.
  rewrite Rmult_assoc, <- pow2_add. do 2 f_equal. lia.
Qed.

Lemma digits_shift (mx : positive) (k : Z) (mz : positive) :
  (0 <= k)%Z -> Zpos mz = (Zpos mx * 2 ^ k)%Z ->
  Zpos (digits2_pos mz) = (Zpos (digits2_pos mx) + k)%Z.
Proof.
  intros Hk E. destruct (digits_bounds mx) as [L U].
  assert (P : (0 < 2 ^ k)%Z) by (apply Z.pow_pos_nonneg; lia).
  apply Z.le_antisymm.
  - apply digits_le; [|lia]. rewrite E, Z.pow_add_r by lia. nia.
  - apply digits_ge; [|lia]. rewrite E.
    replace (Zpos (digits2_pos mx) + k - 1)%Z
      with ((Zpos (digits2_pos mx) - 1) + k)%Z by lia.
    rewrite Z.pow_add_r by lia. nia.
Qed.

Lemma binary_round_rounded (sx : bool) (mx : positive) (ex : Z) :
  IZR (Zpos mx) * pow2 ex < pow2 1023 ->
  SFfinite (binary_round prec emax sx mx ex) = true /\
  exists r, rounded (IZR (Zpos mx) * pow2 ex) r /\
    SF2R (binary_round prec emax sx mx ex) = sgn sx * r.
Proof.
  intros Hmax. unfold binary_round.
  pose proof (shl_align_spec mx ex (fexp prec emax (Zpos (digits2_pos mx) + ex)))
    as H.
  pose proof (shl_align_value mx ex (fexp prec emax (Zpos (digits2_pos mx) + ex)))
    as HV.
  destruct (shl_align mx ex (fexp prec emax (Zpos (digits2_pos mx) + ex)))
    as [mz ez]. destruct H as [He Hm]. cbn [fst snd] in HV.
  rewrite <- HV in *.
  apply binary_round_aux_rounded.
  - pose proof (pow2_pos ez).
    replace (IZR (Zpos mz) * pow2 ez / pow2 ez) with (IZR (Zpos mz))
      by (field; lra).
    apply located_of_loc_exact.
  - rewrite (digits_shift mx (ex - ez) mz ltac:(lia) Hm).
    replace (Zpos (digits2_pos mx) + (ex - ez) + ez)%Z
      with (Zpos (digits2_pos mx) + ex)%Z by lia.
    lia.
  - exact Hmax.
Qed.

Lemma binary_normalize_rounded (m e : Z) (szero : bool) :
  Rabs (IZR m * pow2 e) < pow2 1023 ->
  SFfinite (binary_normalize prec emax m e szero) = true /\
  rounded_signed (IZR m * pow2 e) (SF2R (binary_normalize prec emax m e szero)).
Proof.
  intros Hmax. destruct m as [|p|p]; cbn [binary_normalize].
  - split; [reflexivity|]. left. cbn [SF2R]. lra.
  - pose proof (SF2R_finite_pos p e) as HV.
    rewrite Rabs_pos_eq in Hmax by lra.
    destruct (binary_round_rounded false p e Hmax) as (Hf & r & Hr & Hv).
    split; [exact Hf|].
    apply (rounded_signed_of false (IZR (Zpos p) * pow2 e) r);
      [exact HV | exact Hr | unfold sgn; lra | exact Hv].
  - pose proof (SF2R_finite_pos p e) as HV.
    assert (EN : IZR (Zneg p) = - IZR (Zpos p))
      by (rewrite <- opp_IZR; reflexivity).
    rewrite EN in *.
    rewrite Rabs_left in Hmax by lra.
    replace (- (- IZR (Zpos p) * pow2 e)) with (IZR (Zpos p) * pow2 e)
      in Hmax by lra.
    destruct (binary_round_rounded true p e Hmax) as (Hf & r & Hr & Hv).
    split; [exact Hf|].
    apply (rounded_signed_of true (IZR (Zpos p) * pow2 e) r);
      [exact HV | exact Hr | unfold sgn; lra | exact Hv].
Qed.

Lemma cond_Zopp_IZR (s : bool) (m : Z) :
  IZR (cond_Zopp s m) = sgn s * IZR m.
Proof. destruct s; unfold cond_Zopp, sgn; [rewrite opp_IZR|]; lra. Qed.

Lemma aligned_value (s : bool) (m : positive) (e ez : Z) :
  (ez <= e)%Z ->
  IZR (cond_Zopp s (Zpos (fst (shl_align m e ez)))) * pow2 ez =
  sgn s * (IZR (Zpos m) * pow2 e).
Proof.
  intros H. rewrite cond_Zopp_IZR.
  pose proof (shl_align_spec m e ez) as S.
  pose proof (shl_align_value m e ez) as HV.
  destruct (shl_align m e ez) as [mz e0]. destruct S as [S _].
  cbn [fst snd] in *. replace e0 with ez in HV by lia.
  rewrite <- HV. ring.
Qed.

Theorem SFadd_rounded (x y : spec_float) :
  SFfinite x = true -> SFfinite y = true ->
  Rabs (SF2R x + SF2R y) < pow2 1023 ->
  SFfinite (SFadd prec emax x y) = true /\
  rounded_signed (SF2R x + SF2R y) (SF2R (SFadd prec emax x y)).
Proof.
  intros Fx Fy Hmax.
  destruct x as [sx | sx | | sx mx ex]; try discriminate;
    destruct y as [sy | sy | | sy my ey]; try discriminate;
    cbn [SFadd].
  - split; [now destruct sx, sy | left; destruct sx, sy; cbn [SF2R]; lra].
  - split; [reflexivity | left; cbn [SF2R]; lra].
  - split; [reflexivity | left; cbn [SF2R]; lra].
  - cbv zeta. cbn [SF2R] in *.
    set (ez := Z.min ex ey).
    assert (E : IZR (cond_Zopp sx (Zpos (fst (shl_align mx ex ez))) +
                     cond_Zopp sy (Zpos (fst (shl_align my ey ez)))) * pow2 ez =
                sgn sx * (IZR (Zpos mx) * pow2 ex) +
                sgn sy * (IZR (Zpos my) * pow2 ey)).
    { rewrite plus_IZR, Rmult_plus_distr_r.
      rewrite !aligned_value by (unfold ez; lia). reflexivity. }
    rewrite <- E in *. now apply binary_normalize_rounded.
Qed.

Theorem SFsub_rounded (x y : spec_float) :
  SFfinite x = true -> SFfinite y = true ->
  Rabs (SF2R x - SF2R y) < pow2 1023 ->
  SFfinite (SFsub prec emax x y) = true /\
  rounded_signed (SF2R x - SF2R y) (SF2R (SFsub prec emax x y)).
Proof.
  intros Fx Fy Hmax.
  destruct x as [sx | sx | | sx mx ex]; try discriminate;
    destruct y as [sy | sy | | sy my ey]; try discriminate;
    cbn [SFsub].
  - split; [now destruct sx, sy | left; destruct sx, sy; cbn [SF2R]; lra].
  - split; [reflexivity | left; cbn [SF2R]; rewrite sgn_negb; lra].
  - split; [reflexivity | left; cbn [SF2R]; lra].
  - cbv zeta. cbn [SF2R] in *.
    set (ez := Z.min ex ey).
    assert (E : IZR (cond_Zopp sx (Zpos (fst (shl_align mx ex ez))) -
                     cond_Zopp sy (Zpos (fst (shl_align my ey ez)))) * pow2 ez =
                sgn sx * (IZR (Zpos mx) * pow2 ex) -
                sgn sy * (IZR (Zpos my) * pow2 ey)).
    { rewrite minus_IZR, Rmult_minus_distr_r.
      rewrite !aligned_value by (unfold ez; lia). reflexivity. }
    rewrite <- E in *. now apply binary_normalize_rounded.
Qed.

(** *** Division and square root *)

(** Division. *)

Lemma new_location_located (q nb k : Z) :
  (0 < nb)%Z -> (0 <= k < nb)%Z ->
  located (shr_record_of_loc q (new_location nb k)) (IZR q + IZR k / IZR nb).
Proof.
  intros Hnb Hk.
  assert (N : 0 < IZR nb) by (apply IZR_lt; lia).
  set (f := IZR k / IZR nb).
  assert (Ef : IZR k = f * IZR nb) by (unfold f; field; lra).
  assert (Hf : forall a b : Z, (a * k < b * nb)%Z -> IZR a * f < IZR b).
  { intros a b H. apply IZR_lt in H. rewrite !mult_IZR, Ef in H.
    apply Rmult_lt_reg_r with (IZR nb); [exact N | lra]. }
  assert (Hg : forall a b : Z, (b * nb < a * k)%Z -> IZR b < IZR a * f).
  { intros a b H. apply IZR_lt in H. rewrite !mult_IZR, Ef in H.
    apply Rmult_lt_reg_r with (IZR nb); [exact N | lra]. }
  unfold located, new_location, new_location_even, new_location_odd.
  destruct (Z.even nb) eqn:Ev.
  - destruct (Z.eqb_spec k 0) as [-> | Nk].
    + cbn. unfold f. replace (IZR 0 / IZR nb) with 0 by (field; lra). lra.
    + destruct (Z.compare_spec (2 * k) nb) as [E | L | G]; cbn; cbv zeta.
      * assert (IZR 2 * IZR k = IZR nb) by (rewrite <- mult_IZR; now f_equal).
        rewrite Ef in H. nra.
      * pose proof (Hf 2%Z 1%Z ltac:(lia)). pose proof (Hg 1%Z 0%Z ltac:(lia)).
        lra.
      * pose proof (Hg 2%Z 1%Z ltac:(lia)). pose proof (Hf 1%Z 1%Z ltac:(lia)).
        lra.
  - assert (Hodd : Z.odd nb = true) by (rewrite <- Z.negb_even, Ev; reflexivity).
    apply Z.odd_spec in Hodd. destruct Hodd as [h Hh].
    destruct (Z.eqb_spec k 0) as [-> | Nk].
    + cbn. unfold f. replace (IZR 0 / IZR nb) with 0 by (field; lra). lra.
    + destruct (Z.compare_spec (2 * k + 1) nb) as [E | L | G]; cbn; cbv zeta.
      * pose proof (Hf 2%Z 1%Z ltac:(lia)). pose proof (Hg 1%Z 0%Z ltac:(lia)).
        lra.
      * pose proof (Hf 2%Z 1%Z ltac:(lia)). pose proof (Hg 1%Z 0%Z ltac:(lia)).
        lra.
      * pose proof (Hg 2%Z 1%Z ltac:(lia)). pose proof (Hf 1%Z 1%Z ltac:(lia)).
        lra.
Qed.

Lemma shifted_mantissa (m : positive) (s : Z) :
  (0 <= s)%Z ->
  match s with
  | Zpos _ => Z.shiftl (Zpos m) s
  | Z0 => Zpos m
  | Zneg _ => 0%Z
  end = (Zpos m * 2 ^ s)%Z.
Proof.
  intros H. destruct s as [|p|p]; [lia | | lia].
  apply Z.shiftl_mul_pow2. lia.
Qed.

Lemma finite_binade (m : positive) (e : Z) :
  pow2 (Zpos (digits2_pos m) + e - 1) <= IZR (Zpos m) * pow2 e
    < pow2 (Zpos (digits2_pos m) + e).
Proof.
  pose proof (digits_bounds_R m) as [RL RU]. pose proof (pow2_pos e) as P.
  replace (Zpos (digits2_pos m) + e - 1)%Z
    with ((Zpos (digits2_pos m) - 1) + e)%Z by lia.
  rewrite !pow2_add. split.
  - apply Rmult_le_compat_r; lra.
  - apply Rmult_lt_compat_r; lra.
Qed.

Lemma Rdiv_lt_cross (a b c d : R) :
  0 < b -> 0 < d -> a * d < c * b -> a / b < c / d.
Proof.
  intros Hb Hd H.
  apply Rmult_lt_reg_r with (b * d); [nra|].
  replace (a / b * (b * d)) with (a * d) by (field; lra).
  replace (c / d * (b * d)) with (c * b) by (field; lra). exact H.
Qed.

Theorem SFdiv_rounded (x y : spec_float) :
  valid_binary x = true -> valid_binary y = true ->
  SFfinite x = true -> SFfinite y = true -> SF2R y <> 0 ->
  SF2R x = 0 \/ pow2 (-1020) <= Rabs (SF2R x / SF2R y) ->
  Rabs (SF2R x / SF2R y) < pow2 1023 ->
  SFfinite (SFdiv prec emax x y) = true /\
  rounded_signed (SF2R x / SF2R y) (SF2R (SFdiv prec emax x y)).
Proof.
  intros Vx Vy Fx Fy Ny Hmin Hmax.
  destruct y as [sy | sy | | sy my ey]; try discriminate;
    [cbn [SF2R] in Ny; lra|].
  destruct x as [sx | sx | | sx mx ex]; try discriminate.
  { cbn [SFdiv SF2R SFfinite]. split; [reflexivity|]. left.
    unfold Rdiv. ring. }
  cbn [SF2R] in *.
  pose proof (SF2R_finite_pos mx ex) as PX.
  pose proof (SF2R_finite_pos my ey) as PY.
  set (X := IZR (Zpos mx) * pow2 ex) in *.
  set (Y := IZR (Zpos my) * pow2 ey) in *.
  assert (EV : sgn sx * X / (sgn sy * Y) = sgn (xorb sx sy) * (X / Y)).
  { rewrite sgn_xorb. destruct sx, sy; unfold sgn; field; lra. }
  assert (PV : 0 < X / Y) by (apply Rdiv_lt_0_compat; lra).
  rewrite EV in *. rewrite sgn_abs in Hmin, Hmax by lra.
  destruct Hmin as [Hmin | Hmin].
  { destruct sx; unfold sgn in Hmin; lra. }
  cbn [SFdiv]. unfold SFdiv_core_binary. cbn [Zdigits2].
  set (d1 := Zpos (digits2_pos mx)). set (d2 := Zpos (digits2_pos my)).
  set (D := (d1 + ex - (d2 + ey))%Z).
  set (e' := Z.min (fexp prec emax D) (ex - ey)).
  set (s := (ex - ey - e')%Z).
  assert (Hs : (0 <= s)%Z) by (unfold s, e'; lia).
  rewrite (shifted_mantissa mx s Hs).
  pose proof (Z_div_mod (Zpos mx * 2 ^ s) (Zpos my) ltac:(lia)) as DM.
  destruct (Z.div_eucl (Zpos mx * 2 ^ s) (Zpos my)) as [q r].
  destruct DM as [DM Hr].
  (* the quotient, as a real *)
  pose proof (pow2_pos e') as Pe. pose proof (pow2_pos ey) as Pey.
  assert (PMy : 0 < IZR (Zpos my)) by (apply IZR_lt; lia).
  assert (EQ : X / Y / pow2 e' = IZR q + IZR r / IZR (Zpos my)).
  { assert (E1 : IZR (Zpos mx) * pow2 s =
                 IZR (Zpos my) * IZR q + IZR r).
    { rewrite pow2_IZR by lia. rewrite <- !mult_IZR, <- plus_IZR.
      now f_equal. }
    assert (E2 : pow2 ex = pow2 s * pow2 ey * pow2 e').
    { rewrite <- !pow2_add. f_equal. unfold s. lia. }
    unfold X, Y. rewrite E2.
    replace (IZR (Zpos mx) * (pow2 s * pow2 ey * pow2 e') /
             (IZR (Zpos my) * pow2 ey) / pow2 e')
      with (IZR (Zpos mx) * pow2 s / IZR (Zpos my)) by (field; lra).
    rewrite E1. field. lra. }
  (* the binade of the quotient *)
  pose proof (finite_binade mx ex) as [XL XU].
  pose proof (finite_binade my ey) as [YL YU].
  fold X d1 in XL, XU. fold Y d2 in YL, YU.
  assert (VU : X / Y < pow2 (D + 1)).
  { replace (D + 1)%Z with ((d1 + ex) - (d2 + ey - 1))%Z by (unfold D; lia).
    rewrite pow2_sub.
    pose proof (pow2_pos (d2 + ey - 1)). pose proof (pow2_pos (d1 + ex)).
    apply Rdiv_lt_cross; [lra | lra | nra]. }
  assert (VL : pow2 (D - 1) < X / Y).
  { replace (D - 1)%Z with ((d1 + ex - 1) - (d2 + ey))%Z by (unfold D; lia).
    rewrite pow2_sub.
    pose proof (pow2_pos (d2 + ey)). pose proof (pow2_pos (d1 + ex - 1)).
    apply Rdiv_lt_cross; [lra | lra | nra]. }
  assert (HD : (-1020 <= D)%Z).
  { assert (-1020 < D + 1)%Z by (apply pow2_lt_inv; lra). lia. }
  assert (He' : (e' <= D - 53)%Z) by (unfold e'; rewrite fexp_64; lia).
  set (t := (D - 1 - e')%Z).
  assert (Hq : (2 ^ t <= q)%Z).
  { assert (H : IZR (2 ^ t) < IZR (q + 1)).
    { rewrite plus_IZR, <- pow2_IZR by (unfold t; lia).
      assert (IZR r / IZR (Zpos my) < 1).
      { apply Rmult_lt_reg_r with (IZR (Zpos my)); [exact PMy|].
        replace (IZR r / IZR (Zpos my) * IZR (Zpos my)) with (IZR r)
          by (field; lra).
        rewrite Rmult_1_l. apply IZR_lt. lia. }
      assert (pow2 t < X / Y / pow2 e').
      { unfold t. rewrite pow2_sub. unfold Rdiv at 1 3.
        apply Rmult_lt_compat_r; [apply Rinv_0_lt_compat; lra | exact VL]. }
      lra. }
    apply lt_IZR in H. lia. }
  assert (Pt : (0 < 2 ^ t)%Z) by (apply Z.pow_pos_nonneg; unfold t; lia).
  destruct q as [|qp|qp]; [lia | | lia].
  assert (Hdq : (t + 1 <= Zpos (digits2_pos qp))%Z).
  { apply digits_ge; [|unfold t; lia]. now replace (t + 1 - 1)%Z with t by lia. }
  destruct (binary_round_aux_rounded (xorb sx sy) qp e'
              (new_location (Zpos my) r) (X / Y)) as (Hf & v & Hv & Hval).
  - rewrite EQ. apply new_location_located; lia.
  - pose proof (fexp_mono D (Zpos (digits2_pos qp) + e') ltac:(unfold t in Hdq; lia)).
    unfold e' in *. lia.
  - exact Hmax.
  - split; [exact Hf|].
    now apply (rounded_signed_of (xorb sx sy) (X / Y) v).
Qed.

(** Square root. *)

Lemma sqrt_between (a b c : R) :
  0 <= a -> a * a < b -> b < c * c -> 0 <= c -> a < sqrt b < c.
Proof.
  intros Ha L U Hc. split.
  - rewrite <- (sqrt_square a Ha). apply sqrt_lt_1_alt. nra.
  - rewrite <- (sqrt_square c Hc). apply sqrt_lt_1_alt. nra.
Qed.

Lemma sqrtrem_located (n : Z) :
  (0 <= n)%Z ->
  let (q, r) := Z.sqrtrem n in
  located (shr_record_of_loc q
             (if (r =? 0)%Z then loc_Exact
              else loc_Inexact (if (r <=? q)%Z then Lt else Gt)))
          (sqrt (IZR n)) /\
  n = (q * q + r)%Z /\ (0 <= r <= 2 * q)%Z.
Proof.
  intros Hn. pose proof (Z.sqrtrem_spec n Hn) as H.
  destruct (Z.sqrtrem n) as [q r]. destruct H as [E Hr].
  split; [|split; [exact E | exact Hr]].
  assert (Hq : 0 <= IZR q) by (apply IZR_le; lia).
  assert (ER : IZR n = IZR q * IZR q + IZR r)
    by (rewrite <- mult_IZR, <- plus_IZR; now f_equal).
  unfold located. destruct (Z.eqb_spec r 0) as [-> | Nr].
  - cbn. cbv zeta. rewrite ER. replace (IZR q * IZR q + 0) with (IZR q * IZR q)
      by (simpl; lra).
    rewrite sqrt_square by exact Hq. lra.
  - assert (R1 : 1 <= IZR r) by (apply IZR_le; lia).
    destruct (Z.leb_spec r q) as [Le | Gt]; cbn; cbv zeta.
    + assert (R2 : IZR r <= IZR q) by (apply IZR_le; lia).
      pose proof (sqrt_between (IZR q) (IZR n) (IZR q + 1 / 2)
                    Hq ltac:(nra) ltac:(nra) ltac:(lra)) as [S1 S2].
      lra.
    + assert (R2 : IZR q + 1 <= IZR r)
        by (rewrite <- plus_IZR; apply IZR_le; lia).
      assert (R3 : IZR r <= 2 * IZR q)
        by (rewrite <- mult_IZR; apply IZR_le; lia).
      pose proof (sqrt_between (IZR q + 1 / 2) (IZR n) (IZR q + 1)
                    ltac:(lra) ltac:(nra) ltac:(nra) ltac:(lra)) as [S1 S2].
      lra.
Qed.

Lemma div2_bounds (z : Z) : (2 * Z.div2 z <= z < 2 * Z.div2 z + 2)%Z.
Proof. rewrite Z.div2_div. pose proof (Z.div_mod z 2). pose proof (Z.mod_pos_bound z 2). lia. Qed.

Theorem SFsqrt_rounded (mx : positive) (ex : Z) :
  valid_binary (S754_finite false mx ex) = true ->
  SFfinite (SFsqrt prec emax (S754_finite false mx ex)) = true /\
  rounded (sqrt (IZR (Zpos mx) * pow2 ex))
          (SF2R (SFsqrt prec emax (S754_finite false mx ex))).
Proof.
  intros Vx. destruct (valid_finite _ _ _ Vx) as [Cx Bx].
  rewrite fexp_64 in Cx.
  cbn [SFsqrt]. unfold SFsqrt_core_binary. cbn [Zdigits2].
  set (d := Zpos (digits2_pos mx)) in *.
  set (E0 := Z.div2 (d + ex + 1)).
  set (e' := Z.min (fexp prec emax E0) (Z.div2 ex)).
  set (sh := (ex - 2 * e')%Z).
  assert (HE0 : (2 * E0 <= d + ex + 1 < 2 * E0 + 2)%Z)
    by (unfold E0; apply div2_bounds).
  assert (Hd : (1 <= d)%Z) by (unfold d; lia).
  assert (He' : (e' <= E0 - 53)%Z /\ (2 * e' <= ex)%Z).
  { pose proof (div2_bounds ex). unfold e'. rewrite fexp_64. lia. }
  assert (Hs : (0 <= sh)%Z) by (unfold sh; lia).
  rewrite (shifted_mantissa mx sh Hs).
  set (m' := (Zpos mx * 2 ^ sh)%Z).
  assert (Pm : (0 < m')%Z).
  { unfold m'. assert (0 < 2 ^ sh)%Z by (apply Z.pow_pos_nonneg; lia). lia. }
  pose proof (sqrtrem_located m' ltac:(lia)) as SR.
  destruct (Z.sqrtrem m') as [q r]. destruct SR as (Hloc & Em & Hr).
  (* the real square root *)
  pose proof (pow2_pos e') as Pe.
  assert (EV : sqrt (IZR (Zpos mx) * pow2 ex) = sqrt (IZR m') * pow2 e').
  { transitivity (sqrt (IZR m' * (pow2 e' * pow2 e'))).
    - f_equal. unfold m'. rewrite mult_IZR, <- pow2_IZR by lia.
      rewrite !Rmult_assoc, <- !pow2_add. do 2 f_equal. unfold sh. lia.
    - rewrite sqrt_mult; [|apply IZR_le; lia | nra].
      rewrite sqrt_square by lra. reflexivity. }
  (* the root has 53 bits or more *)
  set (t := (E0 - 1 - e')%Z).
  assert (Ht : (52 <= t)%Z) by (unfold t; lia).
  assert (Pt : (0 < 2 ^ t)%Z) by (apply Z.pow_pos_nonneg; lia).
  assert (Hm' : (2 ^ t * 2 ^ t <= m')%Z).
  { rewrite <- Z.pow_add_r by lia. unfold m'.
    destruct (digits_bounds mx) as [DL _]. fold d in DL.
    assert (2 ^ (t + t) <= 2 ^ (d - 1) * 2 ^ sh)%Z.
    { rewrite <- Z.pow_add_r by lia. apply Z.pow_le_mono_r; [lia|].
      unfold t, sh. lia. }
    assert (0 < 2 ^ sh)%Z by (apply Z.pow_pos_nonneg; lia).
    nia. }
  assert (Hq : (2 ^ t <= q)%Z) by nia.
  destruct q as [|qp|qp]; [lia | | lia].
  assert (Hdq : (t + 1 <= Zpos (digits2_pos qp))%Z).
  { apply digits_ge; [|lia]. now replace (t + 1 - 1)%Z with t by lia. }
  (* no overflow *)
  assert (Hmax : sqrt (IZR (Zpos mx) * pow2 ex) < pow2 1023).
  { pose proof (finite_binade mx ex) as [_ XU]. fold d in XU.
    pose proof (SF2R_finite_pos mx ex) as PX.
    apply Rlt_trans with (pow2 512); [|apply pow2_lt; lia].
    rewrite <- (sqrt_square (pow2 512)) by (pose proof (pow2_pos 512); lra).
    apply sqrt_lt_1_alt. split; [lra|].
    rewrite <- pow2_add. apply Rlt_le_trans with (1 := XU).
    apply pow2_le. lia. }
  destruct (binary_round_aux_rounded false qp e'
              (if (r =? 0)%Z then loc_Exact
               else loc_Inexact (if (r <=? Zpos qp)%Z then Lt else Gt))
              (sqrt (IZR (Zpos mx) * pow2 ex))) as (Hf & v & Hv & Hval).
  - rewrite EV.
    replace (sqrt (IZR m') * pow2 e' / pow2 e') with (sqrt (IZR m'))
      by (field; lra).
    exact Hloc.
  - pose proof (fexp_mono E0 (Zpos (digits2_pos qp) + e') ltac:(unfold t in Hdq; lia)).
    unfold e' in *. lia.
  - exact Hmax.
  - split; [exact Hf|]. rewrite Hval. unfold sgn.
    now replace (1 * v) with v by lra.
Qed.

(** *** The operations on doubles *)

Lemma SFcompare_refl (x : spec_float) :
  x <> S754_nan -> SFcompare x x = Some Eq.
Proof.
  destruct x as [s | s | | s m e]; intros H; cbn [SFcompare].
  - reflexivity.
  - now destruct s.
  - congruence.
  - rewrite Z.compare_refl. fold (Pos.compare m m). rewrite Pos.compare_refl.
    now destruct s.
Qed.

Lemma finite_spec (x : float) : finite x = SFfinite (Prim2SF x).
Proof.
  unfold finite, is_nan, is_infinity.
  rewrite !FloatAxioms.eqb_spec, FloatAxioms.abs_spec.
  change (Prim2SF infinity) with (S754_infinity false).
  unfold SFeqb.
  destruct (Prim2SF x) as [s | s | | s m e] eqn:E.
  - now destruct s.
  - now destruct s.
  - reflexivity.
  - rewrite SFcompare_refl by discriminate. reflexivity.
Qed.

Theorem mul_rounds (x y : float) :
  finite x = true -> finite y = true ->
  Rabs (value x * value y) < pow2 1023 ->
  finite (x * y) = true /\
  rounded_signed (value x * value y) (value (x * y)).
Proof.
  rewrite !finite_spec. unfold value. rewrite FloatAxioms.mul_spec.
  intros Fx Fy H. apply SFmul_rounded; auto using Prim2SF_valid.
Qed.

Theorem add_rounds (x y : float) :
  finite x = true -> finite y = true ->
  Rabs (value x + value y) < pow2 1023 ->
  finite (x + y) = true /\
  rounded_signed (value x + value y) (value (x + y)).
Proof.
  rewrite !finite_spec. unfold value. rewrite FloatAxioms.add_spec.
  intros Fx Fy H. now apply SFadd_rounded.
Qed.

Theorem sub_rounds (x y : float) :
  finite x = true -> finite y = true ->
  Rabs (value x - value y) < pow2 1023 ->
  finite (x - y) = true /\
  rounded_signed (value x - value y) (value (x - y)).
Proof.
  rewrite !finite_spec. unfold value. rewrite FloatAxioms.sub_spec.
  intros Fx Fy H. now apply SFsub_rounded.
Qed.

Theorem div_rounds (x y : float) :
  finite x = true -> finite y = true -> value y <> 0 ->
  value x = 0 \/ pow2 (-1020) <= Rabs (value x / value y) ->
  Rabs (value x / value y) < pow2 1023 ->
  finite (x / y) = true /\
  rounded_signed (value x / value y) (value (x / y)).
Proof.
  rewrite !finite_spec. unfold value. rewrite FloatAxioms.div_spec.
  intros Fx Fy H. apply SFdiv_rounded; auto using Prim2SF_valid.
Qed.

Lemma SF2R_pos_finite (x : spec_float) :
  0 < SF2R x -> exists m e, x = S754_finite false m e.
Proof.
  destruct x as [s | s | | s m e]; cbn [SF2R]; try lra.
  intros H. pose proof (SF2R_finite_pos m e). destruct s; unfold sgn in H.
  - lra.
  - now exists m, e.
Qed.

Theorem sqrt_rounds (x : float) :
  0 < value x ->
  finite (PrimFloat.sqrt x) = true /\
  rounded (R_sqrt.sqrt (value x)) (value (PrimFloat.sqrt x)).
Proof.
  rewrite finite_spec. unfold value. rewrite FloatAxioms.sqrt_spec.
  intros H. pose proof (Prim2SF_valid x) as V.
  destruct (SF2R_pos_finite _ H) as (m & e & E). rewrite E in *.
  cbn [SF2R]. unfold sgn. rewrite Rmult_1_l.
  now apply SFsqrt_rounded.
Qed.

(** *** Comparisons and the reals of the format *)

(** Comparisons. *)

Lemma canonical_lt (m1 m2 : positive) (e1 e2 : Z) (s1 s2 : bool) :
  valid_binary (S754_finite s1 m1 e1) = true ->
  valid_binary (S754_finite s2 m2 e2) = true ->
  (e1 < e2)%Z ->
  IZR (Zpos m1) * pow2 e1 < IZR (Zpos m2) * pow2 e2.
Proof.
  intros V1 V2 H.
  destruct (valid_finite _ _ _ V1) as [C1 _].
  destruct (valid_finite _ _ _ V2) as [C2 _].
  rewrite fexp_64 in C1, C2.
  pose proof (finite_binade m1 e1) as [_ U].
  pose proof (finite_binade m2 e2) as [L _].
  apply Rlt_le_trans with (1 := U). apply Rle_trans with (2 := L).
  apply pow2_le. lia.
Qed.

Lemma SFcompare_spec (x y : spec_float) :
  valid_binary x = true -> valid_binary y = true ->
  SFfinite x = true -> SFfinite y = true ->
  exists c, SFcompare x y = Some c /\
            CompareSpec (SF2R x = SF2R y) (SF2R x < SF2R y) (SF2R y < SF2R x) c.
Proof.
  intros Vx Vy Fx Fy.
  destruct x as [sx | sx | | sx mx ex]; try discriminate;
    destruct y as [sy | sy | | sy my ey]; try discriminate;
    cbn [SFcompare SF2R].
  - eexists. split; [reflexivity|]. now constructor.
  - pose proof (SF2R_finite_pos my ey).
    eexists. split; [reflexivity|].
    destruct sy; unfold sgn; constructor; lra.
  - pose proof (SF2R_finite_pos mx ex).
    eexists. split; [reflexivity|].
    destruct sx; unfold sgn; constructor; lra.
  - pose proof (SF2R_finite_pos mx ex) as Px.
    pose proof (SF2R_finite_pos my ey) as Py.
    eexists. split; [reflexivity|].
    destruct sx, sy; unfold sgn; try (constructor; lra).
    + destruct (Z.compare_spec ex ey) as [E | L | G].
      * subst ey. fold (Pos.compare mx my).
        destruct (Pos.compare_spec mx my) as [E | L | G]; cbn [CompOpp].
        -- subst my. now constructor.
        -- constructor.
           assert (IZR (Zpos mx) < IZR (Zpos my)) by (apply IZR_lt; lia).
           pose proof (pow2_pos ex). nra.
        -- constructor.
           assert (IZR (Zpos my) < IZR (Zpos mx)) by (apply IZR_lt; lia).
           pose proof (pow2_pos ex). nra.
      * constructor. pose proof (canonical_lt _ _ _ _ _ _ Vx Vy L). lra.
      * constructor. pose proof (canonical_lt _ _ _ _ _ _ Vy Vx G). lra.
    + destruct (Z.compare_spec ex ey) as [E | L | G].
      * subst ey. fold (Pos.compare mx my).
        destruct (Pos.compare_spec mx my) as [E | L | G].
        -- subst my. now constructor.
        -- constructor.
           assert (IZR (Zpos mx) < IZR (Zpos my)) by (apply IZR_lt; lia).
           pose proof (pow2_pos ex). nra.
        -- constructor.
           assert (IZR (Zpos my) < IZR (Zpos mx)) by (apply IZR_lt; lia).
           pose proof (pow2_pos ex). nra.
      * constructor. pose proof (canonical_lt _ _ _ _ _ _ Vx Vy L). lra.
      * constructor. pose proof (canonical_lt _ _ _ _ _ _ Vy Vx G). lra.
Qed.

Lemma compare_values (x y : float) :
  finite x = true -> finite y = true ->
  exists c, SFcompare (Prim2SF x) (Prim2SF y) = Some c /\
            CompareSpec (value x = value y) (value x < value y)
                        (value y < value x) c.
Proof.
  rewrite !finite_spec. intros Fx Fy.
  apply SFcompare_spec; auto using Prim2SF_valid.
Qed.

Lemma ltb_value (x y : float) :
  finite x = true -> finite y = true ->
  (x <? y)%float = true <-> value x < value y.
Proof.
  intros Fx Fy. rewrite FloatAxioms.ltb_spec. unfold SFltb.
  destruct (compare_values x y Fx Fy) as (c & -> & H).
  destruct H; split; intros; try discriminate; try reflexivity; lra.
Qed.

Lemma leb_value (x y : float) :
  finite x = true -> finite y = true ->
  (x <=? y)%float = true <-> value x <= value y.
Proof.
  intros Fx Fy. rewrite FloatAxioms.leb_spec. unfold SFleb.
  destruct (compare_values x y Fx Fy) as (c & -> & H).
  destruct H; split; intros; try discriminate; try reflexivity; lra.
Qed.

Lemma eqb_value (x y : float) :
  finite x = true -> finite y = true ->
  (x =? y)%float = true <-> value x = value y.
Proof.
  intros Fx Fy. rewrite FloatAxioms.eqb_spec. unfold SFeqb.
  destruct (compare_values x y Fx Fy) as (c & -> & H).
  destruct H; split; intros; try discriminate; try reflexivity; lra.
Qed.

(** A comparison that holds has no NaN operand; an upper bound by a finite
    double excludes [+inf], a lower bound [-inf]. *)
Lemma between_finite (lo x hi : float) :
  finite lo = true -> finite hi = true ->
  (lo <=? x)%float = true -> (x <? hi)%float = true -> finite x = true.
Proof.
  rewrite !finite_spec, FloatAxioms.leb_spec, FloatAxioms.ltb_spec. unfold SFleb, SFltb.
  intros Flo Fhi.
  destruct (Prim2SF lo) as [sl | sl | | sl ml el]; try discriminate;
    destruct (Prim2SF hi) as [sh | sh | | sh mh eh]; try discriminate;
    destruct (Prim2SF x) as [s | s | | s m e]; cbn [SFcompare SFfinite];
    try reflexivity; try discriminate; destruct s; try discriminate.
Qed.

Lemma value_0 : value 0%float = 0.
Proof. reflexivity. Qed.

Lemma value_1 : value 1%float = 1.
Proof.
  unfold value. change (Prim2SF 1%float) with (S754_finite false (2 ^ 52) (-52)).
  cbn [SF2R]. unfold sgn. change (-52)%Z with (Z.opp 52). rewrite pow2_opp.
  rewrite (pow2_IZR 52) by lia. change (2 ^ 52)%Z with (Zpos (2 ^ 52)).
  field. apply not_0_IZR. lia.
Qed.

Lemma value_2 : value 2%float = 2.
Proof.
  unfold value. change (Prim2SF 2%float) with (S754_finite false (2 ^ 52) (-51)).
  cbn [SF2R]. unfold sgn. change (-51)%Z with (- (52) + 1)%Z.
  rewrite pow2_succ. change (- (52))%Z with (Z.opp 52). rewrite pow2_opp.
  rewrite (pow2_IZR 52) by lia. change (2 ^ 52)%Z with (Zpos (2 ^ 52)).
  field. apply not_0_IZR. lia.
Qed.

Lemma value_half : value 0.5%float = 1 / 2.
Proof.
  unfold value. change (Prim2SF 0.5%float) with (S754_finite false (2 ^ 52) (-53)).
  cbn [SF2R]. unfold sgn. change (-53)%Z with (- (52) - 1)%Z.
  rewrite pow2_pred. change (- (52))%Z with (Z.opp 52). rewrite pow2_opp.
  rewrite (pow2_IZR 52) by lia. change (2 ^ 52)%Z with (Zpos (2 ^ 52)).
  field. apply not_0_IZR. lia.
Qed.

(** Reals of the format. *)

Lemma value_representable (x : float) : representable (value x).
Proof.
  unfold value. pose proof (Prim2SF_valid x) as V.
  destruct (Prim2SF x) as [s | s | | s m e]; cbn [SF2R];
    try (exists 0%Z, 0%Z; split; [simpl; lra | lia]).
  destruct (valid_finite _ _ _ V) as [C _]. rewrite fexp_64 in C.
  destruct (digits_bounds m) as [L U].
  assert (Hm : (Zpos m < 2 ^ 53)%Z).
  { apply Z.lt_le_trans with (1 := U). apply Z.pow_le_mono_r; lia. }
  exists (if s then Zneg m else Zpos m), e. split; [|split; [|lia]].
  - destruct s; unfold sgn.
    + change (Zneg m) with (- Zpos m)%Z. rewrite opp_IZR. ring.
    + ring.
  - destruct s; cbn [Z.abs]; exact Hm.
Qed.

Lemma rounded_representable (V x : R) :
  rounded V x -> representable V -> x = V.
Proof.
  intros H (m & e & EV & Hm & He).
  pose proof H as (E & k & [L U] & _).
  pose proof (pow2_pos e) as P. pose proof (pow2_pos (E - 1)) as PE.
  apply (rounded_exact V x E m e H U); [|exact EV].
  assert (HE : (E <= 53 + e)%Z).
  { apply (binade_le V); [exact L|]. rewrite EV, pow2_add.
    rewrite (pow2_IZR 53) by lia.
    apply Rmult_lt_compat_r; [exact P|]. apply IZR_lt. lia. }
  rewrite fexp_64. lia.
Qed.

Lemma representable_opp (V : R) : representable V -> representable (- V).
Proof.
  intros (m & e & EV & Hm & He). exists (- m)%Z, e.
  split; [rewrite opp_IZR, EV; ring | split; [lia | exact He]].
Qed.

Lemma rounded_signed_representable (V x : R) :
  rounded_signed V x -> representable V -> x = V.
Proof.
  intros [-> | [[Hp H] | [Hn H]]] HR.
  - reflexivity.
  - now apply rounded_representable.
  - apply representable_opp in HR.
    pose proof (rounded_representable _ _ H HR). lra.
Qed.

(** A real of the format that is at least [2^a] in magnitude is a multiple
    of [2^(a-52)]. *)
Lemma representable_grid (V : R) (a : Z) :
  representable V -> pow2 a <= Rabs V ->
  exists c : Z, V = IZR c * pow2 (a - 52).
Proof.
  intros (m & e & EV & Hm & He) Ha.
  pose proof (pow2_pos e) as P.
  assert (He' : (a - 52 <= e)%Z).
  { assert (a < 53 + e)%Z; [|lia].
    apply pow2_lt_inv. apply Rle_lt_trans with (1 := Ha).
    rewrite EV, Rabs_mult, (Rabs_pos_eq (pow2 e)) by lra.
    rewrite pow2_add, (pow2_IZR 53) by lia.
    apply Rmult_lt_compat_r; [exact P|].
    rewrite <- abs_IZR. apply IZR_lt. exact Hm. }
  exists (m * 2 ^ (e - (a - 52)))%Z. rewrite EV.
  now apply pow2_scale.
Qed.

(** *** A draw, scaled *)

Lemma pow2_ge_1 (e : Z) : (0 <= e)%Z -> 1 <= pow2 e.
Proof. intros H. rewrite <- pow2_0. now apply pow2_le. Qed.

Lemma pow2_neg2 : pow2 (-2) = 1 / 4.
Proof.
  change (-2)%Z with (Z.opp 2). rewrite pow2_opp.
  change 2%Z with (1 + 1)%Z. rewrite pow2_succ, pow2_1. lra.
Qed.

Lemma pow2_neg1 : pow2 (-1) = 1 / 2.
Proof. change (-1)%Z with (Z.opp 1). rewrite pow2_opp, pow2_1. lra. Qed.

Lemma IZR_nonzero_ge_1 (c : Z) : c <> 0%Z -> 1 <= Rabs (IZR c).
Proof.
  intros H. rewrite <- abs_IZR. apply IZR_le. lia.
Qed.

(** [Math.random() * 2 - 1] for a draw in [[0, 1)]. *)
Lemma scale_draw_spec (r : float) :
  (0 <=? r)%float = true -> (r <? 1)%float = true ->
  finite (scale_draw r) = true /\
  -1 <= value (scale_draw r) < 1 /\
  (value (scale_draw r) = 0 \/ pow2 (-53) <= Rabs (value (scale_draw r))) /\
  ((r =? 0.5)%float = false -> value (scale_draw r) <> 0).
Proof.
  intros H0 H1.
  assert (Fr : finite r = true)
    by (apply (between_finite 0 r 1); auto).
  assert (R0 : 0 <= value r)
    by (rewrite <- value_0; apply leb_value; auto).
  assert (R1 : value r < 1)
    by (rewrite <- value_1; apply ltb_value; auto).
  assert (Rh : (r =? 0.5)%float = false -> value r <> 1 / 2).
  { intros E C. rewrite <- value_half in C.
    apply eqb_value in C; [congruence | exact Fr | reflexivity]. }
  unfold scale_draw. set (R := value r) in *.
  (* the doubling is exact *)
  destruct (mul_rounds r 2 Fr eq_refl) as [Ft Ht].
  { rewrite value_2. fold R. rewrite Rabs_pos_eq by lra.
    pose proof (pow2_ge_1 1022 ltac:(lia)). change 1023%Z with (1022 + 1)%Z.
    rewrite pow2_succ. lra. }
  rewrite value_2 in Ht. fold R in Ht.
  assert (ET : value (r * 2) = R * 2).
  { apply rounded_signed_representable; [exact Ht|].
    destruct (value_representable r) as (m & e & EV & Hm & He).
    exists m, (e + 1)%Z. fold R in EV.
    split; [rewrite EV, pow2_succ; ring | split; [exact Hm | lia]]. }
  set (t := (r * 2)%float) in *.
  destruct (sub_rounds t 1 Ft eq_refl) as [Fx Hx].
  { rewrite value_1, ET. apply Rle_lt_trans with 1.
    - apply Rabs_le. lra.
    - pose proof (pow2_ge_1 1022 ltac:(lia)). change 1023%Z with (1022 + 1)%Z.
      rewrite pow2_succ. lra. }
  rewrite value_1, ET in Hx.
  split; [exact Fx|].
  set (X := value (t - 1)) in *.
  destruct (Rle_lt_dec (1 / 4) R) as [Big | Small].
  - (* the subtraction is exact *)
    destruct (representable_grid R (-2) (value_representable r)) as [c Ec].
    { rewrite pow2_neg2, Rabs_pos_eq; lra. }
    change (-2 - 52)%Z with (-53 - 1)%Z in Ec. rewrite pow2_pred in Ec.
    pose proof (pow2_pos (-53)) as P.
    assert (E53 : pow2 (-53) * IZR (2 ^ 53) = 1).
    { rewrite <- pow2_IZR, <- pow2_add by lia. reflexivity. }
    assert (EX : R * 2 - 1 = IZR (c - 2 ^ 53) * pow2 (-53)).
    { rewrite minus_IZR. lra. }
    assert (Hc : (Z.abs (c - 2 ^ 53) < 2 ^ 53)%Z).
    { assert (IZR (-2 ^ 53) < IZR (c - 2 ^ 53) < IZR (2 ^ 53)).
      { rewrite opp_IZR. split; nra. }
      destruct H as [L U]. apply lt_IZR in L, U. lia. }
    assert (EXv : X = R * 2 - 1).
    { apply rounded_signed_representable; [exact Hx|].
      exists (c - 2 ^ 53)%Z, (-53)%Z. split; [exact EX | split; [exact Hc | lia]]. }
    rewrite EXv. split; [lra|]. split.
    + destruct (Z.eq_dec (c - 2 ^ 53) 0) as [Z0 | NZ].
      * left. rewrite EX, Z0. simpl. lra.
      * right. rewrite EX, Rabs_mult, (Rabs_pos_eq (pow2 (-53))) by lra.
        pose proof (IZR_nonzero_ge_1 _ NZ). nra.
    + intros E. specialize (Rh E). lra.
  - (* the result stays in [-1, -1/2] *)
    assert (HX : -1 <= X <= -1 / 2).
    { destruct Hx as [-> | [[Hp _] | [Hn Hr]]]; [lra | lra |].
      pose proof (rounded_le _ _ 1 1 0 Hr) as U.
      pose proof (rounded_ge _ _ 1 1 (-1) Hr) as L.
      rewrite pow2_1, pow2_0 in U. rewrite pow2_1, pow2_neg1 in L.
      rewrite fexp_64 in U, L.
      specialize (U ltac:(lra) ltac:(lia) ltac:(lra)).
      specialize (L ltac:(lra) ltac:(lia) ltac:(lra)). lra. }
    split; [lra|]. split.
    + right. rewrite Rabs_left by lra.
      apply Rle_trans with (pow2 (-1)); [apply pow2_le; lia|].
      rewrite pow2_neg1. lra.
    + intros _. lra.
Qed.

(** *** The sum of squares *)

Lemma roundoff_value : roundoff = / 9007199254740992.
Proof.
  unfold roundoff. change (-53)%Z with (Z.opp 53). rewrite pow2_opp.
  rewrite (pow2_IZR 53) by lia. reflexivity.
Qed.

Lemma roundoff_bounds : 0 < roundoff < / 8000000000000000.
Proof. rewrite roundoff_value. lra. Qed.

Lemma pow_1mu_lower (n : nat) : 1 - INR n * roundoff <= (1 - roundoff) ^ n.
Proof.
  pose proof roundoff_bounds as U.
  induction n as [|n IH]; [simpl; lra|].
  rewrite S_INR. cbn [pow].
  pose proof (pos_INR n) as Hn.
  assert (0 <= (1 - roundoff) ^ n) by (apply pow_le; lra).
  nra.
Qed.

Lemma pow_1mu_le_1 (n : nat) : 0 < (1 - roundoff) ^ n <= 1.
Proof.
  pose proof roundoff_bounds as U. split.
  - apply pow_lt. lra.
  - induction n as [|n IH]; [simpl; lra|].
    cbn [pow]. assert (0 < (1 - roundoff) ^ n) by (apply pow_lt; lra). nra.
Qed.

Lemma pow_1pu_ge_1 (n : nat) : 1 <= (1 + roundoff) ^ n.
Proof.
  pose proof roundoff_bounds as U. apply pow_R1_Rle. lra.
Qed.

Lemma pow_1pu_upper (n : nat) :
  2 * INR n * roundoff <= 1 -> (1 + roundoff) ^ n <= 1 + 2 * INR n * roundoff.
Proof.
  pose proof roundoff_bounds as U.
  induction n as [|n IH]; [simpl; lra|].
  rewrite S_INR. intros H. cbn [pow].
  pose proof (pos_INR n) as Hn.
  assert (Hs : 2 * INR n * roundoff <= 1) by nra.
  specialize (IH Hs).
  pose proof (pow_1pu_ge_1 n).
  nra.
Qed.

Lemma accumulate_bounds (A X2 S P a b d : R) :
  0 <= A -> 0 <= X2 -> 0 < a <= 1 -> 1 <= b ->
  A * a <= S <= A * b ->
  X2 * (1 - roundoff) <= P <= X2 * (1 + roundoff) ->
  Rabs d <= roundoff ->
  (A + X2) * (a * ((1 - roundoff) * (1 - roundoff))) <= (S + P) * (1 + d)
    <= (A + X2) * (b * ((1 + roundoff) * (1 + roundoff))).
Proof.
  intros HA HX Ha Hb HS HP Hd. pose proof roundoff_bounds as U.
  apply Rabs_le_inv in Hd.
  set (m := 1 - roundoff) in *. set (p := 1 + roundoff) in *.
  assert (Hm : 0 < m <= 1) by (unfold m; lra).
  assert (Hp : 1 <= p) by (unfold p; lra).
  assert (Hd1 : m <= 1 + d <= p) by (unfold m, p; lra).
  assert (Aa : 0 <= A * a) by (apply Rmult_le_pos; lra).
  assert (Ab : 0 <= A * b) by (apply Rmult_le_pos; lra).
  assert (Xm : 0 <= X2 * m) by (apply Rmult_le_pos; lra).
  assert (Xp : 0 <= X2 * p) by (apply Rmult_le_pos; lra).
  assert (S0 : 0 <= S) by lra.
  assert (P0 : 0 <= P) by lra.
  assert (mm : m * m <= m) by nra.
  assert (pp : p <= p * p) by nra.
  split.
  - apply Rle_trans with ((A * a + X2 * m) * m).
    + assert (A * a * (m * m) <= A * a * m)
        by (apply Rmult_le_compat_l; lra).
      assert (X2 * m * m * a <= X2 * m * m * 1).
      { apply Rmult_le_compat_l; [|lra].
        apply Rmult_le_pos; lra. }
      lra.
    + apply Rle_trans with ((S + P) * m).
      * apply Rmult_le_compat_r; lra.
      * apply Rmult_le_compat_l; lra.
  - apply Rle_trans with ((A * b + X2 * p) * p).
    + apply Rle_trans with ((S + P) * p).
      * apply Rmult_le_compat_l; lra.
      * apply Rmult_le_compat_r; lra.
    + assert (A * b * p <= A * b * (p * p))
        by (apply Rmult_le_compat_l; lra).
      assert (X2 * p * p * 1 <= X2 * p * p * b).
      { apply Rmult_le_compat_l; [|lra].
        apply Rmult_le_pos; lra. }
      lra.
Qed.

Lemma relative_bounds (V x : R) :
  0 <= V -> (exists d, Rabs d <= roundoff /\ x = V * (1 + d)) ->
  V * (1 - roundoff) <= x <= V * (1 + roundoff).
Proof.
  intros HV (d & Hd & ->). apply Rabs_le_inv in Hd. split; nra.
Qed.

Lemma pow2_square (e : Z) : pow2 e * pow2 e = pow2 (2 * e).
Proof. rewrite <- pow2_add. f_equal. lia. Qed.

Lemma square_abs (x : R) : x * x = Rabs x * Rabs x.
Proof. unfold Rabs. destruct (Rcase_abs x); ring. Qed.

(** The square of a component. *)
Lemma square_rounds (b h : Z) (x : float) :
  (0 <= b <= 500)%Z -> (0 <= h <= 500)%Z ->
  in_range b h x ->
  finite (x * x) = true /\
  value x * value x * (1 - roundoff) <= value (x * x) <= value x * value x * (1 + roundoff) /\
  value x * value x <= pow2 (2 * h) /\
  (value x * value x = 0 \/ pow2 (- (2 * b)) <= value x * value x).
Proof.
  intros Hb Hh (Fx & Hhi & Hlo).
  pose proof (Rabs_pos (value x)) as Ax.
  pose proof (pow2_pos h) as Ph. pose proof (pow2_pos (- b)) as Pb.
  assert (Hsq : value x * value x <= pow2 (2 * h)).
  { rewrite square_abs, <- pow2_square. nra. }
  assert (Hsq0 : 0 <= value x * value x) by (rewrite square_abs; nra).
  assert (Hlo2 : value x * value x = 0 \/ pow2 (- (2 * b)) <= value x * value x).
  { destruct Hlo as [-> | Hlo]; [left; ring | right].
    replace (- (2 * b))%Z with (2 * - b)%Z by lia.
    rewrite (square_abs (value x)), <- pow2_square. nra. }
  destruct (mul_rounds x x Fx Fx) as [Fp Hp].
  { rewrite Rabs_pos_eq by exact Hsq0.
    apply Rle_lt_trans with (1 := Hsq). apply pow2_lt. lia. }
  split; [exact Fp|]. split; [|split; [exact Hsq | exact Hlo2]].
  apply relative_bounds; [exact Hsq0|].
  apply rounded_signed_relative; [exact Hp|].
  destruct Hlo2 as [Z | L]; [now left | right].
  rewrite Rabs_pos_eq by exact Hsq0.
  apply Rle_trans with (2 := L). apply pow2_le. lia.
Qed.

Lemma pow_double_succ (x : R) (k : nat) :
  x ^ (2 * S k) = x ^ (2 * k) * (x * x).
Proof.
  replace (2 * S k)%nat with (S (S (2 * k))) by lia. cbn [pow]. ring.
Qed.

(** One step of the reduction. *)
Lemma partial_sum_step (b h : Z) (s x : float) (A : R) (k : nat) :
  (0 <= b <= 500)%Z -> (0 <= h <= 500)%Z -> (k < 1000)%nat ->
  partial_sum b h s A k -> in_range b h x ->
  partial_sum b h (s + x * x)%float (A + value x * value x) (S k).
Proof.
  intros Hb Hh Hk (Fs & HS & HA0 & HA) Hx.
  destruct (square_rounds b h x Hb Hh Hx) as (Fp & HP & Hhi & Hlo).
  pose proof roundoff_bounds as U.
  set (X2 := value x * value x) in *.
  assert (X0 : 0 <= X2) by (unfold X2; rewrite square_abs;
                            pose proof (Rabs_pos (value x)); nra).
  pose proof (pow_1mu_le_1 (2 * k)) as Ha.
  pose proof (pow_1pu_ge_1 (2 * k)) as Hb1.
  pose proof (pow_1mu_lower (2 * k)) as Ha2.
  assert (Hk2 : INR (2 * k) <= 2000).
  { replace 2000 with (INR 2000) by (simpl; lra). apply le_INR. lia. }
  pose proof (pos_INR (2 * k)) as Hk0.
  assert (Hb2 : (1 + roundoff) ^ (2 * k) <= 2).
  { apply Rle_trans with (1 + 2 * INR (2 * k) * roundoff).
    - apply pow_1pu_upper. nra.
    - nra. }
  set (a := (1 - roundoff) ^ (2 * k)) in *. set (bb := (1 + roundoff) ^ (2 * k)) in *.
  assert (Ha3 : 1 / 2 <= a) by nra.
  pose proof (pow2_pos (2 * h)) as P2h.
  pose proof (pow2_pos (- (2 * b))) as P2b.
  assert (Hkk : INR k <= 1000).
  { replace 1000 with (INR 1000) by (simpl; lra). apply le_INR. lia. }
  pose proof (pos_INR k) as Hk00.
  assert (S0 : 0 <= value s) by nra.
  assert (P0 : 0 <= value (x * x)) by nra.
  (* no overflow *)
  assert (Hsum : value s + value (x * x) <= 2002 * pow2 (2 * h)).
  { assert (value s <= 2000 * pow2 (2 * h)) by nra.
    assert (value (x * x) <= 2 * pow2 (2 * h)) by nra. lra. }
  destruct (add_rounds s (x * x) Fs Fp) as [Fn Hn].
  { rewrite Rabs_pos_eq by lra. apply Rle_lt_trans with (1 := Hsum).
    replace 1023%Z with (2 * h + (1023 - 2 * h))%Z by lia. rewrite pow2_add.
    assert (pow2 11 <= pow2 (1023 - 2 * h)) by (apply pow2_le; lia).
    rewrite (pow2_IZR 11) in H by lia.
    change (IZR (2 ^ 11)) with 2048 in H. nra. }
  (* no underflow *)
  assert (Hrel : exists d, Rabs d <= roundoff /\
            value (s + x * x) = (value s + value (x * x)) * (1 + d)).
  { apply rounded_signed_relative; [exact Hn|].
    destruct HA0 as [A0 | AL].
    - destruct Hlo as [Z | L].
      + left. subst A. nra.
      + right. rewrite Rabs_pos_eq by lra.
        apply Rle_trans with (pow2 (- (2 * b) - 1)); [apply pow2_le; lia|].
        rewrite pow2_pred. nra.
    - right. rewrite Rabs_pos_eq by lra.
      apply Rle_trans with (pow2 (- (2 * b) - 1)); [apply pow2_le; lia|].
      rewrite pow2_pred. nra. }
  destruct Hrel as (d & Hd & Ev).
  split; [exact Fn|]. split; [|split].
  - rewrite Ev, !pow_double_succ. fold a bb.
    apply accumulate_bounds; try lra; try assumption.
  - destruct HA0 as [A0 | AL]; destruct Hlo as [Z | L]; [left | right..]; lra.
  - rewrite S_INR. split; [lra | nra].
Qed.

Lemma partial_sum_fold (b h : Z) (xs : list float) :
  (0 <= b <= 500)%Z -> (0 <= h <= 500)%Z ->
  forall (s : float) (A : R) (k : nat),
    Forall (in_range b h) xs ->
    (k + List.length xs <= 1000)%nat ->
    partial_sum b h s A k ->
    partial_sum b h
      (fold_left (fun sum val => (sum + val * val)%float) xs s)
      (A + sumsq (map value xs)) (k + List.length xs).
Proof.
  intros Hb Hh. induction xs as [|x xs IH]; intros s A k Hall Hlen Hs.
  - cbn [fold_left map sumsq fold_right List.length].
    rewrite Nat.add_0_r, Rplus_0_r. exact Hs.
  - cbn [List.length] in Hlen. inversion Hall as [|? ? Hx Hxs]; subst.
    cbn [fold_left map List.length]. 
    replace (A + sumsq (value x :: map value xs))
      with ((A + value x * value x) + sumsq (map value xs))
      by (change (sumsq (value x :: map value xs))
            with (value x * value x + sumsq (map value xs)); ring).
    replace (k + S (List.length xs))%nat with (S k + List.length xs)%nat by lia.
    apply IH; [exact Hxs | lia|].
    apply partial_sum_step; auto. lia.
Qed.

Lemma partial_sum_start (b h : Z) : partial_sum b h 0%float 0 0.
Proof.
  split; [reflexivity|]. rewrite value_0. cbn [Nat.mul pow INR].
  split; [lra|]. split; [now left | lra].
Qed.

Lemma sum_of_squares_rounds (b h : Z) (xs : list float) :
  (0 <= b <= 500)%Z -> (0 <= h <= 500)%Z ->
  Forall (in_range b h) xs -> (List.length xs <= 1000)%nat ->
  partial_sum b h (sum_of_squares xs) (sumsq (map value xs)) (List.length xs).
Proof.
  intros Hb Hh Hall Hlen.
  pose proof (partial_sum_fold b h xs Hb Hh 0%float 0 0%nat Hall
                ltac:(lia) (partial_sum_start b h)) as H.
  rewrite Rplus_0_l in H. exact H.
Qed.

(** *** The magnitude and the division *)

Lemma sumsq_nonneg (xs : list R) : 0 <= sumsq xs.
Proof.
  induction xs as [|x xs IH]; cbn [sumsq fold_right]; [lra|].
  fold (sumsq xs). pose proof (Rle_0_sqr x) as H. unfold Rsqr in H. lra.
Qed.

Lemma sumsq_pos (xs : list float) :
  Exists (fun x => value x <> 0) xs -> 0 < sumsq (map value xs).
Proof.
  induction 1 as [x xs Hx | x xs _ IH]; cbn [map sumsq fold_right];
    fold (sumsq (map value xs)).
  - pose proof (sumsq_nonneg (map value xs)).
    assert (0 < value x * value x) by (apply Rsqr_pos_lt; exact Hx). lra.
  - pose proof (Rle_0_sqr (value x)) as Hx. unfold Rsqr in Hx. lra.
Qed.

Lemma sumsq_ge_component (xs : list float) (x : float) :
  In x xs -> value x * value x <= sumsq (map value xs).
Proof.
  induction xs as [|y ys IH]; [intros []|].
  cbn [map sumsq fold_right]. fold (sumsq (map value ys)).
  intros [-> | H].
  - pose proof (sumsq_nonneg (map value ys)). lra.
  - specialize (IH H). pose proof (Rle_0_sqr (value y)) as Hy.
    unfold Rsqr in Hy. lra.
Qed.

Lemma sqrt_pow2_square (e : Z) : sqrt (pow2 e * pow2 e) = pow2 e.
Proof. apply sqrt_square. pose proof (pow2_pos e). lra. Qed.

Lemma square_le_inv (a b : R) : 0 <= b -> a * a <= b * b -> a <= b.
Proof. intros Hb H. destruct (Rle_lt_dec a b) as [L | G]; [exact L | nra]. Qed.

Lemma pow2_12 : pow2 12 = 4096.
Proof. rewrite pow2_IZR by lia. reflexivity. Qed.

Lemma magnitude_rounds (b h : Z) (xs : list float) :
  (0 <= b <= 500)%Z -> (0 <= h <= 500)%Z ->
  Forall (in_range b h) xs -> (List.length xs <= 1000)%nat ->
  Exists (fun x => value x <> 0) xs ->
  finite (magnitude_of xs) = true /\
  magnitude_facts xs (value (magnitude_of xs)).
Proof.
  intros Hb Hh Hall Hlen Hnz.
  destruct (sum_of_squares_rounds b h xs Hb Hh Hall Hlen)
    as (Fs & HS & HA0 & HA).
  pose proof (sumsq_pos xs Hnz) as PA.
  set (A := sumsq (map value xs)) in *.
  destruct HA0 as [Z | HA0]; [lra|].
  pose proof roundoff_bounds as U.
  pose proof (pow_1mu_le_1 (2 * List.length xs)) as Ha.
  pose proof (pow_1mu_lower (2 * List.length xs)) as Ha2.
  assert (Hn : INR (2 * List.length xs) <= 2000).
  { replace 2000 with (INR 2000) by (simpl; lra). apply le_INR. lia. }
  set (a := (1 - roundoff) ^ (2 * List.length xs)) in *.
  set (bb := (1 + roundoff) ^ (2 * List.length xs)) in *.
  assert (Ha3 : 1 / 2 <= a) by nra.
  pose proof (pow2_pos (- (2 * b))) as PB.
  assert (HSl : pow2 (- (2 * b) - 1) <= value (sum_of_squares xs)).
  { rewrite pow2_pred. nra. }
  pose proof (pow2_pos (- (2 * b) - 1)) as PB1.
  set (S := value (sum_of_squares xs)) in *.
  unfold magnitude_of.
  destruct (sqrt_rounds (sum_of_squares xs) ltac:(fold S; lra)) as [Fm Hm].
  fold S in Hm. split; [exact Fm|].
  assert (Hsq : pow2 (-1022) <= sqrt S).
  { rewrite <- (sqrt_pow2_square (-1022)). apply sqrt_le_1_alt.
    rewrite pow2_square. apply Rle_trans with (2 := HSl).
    apply pow2_le. lia. }
  destruct (rounded_relative _ _ Hm Hsq) as (d & Hd & EM).
  set (M := value (PrimFloat.sqrt (sum_of_squares xs))) in *.
  apply Rabs_le_inv in Hd. fold roundoff in Hd.
  pose proof (pow2_pos (-1022)) as P1022.
  assert (ES : sqrt S * sqrt S = S) by (apply sqrt_sqrt; lra).
  assert (EM2 : M * M = S * ((1 + d) * (1 + d))).
  { rewrite EM. transitivity (sqrt S * sqrt S * ((1 + d) * (1 + d))); [ring|].
    now rewrite ES. }
  assert (D1 : (1 - roundoff) * (1 - roundoff) <= (1 + d) * (1 + d)) by nra.
  assert (D2 : (1 + d) * (1 + d) <= (1 + roundoff) * (1 + roundoff)) by nra.
  assert (D0 : 0 <= (1 + d) * (1 + d)) by nra.
  assert (D3 : 0 <= (1 - roundoff) * (1 - roundoff)) by nra.
  split; [|split].
  - rewrite EM. apply Rmult_lt_0_compat; lra.
  - fold A a. rewrite EM2.
    apply Rle_trans with (A * a * ((1 + d) * (1 + d))).
    + rewrite <- (Rmult_assoc A a). apply Rmult_le_compat_l; [nra | exact D1].
    + apply Rmult_le_compat_r; lra.
  - fold A bb. rewrite EM2.
    apply Rle_trans with (A * bb * ((1 + d) * (1 + d))).
    + apply Rmult_le_compat_r; lra.
    + rewrite <- (Rmult_assoc A bb). apply Rmult_le_compat_l; [|exact D2].
      pose proof (pow_1pu_ge_1 (2 * List.length xs)). fold bb in H. nra.
Qed.

(** The two factors that bound the rounding of the magnitude. *)
Lemma factor_bounds (n : nat) :
  (n <= 1000)%nat ->
  1 - 2002 * roundoff <= (1 - roundoff) ^ (2 * n) * ((1 - roundoff) * (1 - roundoff)) /\
  (1 + roundoff) ^ (2 * n) * ((1 + roundoff) * (1 + roundoff)) <= 1 + 4003 * roundoff.
Proof.
  intros Hn. pose proof roundoff_bounds as U.
  pose proof (pow_1mu_le_1 (2 * n)) as Ha.
  pose proof (pow_1mu_lower (2 * n)) as Ha2.
  pose proof (pow_1pu_ge_1 (2 * n)) as Hb.
  assert (Hn2 : INR (2 * n) <= 2000).
  { replace 2000 with (INR 2000) by (simpl; lra). apply le_INR. lia. }
  pose proof (pos_INR (2 * n)) as Hn0.
  assert (Hb2 : (1 + roundoff) ^ (2 * n) <= 1 + 4000 * roundoff).
  { apply Rle_trans with (1 + 2 * INR (2 * n) * roundoff).
    - apply pow_1pu_upper. nra.
    - nra. }
  assert (Ha3 : 1 - 2000 * roundoff <= (1 - roundoff) ^ (2 * n)) by nra.
  set (a := (1 - roundoff) ^ (2 * n)) in *. set (b := (1 + roundoff) ^ (2 * n)) in *.
  split.
  - apply Rle_trans with ((1 - 2000 * roundoff) * ((1 - roundoff) * (1 - roundoff))).
    + nra.
    + apply Rmult_le_compat_r; nra.
  - apply Rle_trans with ((1 + 4000 * roundoff) * ((1 + roundoff) * (1 + roundoff))).
    + apply Rmult_le_compat_r; nra.
    + nra.
Qed.

Lemma ratio_upper (T : R) :
  T * (1 - 2002 * roundoff) <= (1 + roundoff) * (1 + roundoff) -> T <= 1 + 2006 * roundoff.
Proof. rewrite roundoff_value. intros H. lra. Qed.

Lemma ratio_lower (T : R) :
  (1 - roundoff) * (1 - roundoff) <= T * (1 + 4003 * roundoff) -> 1 - 4006 * roundoff <= T.
Proof. rewrite roundoff_value. intros H. lra. Qed.

(** Each component divided by the magnitude. *)
Lemma divide_rounds (xs : list float) (x : float) :
  Forall (in_range 53 0) xs -> (List.length xs <= 1000)%nat ->
  Exists (fun x => value x <> 0) xs ->
  In x xs ->
  let M := value (magnitude_of xs) in
  let y := (x / magnitude_of xs)%float in
  finite y = true /\
  (value x * value x) * ((1 - roundoff) * (1 - roundoff)) <= value y * value y * (M * M)
    <= (value x * value x) * ((1 + roundoff) * (1 + roundoff)) /\
  in_range 60 1 y.
Proof.
  intros Hall Hlen Hnz Hin M y.
  destruct (magnitude_rounds 53 0 xs ltac:(lia) ltac:(lia) Hall Hlen Hnz)
    as [Fm (PM & ML & MU)]. fold M in PM, ML, MU.
  destruct (factor_bounds (List.length xs) Hlen) as [FL FU].
  pose proof roundoff_bounds as U.
  pose proof (sumsq_pos xs Hnz) as PA.
  destruct (sum_of_squares_rounds 53 0 xs ltac:(lia) ltac:(lia) Hall Hlen)
    as (_ & _ & HA0 & HA).
  set (A := sumsq (map value xs)) in *.
  destruct HA0 as [Z | HA0]; [lra|].
  assert (HAu : A <= 1000).
  { change (2 * 0)%Z with 0%Z in HA. rewrite pow2_0 in HA.
    assert (INR (List.length xs) <= 1000).
    { replace 1000 with (INR 1000) by (simpl; lra). apply le_INR. lia. }
    lra. }
  (* the magnitude is between 2^-54 and 2^6 *)
  assert (M6 : M <= pow2 6).
  { apply square_le_inv; [pose proof (pow2_pos 6); lra|].
    rewrite pow2_square. change (2 * 6)%Z with 12%Z. rewrite pow2_12. nra. }
  assert (M54 : pow2 (-54) <= M).
  { apply square_le_inv; [lra|]. rewrite pow2_square.
    change (2 * -54)%Z with (-106 + -2)%Z. rewrite pow2_add, pow2_neg2.
    change (- (2 * 53))%Z with (-106)%Z in HA0.
    pose proof (pow2_pos (-106)). nra. }
  pose proof (proj1 (Forall_forall _ _) Hall x Hin) as (Fx & Hhi & Hlo).
  rewrite pow2_0 in Hhi.
  set (X := value x) in *.
  pose proof (pow2_pos (-54)) as P54. pose proof (pow2_pos 6) as P6.
  assert (Habs : Rabs (X / M) = Rabs X / M).
  { unfold Rdiv. rewrite Rabs_mult, (Rabs_pos_eq (/ M)); [reflexivity|].
    apply Rlt_le, Rinv_0_lt_compat. exact PM. }
  assert (Hq_hi : Rabs X / M <= pow2 54).
  { apply Rmult_le_reg_r with M; [exact PM|].
    replace (Rabs X / M * M) with (Rabs X) by (field; lra).
    assert (pow2 54 * pow2 (-54) = 1) by (rewrite <- pow2_add; reflexivity).
    pose proof (pow2_pos 54). nra. }
  assert (Hq_lo : X = 0 \/ pow2 (-59) <= Rabs X / M).
  { destruct Hlo as [Z | L]; [now left | right].
    apply Rmult_le_reg_r with M; [exact PM|].
    replace (Rabs X / M * M) with (Rabs X) by (field; lra).
    assert (pow2 (-59) * pow2 6 = pow2 (-53))
      by (rewrite <- pow2_add; reflexivity).
    pose proof (pow2_pos (-59)). change (- (53))%Z with (-53)%Z in L. nra. }
  destruct (div_rounds x (magnitude_of xs) Fx Fm) as [Fy Hy].
  - fold M. lra.
  - fold X M. rewrite Habs. destruct Hq_lo as [Z | L]; [now left | right].
    apply Rle_trans with (2 := L). apply pow2_le. lia.
  - fold X M. rewrite Habs. apply Rle_lt_trans with (1 := Hq_hi).
    apply pow2_lt. lia.
  - fold X M in Hy. fold y in Fy, Hy.
    destruct (rounded_signed_relative _ _ Hy) as (d & Hd & EY).
    { destruct Hq_lo as [Z | L]; [left; rewrite Z; unfold Rdiv; ring | right].
      rewrite Habs. apply Rle_trans with (2 := L). apply pow2_le. lia. }
    fold roundoff in Hd. apply Rabs_le_inv in Hd.
    set (Y := value y) in *.
    assert (EY2 : Y * Y * (M * M) = X * X * ((1 + d) * (1 + d)))
      by (rewrite EY; field; lra).
    assert (X0 : 0 <= X * X) by (pose proof (Rle_0_sqr X) as H; exact H).
    assert (D1 : (1 - roundoff) * (1 - roundoff) <= (1 + d) * (1 + d)) by nra.
    assert (D2 : (1 + d) * (1 + d) <= (1 + roundoff) * (1 + roundoff)) by nra.
    split; [exact Fy|]. split.
    + rewrite EY2. split; apply Rmult_le_compat_l; assumption.
    + split; [exact Fy|].
      assert (EA : Rabs Y = Rabs X / M * (1 + d)).
      { rewrite EY, Rabs_mult, Habs, (Rabs_pos_eq (1 + d)) by lra.
        reflexivity. }
      assert (Q0 : 0 <= Rabs X / M).
      { apply Rmult_le_pos; [apply Rabs_pos|].
        apply Rlt_le, Rinv_0_lt_compat. exact PM. }
      split.
      * (* |Y| <= 2 *)
        rewrite pow2_1. apply square_le_inv; [lra|].
        rewrite <- square_abs. fold Y.
        assert (XA : X * X <= A) by (apply sumsq_ge_component; exact Hin).
        assert (HM : A * (1 - 2002 * roundoff) <= M * M) by nra.
        assert (HY : Y * Y * (M * M) <= A * ((1 + roundoff) * (1 + roundoff))) by nra.
        assert (Y0 : 0 <= Y * Y) by (pose proof (Rle_0_sqr Y) as H; exact H).
        assert (HY2 : Y * Y * (A * (1 - 2002 * roundoff)) <= A * ((1 + roundoff) * (1 + roundoff)))
          by nra.
        assert (HY3 : Y * Y * (1 - 2002 * roundoff) <= (1 + roundoff) * (1 + roundoff)).
        { apply Rmult_le_reg_l with A; [lra|]. lra. }
        apply ratio_upper in HY3. lra.
      * destruct Hq_lo as [Z | L].
        -- left. fold Y. rewrite EY. rewrite Z. unfold Rdiv. ring.
        -- right. fold Y. rewrite EA. change (- (60))%Z with (-59 - 1)%Z.
           rewrite pow2_pred. pose proof (pow2_pos (-59)). nra.
Qed.

(** *** The norm of the vector returned *)

Lemma sumsq_scaled (f : float -> float) (xs : list float) (c lo hi : R) :
  (forall x, In x xs ->
     value x * value x * lo <= value (f x) * value (f x) * c
       <= value x * value x * hi) ->
  sumsq (map value xs) * lo <= sumsq (map value (map f xs)) * c
    <= sumsq (map value xs) * hi.
Proof.
  induction xs as [|x xs IH]; intros H.
  - cbn [map sumsq fold_right]. lra.
  - cbn [map].
    change (sumsq (value x :: map value xs))
      with (value x * value x + sumsq (map value xs)).
    change (sumsq (value (f x) :: map value (map f xs)))
      with (value (f x) * value (f x) + sumsq (map value (map f xs))).
    pose proof (H x (or_introl eq_refl)) as Hx.
    assert (IH' := IH (fun y Hy => H y (or_intror Hy))).
    lra.
Qed.

Lemma sumsq_pos_exists (ys : list float) :
  0 < sumsq (map value ys) -> Exists (fun y => value y <> 0) ys.
Proof.
  induction ys as [|y ys IH]; cbn [map sumsq fold_right].
  - lra.
  - fold (sumsq (map value ys)). intros H.
    destruct (Req_dec (value y) 0) as [Z | NZ].
    + right. apply IH. rewrite Z in H. lra.
    + now left.
Qed.

(** The sum of the squares of the vector returned. *)
Theorem normalised_sumsq (xs : list float) :
  Forall (in_range 53 0) xs -> (List.length xs <= 1000)%nat ->
  Exists (fun x => value x <> 0) xs ->
  let ys := divide_all xs (magnitude_of xs) in
  forallb finite ys = true /\
  Forall (in_range 60 1) ys /\
  1 - 4006 * roundoff <= sumsq (map value ys) <= 1 + 2006 * roundoff.
Proof.
  intros Hall Hlen Hnz ys.
  assert (Hdiv := fun x => divide_rounds xs x Hall Hlen Hnz).
  cbv zeta in Hdiv.
  split; [|split].
  - apply forallb_forall. intros y Hy. unfold ys, divide_all in Hy.
    apply in_map_iff in Hy. destruct Hy as (x & <- & Hx).
    apply (Hdiv x Hx).
  - apply Forall_forall. intros y Hy. unfold ys, divide_all in Hy.
    apply in_map_iff in Hy. destruct Hy as (x & <- & Hx).
    apply (Hdiv x Hx).
  - destruct (magnitude_rounds 53 0 xs ltac:(lia) ltac:(lia) Hall Hlen Hnz)
      as [_ (PM & ML & MU)].
    destruct (factor_bounds (List.length xs) Hlen) as [FL FU].
    pose proof (sumsq_pos xs Hnz) as PA.
    pose proof (sumsq_scaled (fun v => (v / magnitude_of xs)%float) xs
                  (value (magnitude_of xs) * value (magnitude_of xs))
                  ((1 - roundoff) * (1 - roundoff)) ((1 + roundoff) * (1 + roundoff))
                  (fun x Hx => proj1 (proj2 (Hdiv x Hx)))) as HT.
    fold (divide_all xs (magnitude_of xs)) in HT. fold ys in HT.
    pose proof (sumsq_nonneg (map value ys)) as T0.
    set (T := sumsq (map value ys)) in *.
    set (A := sumsq (map value xs)) in *.
    set (M2 := value (magnitude_of xs) * value (magnitude_of xs)) in *.
    set (L := (1 - roundoff) ^ (2 * List.length xs) * ((1 - roundoff) * (1 - roundoff))) in *.
    set (U := (1 + roundoff) ^ (2 * List.length xs) * ((1 + roundoff) * (1 + roundoff))) in *.
    pose proof roundoff_bounds as Hu.
    split.
    + apply ratio_lower.
      apply Rmult_le_reg_l with A; [exact PA|].
      apply Rle_trans with (T * M2); [lra|].
      apply Rle_trans with (T * (A * U)).
      * apply Rmult_le_compat_l; lra.
      * replace (A * (T * (1 + 4003 * roundoff))) with (T * (A * (1 + 4003 * roundoff)))
          by ring.
        apply Rmult_le_compat_l; [exact T0|].
        apply Rmult_le_compat_l; lra.
    + apply ratio_upper.
      apply Rmult_le_reg_l with A; [exact PA|].
      apply Rle_trans with (T * M2); [|lra].
      apply Rle_trans with (T * (A * L)).
      * replace (A * (T * (1 - 2002 * roundoff))) with (T * (A * (1 - 2002 * roundoff)))
          by ring.
        apply Rmult_le_compat_l; [exact T0|].
        apply Rmult_le_compat_l; lra.
      * apply Rmult_le_compat_l; lra.
Qed.

Lemma sqrt_near_1 (T eps : R) :
  Rabs (T - 1) <= eps -> eps <= 1 -> Rabs (sqrt T - 1) <= eps.
Proof.
  intros H He.
  replace T with (1 + (T - 1)) at 1 by ring.
  apply Rle_trans with (Rabs (T - 1)); [|exact H].
  apply sqrt_var_maj. lra.
Qed.

Lemma euclidean_norm_sumsq (xs : list R) : euclidean_norm xs = sqrt (sumsq xs).
Proof. reflexivity. Qed.

(** The Euclidean norm of the vector returned, as a real number. *)
Theorem normalised_norm (xs : list float) :
  Forall (in_range 53 0) xs -> (List.length xs <= 1000)%nat ->
  Exists (fun x => value x <> 0) xs ->
  Rabs (euclidean_norm (map value (divide_all xs (magnitude_of xs))) - 1)
    <= 4006 * roundoff.
Proof.
  intros Hall Hlen Hnz.
  destruct (normalised_sumsq xs Hall Hlen Hnz) as (_ & _ & HT).
  pose proof roundoff_bounds as Hu.
  rewrite euclidean_norm_sumsq. apply sqrt_near_1; [|lra].
  apply Rabs_le. lra.
Qed.

Lemma abs_value (x : float) :
  finite (PrimFloat.abs x) = finite x /\ value (PrimFloat.abs x) = Rabs (value x).
Proof.
  rewrite !finite_spec. unfold value. rewrite FloatAxioms.abs_spec.
  destruct (Prim2SF x) as [s | s | | s m e]; cbn [SFabs SFfinite SF2R];
    try (split; [reflexivity | now rewrite Rabs_R0]).
  split; [reflexivity|]. pose proof (SF2R_finite_pos m e).
  rewrite sgn_abs by lra. unfold sgn. lra.
Qed.

Lemma value_tolerance : pow2 (-20) <= value 1e-6%float.
Proof.
  unfold value.
  change (Prim2SF 1e-6%float) with (S754_finite false 4722366482869645 (-72)).
  cbn [SF2R]. unfold sgn. rewrite Rmult_1_l.
  replace (-20)%Z with (52 + -72)%Z by lia. rewrite pow2_add.
  apply Rmult_le_compat_r; [pose proof (pow2_pos (-72)); lra|].
  rewrite pow2_IZR by lia. apply IZR_le. vm_compute. discriminate.
Qed.

Lemma roundoff_times_2_33 : roundoff * 8589934592 = pow2 (-20).
Proof.
  unfold roundoff. change 8589934592 with (IZR (2 ^ 33)).
  rewrite <- pow2_IZR, <- pow2_add by lia. reflexivity.
Qed.

(** The check of the norm, computed on doubles. *)
Theorem normalised_within_tolerance (xs : list float) :
  Forall (in_range 53 0) xs -> (List.length xs <= 1000)%nat ->
  Exists (fun x => value x <> 0) xs ->
  unit_within_tolerance (divide_all xs (magnitude_of xs)) = true.
Proof.
  intros Hall Hlen Hnz.
  destruct (normalised_sumsq xs Hall Hlen Hnz) as (_ & Hys & HT).
  set (ys := divide_all xs (magnitude_of xs)) in *.
  assert (Hlen' : (List.length ys <= 1000)%nat)
    by (unfold ys, divide_all; now rewrite length_map).
  pose proof roundoff_bounds as Hu.
  assert (Hnz' : Exists (fun y => value y <> 0) ys)
    by (apply sumsq_pos_exists; lra).
  destruct (magnitude_rounds 60 1 ys ltac:(lia) ltac:(lia) Hys Hlen' Hnz')
    as [Fm (PM & ML & MU)].
  destruct (factor_bounds (List.length ys) Hlen') as [FL FU].
  set (T := sumsq (map value ys)) in *.
  set (N := value (magnitude_of ys)) in *.
  set (L := (1 - roundoff) ^ (2 * List.length ys) * ((1 - roundoff) * (1 - roundoff))) in *.
  set (U := (1 + roundoff) ^ (2 * List.length ys) * ((1 + roundoff) * (1 + roundoff))) in *.
  (* the computed norm is within 2^-20 of 1 *)
  assert (HN2 : 1 - 6008 * roundoff <= N * N <= 1 + 6010 * roundoff).
  { split.
    - apply Rle_trans with ((1 - 4006 * roundoff) * (1 - 2002 * roundoff)); [nra|].
      apply Rle_trans with (T * L); [|lra].
      apply Rmult_le_compat; lra.
    - apply Rle_trans with ((1 + 2006 * roundoff) * (1 + 4003 * roundoff)); [|nra].
      apply Rle_trans with (T * U); [lra|].
      apply Rmult_le_compat; try lra.
      unfold U. pose proof (pow_1pu_ge_1 (2 * List.length ys)). nra. }
  assert (HN : Rabs (N - 1) <= pow2 (-20)).
  { rewrite <- roundoff_times_2_33. apply Rabs_le. split; nra. }
  unfold unit_within_tolerance. fold ys.
  destruct (sub_rounds (magnitude_of ys) 1 Fm eq_refl) as [Fd Hd].
  { rewrite value_1. fold N. apply Rle_lt_trans with (1 := HN).
    apply pow2_lt. lia. }
  rewrite value_1 in Hd. fold N in Hd.
  set (d := (magnitude_of ys - 1)%float) in *.
  destruct (abs_value d) as [Fa Va].
  apply leb_value; [congruence | reflexivity |].
  rewrite Va. apply Rle_trans with (2 := value_tolerance).
  apply Rabs_le_inv in HN.
  destruct Hd as [-> | [[Hp Hr] | [Hn Hr]]].
  - apply Rabs_le. lra.
  - pose proof (rounded_le _ _ 0 1 (-20) Hr) as B.
    rewrite pow2_0, fexp_64, Rmult_1_l in B.
    specialize (B ltac:(pose proof (pow2_lt (-20) 0 ltac:(lia));
                        rewrite pow2_0 in *; lra) ltac:(lia) ltac:(lra)).
    apply rounded_pos in Hr. apply Rabs_le. pose proof (pow2_pos (-20)). lra.
  - pose proof (rounded_le _ _ 0 1 (-20) Hr) as B.
    rewrite pow2_0, fexp_64, Rmult_1_l in B.
    specialize (B ltac:(pose proof (pow2_lt (-20) 0 ltac:(lia));
                        rewrite pow2_0 in *; lra) ltac:(lia) ltac:(lra)).
    apply rounded_pos in Hr. apply Rabs_le. pose proof (pow2_pos (-20)). lra.
Qed.

(** The magnitude computed on doubles, against the Euclidean norm. *)
Theorem magnitude_close (xs : list float) :
  Forall (in_range 53 0) xs -> (List.length xs <= 1000)%nat ->
  Exists (fun x => value x <> 0) xs ->
  Rabs (value (magnitude_of xs) - euclidean_norm (map value xs))
    <= euclidean_norm (map value xs) * (4003 * roundoff).
Proof.
  intros Hall Hlen Hnz.
  destruct (magnitude_rounds 53 0 xs ltac:(lia) ltac:(lia) Hall Hlen Hnz)
    as [_ (PM & ML & MU)].
  destruct (factor_bounds (List.length xs) Hlen) as [FL FU].
  pose proof (sumsq_pos xs Hnz) as PA.
  pose proof roundoff_bounds as Hu.
  rewrite euclidean_norm_sumsq.
  set (A := sumsq (map value xs)) in *.
  set (M := value (magnitude_of xs)) in *.
  assert (Pn : 0 < sqrt A) by (apply sqrt_lt_R0; exact PA).
  assert (En : sqrt A * sqrt A = A) by (apply sqrt_sqrt; lra).
  set (n := sqrt A) in *.
  assert (HU : M * M <= n * n * (1 + 4003 * roundoff)).
  { rewrite En. apply Rle_trans with (1 := MU).
    apply Rmult_le_compat_l; lra. }
  assert (HL : n * n * (1 - 2002 * roundoff) <= M * M).
  { rewrite En. apply Rle_trans with (2 := ML).
    apply Rmult_le_compat_l; lra. }
  apply Rabs_le. split.
  - destruct (Rle_lt_dec (- (n * (4003 * roundoff))) (M - n)) as [G | B]; [exact G|].
    exfalso. assert (M < n * (1 - 4003 * roundoff)) by lra.
    assert (M * M < n * (1 - 4003 * roundoff) * (n * (1 - 4003 * roundoff))).
    { apply Rmult_le_0_lt_compat; lra. }
    nra.
  - destruct (Rle_lt_dec (M - n) (n * (4003 * roundoff))) as [G | B]; [exact G|].
    exfalso. assert (n * (1 + 4003 * roundoff) < M) by lra.
    assert (n * (1 + 4003 * roundoff) * (n * (1 + 4003 * roundoff)) < M * M).
    { apply Rmult_le_0_lt_compat; nra. }
    nra.
Qed.

(** Each component returned, against 1. *)
Theorem normalised_components (xs : list float) :
  Forall (in_range 53 0) xs -> (List.length xs <= 1000)%nat ->
  Exists (fun x => value x <> 0) xs ->
  Forall (fun y => finite y = true /\ Rabs (value y) <= 1 + 2006 * roundoff)
         (divide_all xs (magnitude_of xs)).
Proof.
  intros Hall Hlen Hnz.
  destruct (normalised_sumsq xs Hall Hlen Hnz) as (Hf & _ & HT).
  pose proof roundoff_bounds as Hu.
  apply Forall_forall. intros y Hy. split.
  - exact (proj1 (forallb_forall _ _) Hf y Hy).
  - pose proof (sumsq_ge_component _ y Hy) as Hc.
    apply square_le_inv; [lra|]. rewrite <- square_abs. nra.
Qed.

(** *** The drawn vector *)

Lemma scale_draw_in_range (r : float) :
  unit_draw r = true -> in_range 53 0 (scale_draw r).
Proof.
  unfold unit_draw. intros H. apply andb_true_iff in H. destruct H as [H0 H1].
  destruct (scale_draw_spec r H0 H1) as (Fx & Hx & Hlo & _).
  split; [exact Fx|]. split; [|exact Hlo].
  rewrite pow2_0. apply Rabs_le. lra.
Qed.

Lemma drawn_in_range (draws : list float) :
  forallb unit_draw draws = true ->
  Forall (in_range 53 0) (map scale_draw draws).
Proof.
  intros H. apply Forall_forall. intros x Hx. apply in_map_iff in Hx.
  destruct Hx as (r & <- & Hr). apply scale_draw_in_range.
  exact (proj1 (forallb_forall _ _) H r Hr).
Qed.

Lemma drawn_bounds (draws : list float) :
  forallb unit_draw draws = true ->
  Forall (fun x => finite x = true /\ -1 <= value x < 1)
         (map scale_draw draws).
Proof.
  intros H. apply Forall_forall. intros x Hx. apply in_map_iff in Hx.
  destruct Hx as (r & <- & Hr).
  pose proof (proj1 (forallb_forall _ _) H r Hr) as Hu.
  unfold unit_draw in Hu. apply andb_true_iff in Hu. destruct Hu as [H0 H1].
  destruct (scale_draw_spec r H0 H1) as (Fx & Hx & _). now split.
Qed.

Lemma drawn_nonzero (draws : list float) :
  forallb unit_draw draws = true ->
  existsb (fun r => negb (r =? 0.5)%float) draws = true ->
  Exists (fun x => value x <> 0) (map scale_draw draws).
Proof.
  intros H E. apply existsb_exists in E. destruct E as (r & Hr & Hn).
  apply Exists_exists. exists (scale_draw r). split; [now apply in_map|].
  pose proof (proj1 (forallb_forall _ _) H r Hr) as Hu.
  unfold unit_draw in Hu. apply andb_true_iff in Hu. destruct Hu as [H0 H1].
  destruct (scale_draw_spec r H0 H1) as (_ & _ & _ & Hz).
  apply Hz. now apply negb_true_iff.
Qed.

End DoubleRounding.

(* ------------------------------------------------------------------ *)
(** ** The fallback vector                                             *)
(* ------------------------------------------------------------------ *)

(** C3, on the doubles.  For every invocation of the generator at dimension
    768 in which [Math.random] returns doubles in [[0, 1)] that are not all
    0.5: the generator returns; each component drawn,
    [Math.random() * 2 - 1], is a finite double in [[-1, 1)]; the vector
    returned is the drawn vector with each component divided by the
    magnitude the code computes, which is the Euclidean norm of the drawn
    vector up to a relative error of 1e-12; its 768 components are finite;
    and its Euclidean norm is within 1e-6 of 1, as a real number and as
    recomputed on doubles. *)
Theorem C3_fallback_unit_norm :
  forall (W : Type) (svc : Services W) (m : Machine W),
    let draws := fst (draws_from svc 768 (world m)) in
    forallb unit_draw draws = true ->
    existsb (fun r => negb (PrimFloat.eqb r 0.5%float)) draws = true ->
    let drawn := map scale_draw draws in
    exists returned : list float,
      fst (generateRandomEmbedding svc 768 m) = Normal returned /\
      Forall (fun x => finite x = true /\ (-1 <= value x < 1)%R) drawn /\
      returned = map (fun x => PrimFloat.div x (magnitude_of drawn)) drawn /\
      (Rabs (value (magnitude_of drawn) - euclidean_norm (map value drawn))
         <= euclidean_norm (map value drawn) / 1000000000000)%R /\
      List.length returned = 768 /\
      forallb finite returned = true /\
      (Rabs (euclidean_norm (map value returned) - 1) <= 1 / 1000000)%R /\
      unit_within_tolerance returned = true.
Proof.
  intros W svc m draws Hd Hnz drawn.
  rewrite generateRandomEmbedding_run. cbn [fst]. fold draws.
  exists (embedding_of_draws draws). split; [reflexivity|].
  pose proof (drawn_in_range draws Hd) as Hr.
  pose proof (drawn_nonzero draws Hd Hnz) as Hz.
  fold drawn in Hr, Hz.
  assert (Hlen : List.length drawn = 768)
    by (unfold drawn, draws; now rewrite length_map, draws_from_length).
  assert (Hle : List.length drawn <= 1000) by lia.
  pose proof roundoff_bounds as Hu.
  split; [apply drawn_bounds; exact Hd|].
  split; [reflexivity|].
  split.
  { pose proof (magnitude_close drawn Hr Hle Hz) as Hm.
    eapply Rle_trans; [exact Hm|].
    unfold Rdiv. apply Rmult_le_compat_l.
    - rewrite euclidean_norm_sumsq. apply sqrt_pos.
    - lra. }
  split; [rewrite embedding_of_draws_length; unfold draws;
          apply draws_from_length|].
  change (embedding_of_draws draws) with (divide_all drawn (magnitude_of drawn)).
  destruct (normalised_sumsq drawn Hr Hle Hz) as (Hf & _ & _).
  split; [exact Hf|].
  split.
  { pose proof (normalised_norm drawn Hr Hle Hz) as Hn.
    eapply Rle_trans; [exact Hn | lra]. }
  now apply normalised_within_tolerance.
Qed.

(** The theorem when [Math.random] returns 0.25 each time. *)
Lemma C3_fallback_unit_norm_witness :
  exists returned : list float,
    fst (generateRandomEmbedding Sim.services 768
           (Sim.boot Sim.cfg_qdrant_only (Sim.with_draw 0.25%float Sim.calm)))
    = Normal returned /\
    List.length returned = 768 /\
    forallb finite returned = true /\
    (Rabs (euclidean_norm (map value returned) - 1) <= 1 / 1000000)%R /\
    unit_within_tolerance returned = true.
Proof.
  pose proof (C3_fallback_unit_norm Sim.World Sim.services
                (Sim.boot Sim.cfg_qdrant_only
                   (Sim.with_draw 0.25%float Sim.calm))) as H.
  cbv zeta in H.
  specialize (H ltac:(vm_compute; reflexivity) ltac:(vm_compute; reflexivity)).
  destruct H as (returned & H1 & _ & _ & _ & H2 & H3 & H4 & H5).
  exists returned. repeat split; assumption.
Defined.

(** C3 fails as stated on the doubles: when [Math.random] returns 0.5 each
    time the drawn vector is zero, its magnitude is 0, and the 768
    components returned are all [0 / 0 = NaN]; the norm is not within 1e-6
    of 1. *)
Lemma C3_counterexample_all_draws_half :
  exists xs,
    fst (generateRandomEmbedding Sim.services 768
           (Sim.boot Sim.cfg_qdrant_only (Sim.with_draw 0.5%float Sim.calm)))
    = Normal xs /\
    List.length xs = 768 /\
    forallb PrimFloat.is_nan xs = true /\
    unit_within_tolerance xs = false.
Proof.
  eexists. split; [vm_compute; reflexivity|].
  split; [reflexivity|]. split; vm_compute; reflexivity.
Qed.

(* ------------------------------------------------------------------ *)
(** ** initCollection                                                  *)
(* ------------------------------------------------------------------ *)

Lemma string_app_nil_r (s : string) : s ++ "" = s.
Proof. induction s as [|c s IH]; simpl; [reflexivity | now rewrite IH]. Qed.

Lemma string_app_assoc (a b c : string) : (a ++ b) ++ c = a ++ b ++ c.
Proof. induction a as [|x a IH]; simpl; [reflexivity | now rewrite IH]. Qed.

Lemma occurs_in_suffix (x prefix s : string) :
  Str.occurs_in x s -> Str.occurs_in x (prefix ++ s).
Proof.
  intros [pre [post ->]]. exists (prefix ++ pre), post.
  now rewrite string_app_assoc.
Qed.

Lemma occurs_in_self (s : string) : Str.occurs_in s s.
Proof. exists "", "". simpl. now rewrite string_app_nil_r. Qed.

Lemma occurs_in_empty (s : string) : Str.occurs_in "" s.
Proof. now exists "", s. Qed.

(** [Error.prototype.toString] shows the message. *)
Lemma Error_toString_shows_message (n msg : string) :
  Str.occurs_in msg (Error_toString n msg).
Proof.
  unfold Error_toString. destruct (n =? ""); [apply occurs_in_self|].
  destruct (String.eqb_spec msg "") as [-> | _]; [apply occurs_in_empty|].
  apply occurs_in_suffix, occurs_in_suffix, occurs_in_self.
Qed.

(** Whether [includes] can be called on a value does not depend on what
    is searched for. *)
Lemma js_includes_total (v : JsVal) (needle needle' : string) (b : bool) :
  js_includes v needle = Normal b ->
  exists b', js_includes v needle' = Normal b'.
Proof. destruct v; simpl; intros H; try discriminate H; eauto. Qed.

Lemma js_includes_string (msg needle : string) (b : bool) :
  js_includes (JStr msg) needle = Normal b <-> Str.includes msg needle = b.
Proof. simpl. split; [intros H; now injection H | now intros ->]. Qed.

Lemma listed_spec (collection : string) (cs : list CollectionDescription) :
  listed collection cs = true <-> exists c, In c cs /\ name c = collection.
Proof.
  unfold listed. rewrite existsb_exists. split.
  - intros [c [Hin E]]. apply String.eqb_eq in E. now exists c.
  - intros [c [Hin E]]. exists c. split; [exact Hin | now apply String.eqb_eq].
Qed.

Lemma count_snoc (p : Event -> bool) (t : list Event) (ev : Event) :
  count p (t ++ [ev]) = count p t + (if p ev then 1 else 0).
Proof.
  unfold count. rewrite filter_app, length_app. simpl.
  now destruct (p ev).
Qed.

Section CollectionFacts.
Context {W : Type}.
Variable svc : Services W.

(** The [try] block: the query, then the creation when the name is not
    listed. *)
Lemma initCollection_try_run (collection : string) (m : Machine W) :
  let q := qdrantClient (this m) in
  let r := getCollections svc q (world m) in
  let m1 := after_call m (EvGetCollections q) (snd r) in
  initCollection_try svc collection m =
  match fst r with
  | Abrupt e => (Abrupt e, m1)
  | Normal cs =>
      if listed collection cs
      then (Normal tt, m1)
      else
        let r2 := createCollection svc q collection collection_params (snd r) in
        (fst r2,
         after_call m1 (EvCreateCollection q collection collection_params) (snd r2))
  end.
Proof.
  cbv zeta. unfold initCollection_try, bind, get_this, await, after_call.
  destruct (getCollections svc (qdrantClient (this m)) (world m))
    as [[cs | e] w1]; cbn [fst snd]; [|reflexivity].
  fold (listed collection cs). destruct (listed collection cs); cbn [negb].
  - reflexivity.
  - cbn [world trace this].
    destruct (createCollection svc (qdrantClient (this m)) collection
                collection_params w1) as [r2 w2]. reflexivity.
Qed.

(** The [catch] block always raises and changes nothing; what it raises
    is given by [surfaces]. *)
Lemma initCollection_catch_run (error : Thrown) (m : Machine W) :
  exists surfaced,
    initCollection_catch error m = (Abrupt surfaced, m) /\
    surfaces error surfaced.
Proof.
  unfold initCollection_catch, bind, throw, ret, lift.
  destruct (instanceof_Error error) eqn:I.
  - destruct (js_includes (message_of error) "unauthorized") as [[] | t] eqn:A.
    + eexists. split; [reflexivity|]. now apply surfaces_auth.
    + destruct (js_includes_total _ _ "ECONNREFUSED" _ A) as [r R].
      destruct (js_includes_total _ _ "ETIMEDOUT" _ A) as [u U].
      rewrite R. destruct r.
      * eexists. split; [reflexivity|].
        apply surfaces_connectivity; auto.
      * rewrite U. destruct u.
        -- eexists. split; [reflexivity|].
           apply surfaces_connectivity; auto.
        -- destruct (to_string error) as [rendered | t] eqn:S.
           ++ eexists. split; [reflexivity|].
              apply surfaces_generic; auto.
           ++ eexists. split; [reflexivity|].
              apply surfaces_string_error; auto.
    + eexists. split; [reflexivity|]. now apply surfaces_includes_error.
  - destruct (to_string error) as [rendered | t] eqn:S.
    + eexists. split; [reflexivity|]. apply surfaces_generic; auto.
    + eexists. split; [reflexivity|]. apply surfaces_string_error; auto.
Qed.

Lemma initCollection_of_try (collection : string) (m : Machine W) :
  initCollection svc collection m =
  match initCollection_try svc collection m with
  | (Normal a, m') => (Normal a, m')
  | (Abrupt error, m') => initCollection_catch error m'
  end.
Proof. reflexivity. Qed.

(** With the name listed, the method is the query alone. *)
Lemma initCollection_listed (collection : string) (m : Machine W)
      (cs : list CollectionDescription) (w' : W) :
  getCollections svc (qdrantClient (this m)) (world m) = (Normal cs, w') ->
  listed collection cs = true ->
  initCollection svc collection m =
  (Normal tt, after_call m (EvGetCollections (qdrantClient (this m))) w').
Proof.
  intros G L. rewrite initCollection_of_try.
  pose proof (initCollection_try_run collection m) as R. cbv zeta in R.
  rewrite R, G. cbn [fst snd]. now rewrite L.
Qed.

End CollectionFacts.

(** The simulated store keeps what it has. *)
Lemma sim_store_coherent (q : QdrantClient) (collection : string) :
  coherent_store Sim.services q collection.
Proof.
  assert (L : forall names : list string,
             listed collection (map (fun n => {| name := n |}) (names ++ [collection]))
             = true).
  { intros names. apply listed_spec. exists {| name := collection |}.
    split; [|reflexivity]. apply in_map, in_or_app. right. now left. }
  split.
  - intros w cs w' G Hl. cbn in G. injection G as G <-.
    exists cs, w. split; [|exact Hl]. cbn. now rewrite G.
  - intros w params w' C. cbn in C. unfold Sim.add_collection in C.
    destruct (Sim.qdrant_fault w) eqn:F; [discriminate C|].
    injection C as <-.
    eexists. eexists. split; [cbn; reflexivity|]. apply L.
Qed.

(** C4.  For every collection name: when the store's answer to
    [getCollections] contains a collection of that name, [initCollection]
    makes that one call, no [createCollection], and completes normally.
    With a store that keeps what it has, a call that completed normally is
    followed by a call that completes normally and only queries, so that the
    two calls together make at most one creation call. *)
Theorem C4_initCollection_idempotent :
  forall (W : Type) (svc : Services W) (m : Machine W) (collection : string),
    let q := qdrantClient (this m) in
    (forall cs w',
        getCollections svc q (world m) = (Normal cs, w') ->
        (exists c, In c cs /\ name c = collection) ->
        initCollection svc collection m =
        (Normal tt, after_call m (EvGetCollections q) w')) /\
    (coherent_store svc q collection ->
     forall m1,
       initCollection svc collection m = (Normal tt, m1) ->
       exists w2,
         let m2 := after_call m1 (EvGetCollections q) w2 in
         initCollection svc collection m1 = (Normal tt, m2) /\
         count is_create (trace m2) <= S (count is_create (trace m))).
Proof.
  intros W svc m collection q. split.
  - intros cs w' G Hc. apply (initCollection_listed svc collection m cs w' G).
    now apply listed_spec.
  - intros [Hkeep Hmade] m1 H1. rewrite initCollection_of_try in H1.
    pose proof (initCollection_try_run svc collection m) as R. cbv zeta in R.
    fold q in R. rewrite R in H1. clear R.
    destruct (getCollections svc q (world m)) as [[cs | e] w1] eqn:G;
      cbn [fst snd] in H1.
    2:{ destruct (initCollection_catch_run e (after_call m (EvGetCollections q) w1))
          as [s [E _]]. rewrite E in H1. discriminate H1. }
    destruct (listed collection cs) eqn:L.
    + injection H1 as <-.
      destruct (Hkeep _ _ _ G L) as [cs' [w2 [G' L']]].
      exists w2. cbv zeta. split.
      * apply (initCollection_listed svc collection
                 (after_call m (EvGetCollections q) w1) cs' w2); assumption.
      * cbn [after_call trace]. rewrite !count_snoc. cbn [is_create]. lia.
    + destruct (createCollection svc q collection collection_params w1)
        as [[[] | e] w2] eqn:C; cbn [fst snd] in H1.
      2:{ destruct (initCollection_catch_run e
                      (after_call (after_call m (EvGetCollections q) w1)
                         (EvCreateCollection q collection collection_params) w2))
            as [s [E _]]. rewrite E in H1. discriminate H1. }
      injection H1 as <-.
      destruct (Hmade _ _ _ C) as [cs' [w3 [G' L']]].
      exists w3. cbv zeta. split.
      * apply (initCollection_listed svc collection
                 (after_call (after_call m (EvGetCollections q) w1)
                    (EvCreateCollection q collection collection_params) w2)
                 cs' w3); assumption.
      * cbn [after_call trace]. rewrite !count_snoc. cbn [is_create]. lia.
Qed.

(** The theorem on the simulated store, empty at first: the first call
    creates the collection, the second one only queries. *)
Lemma C4_initCollection_idempotent_witness :
  exists m1 w2,
    initCollection Sim.services "docs" (Sim.boot Sim.cfg_qdrant_only Sim.calm)
    = (Normal tt, m1) /\
    count is_create (trace m1) = 1 /\
    initCollection Sim.services "docs" m1 =
    (Normal tt,
     after_call m1 (EvGetCollections (qdrantClient (this m1))) w2) /\
    count is_create
      (trace (after_call m1 (EvGetCollections (qdrantClient (this m1))) w2)) <= 1.
Proof.
  eexists.
  destruct (proj2 (C4_initCollection_idempotent Sim.World Sim.services
                     (Sim.boot Sim.cfg_qdrant_only Sim.calm) "docs")
              (sim_store_coherent _ _) _ eq_refl) as [w2 [H2 Hc]].
  exists w2. split; [reflexivity|]. split; [reflexivity|].
  split; [exact H2 | exact Hc].
Defined.

Lemma toLowerCase_app (a b : string) :
  Str.toLowerCase (a ++ b) = Str.toLowerCase a ++ Str.toLowerCase b.
Proof. induction a as [|c a IH]; simpl; [reflexivity | now rewrite IH]. Qed.

(** A text that occurs also occurs, in lower case, in the lower-cased
    string. *)
Lemma occurs_in_toLowerCase (needle s : string) :
  Str.occurs_in needle s ->
  Str.occurs_in (Str.toLowerCase needle) (Str.toLowerCase s).
Proof.
  intros [pre [post ->]]. exists (Str.toLowerCase pre), (Str.toLowerCase post).
  now rewrite !toLowerCase_app.
Qed.

Section CatchFacts.
Context {W : Type}.
Variable svc : Services W.

(** The [catch] block on an [Error] whose message is a string. *)
Lemma initCollection_catch_string (error : Thrown) (msg : string)
      (m : Machine W) :
  instanceof_Error error = true ->
  message_of error = JStr msg ->
  initCollection_catch error m =
  (Abrupt
     (if Str.includes msg "unauthorized"
      then McpError InvalidRequest
             "Failed to authenticate with Qdrant cloud. Please check your API key."
      else if Str.includes msg "ECONNREFUSED" || Str.includes msg "ETIMEDOUT"
      then McpError InternalError
             "Failed to connect to Qdrant cloud. Please check your QDRANT_URL."
      else match to_string error with
           | Normal rendered =>
               McpError InternalError
                 ("Failed to initialize Qdrant cloud collection: " ++ rendered)
           | Abrupt t => t
           end), m).
Proof.
  intros I M. unfold initCollection_catch, bind, throw, ret, lift.
  rewrite I, M. cbn [js_includes].
  destruct (Str.includes msg "unauthorized"); [reflexivity|].
  destruct (Str.includes msg "ECONNREFUSED"); [reflexivity|].
  destruct (Str.includes msg "ETIMEDOUT"); [reflexivity|]. cbn [orb].
  now destruct (to_string error).
Qed.

(** The [catch] block on a value that is not an [Error]. *)
Lemma initCollection_catch_non_error (error : Thrown) (m : Machine W) :
  instanceof_Error error = false ->
  initCollection_catch error m =
  (Abrupt
     match to_string error with
     | Normal rendered =>
         McpError InternalError
           ("Failed to initialize Qdrant cloud collection: " ++ rendered)
     | Abrupt t => t
     end, m).
Proof.
  intros I. unfold initCollection_catch, bind, throw, ret, lift. rewrite I.
  now destruct (to_string error).
Qed.

(** An error of the query, or of the creation after a query that does not
    list the name, is what the [catch] block receives. *)
Lemma initCollection_raised (m : Machine W) (collection : string)
      (error : Thrown) :
  let q := qdrantClient (this m) in
  let r := getCollections svc q (world m) in
  fst r = Abrupt error \/
  (exists cs,
      fst r = Normal cs /\
      (forall c, In c cs -> name c <> collection) /\
      fst (createCollection svc q collection collection_params (snd r))
      = Abrupt error) ->
  exists m1, initCollection svc collection m = initCollection_catch error m1.
Proof.
  intros q r H. rewrite initCollection_of_try.
  pose proof (initCollection_try_run svc collection m) as R. cbv zeta in R.
  fold q in R. fold r in R. rewrite R. clear R.
  destruct H as [H | [cs [H [Hnot C]]]]; rewrite H; [eauto|].
  assert (L : listed collection cs = false).
  { destruct (listed collection cs) eqn:L; [|reflexivity].
    apply listed_spec in L. destruct L as [c [Hin E]].
    now destruct (Hnot c Hin). }
  rewrite L. cbv zeta. rewrite C. eauto.
Qed.

End CatchFacts.

(** C5, as the code has it.  An error raised by the query, or by the
    creation that follows a query not listing the name, reaches the caller
    by the text of its message.  An [Error] whose message is a string that
    contains [unauthorized] gives [InvalidRequest] with the text about the
    API key.  Otherwise one whose message contains [ECONNREFUSED] or
    [ETIMEDOUT] gives [InternalError] with the text about [QDRANT_URL].  An
    [Error] whose message is a string with none of these words
    ([unauthorized] in no letter case), and a value that is not an [Error],
    give, when they convert to a string, [InternalError] with [Failed to
    initialize Qdrant cloud collection: ] followed by that string; for an
    [Error] with the inherited [toString] the original message occurs in
    it. *)
Theorem C5_initCollection_error_classes :
  forall (W : Type) (svc : Services W) (m : Machine W) (collection : string)
         (error : Thrown),
    let q := qdrantClient (this m) in
    let r := getCollections svc q (world m) in
    fst r = Abrupt error \/
    (exists cs,
        fst r = Normal cs /\
        (forall c, In c cs -> name c <> collection) /\
        fst (createCollection svc q collection collection_params (snd r))
        = Abrupt error) ->
    (forall msg,
        instanceof_Error error = true ->
        message_of error = JStr msg ->
        Str.occurs_in "unauthorized" msg ->
        fst (initCollection svc collection m) =
        Abrupt (McpError InvalidRequest
                  "Failed to authenticate with Qdrant cloud. Please check your API key.")) /\
    (forall msg,
        instanceof_Error error = true ->
        message_of error = JStr msg ->
        ~ Str.occurs_in "unauthorized" msg ->
        Str.occurs_in "ECONNREFUSED" msg \/ Str.occurs_in "ETIMEDOUT" msg ->
        fst (initCollection svc collection m) =
        Abrupt (McpError InternalError
                  "Failed to connect to Qdrant cloud. Please check your QDRANT_URL.")) /\
    (forall rendered,
        to_string error = Normal rendered ->
        instanceof_Error error = false \/
        (exists msg,
            message_of error = JStr msg /\
            ~ Str.occurs_in "unauthorized" (Str.toLowerCase msg) /\
            ~ Str.occurs_in "ECONNREFUSED" msg /\
            ~ Str.occurs_in "ETIMEDOUT" msg) ->
        fst (initCollection svc collection m) =
        Abrupt (McpError InternalError
                  ("Failed to initialize Qdrant cloud collection: " ++ rendered))) /\
    (forall n msg,
        error = JsError n msg ->
        exists rendered,
          to_string error = Normal rendered /\ Str.occurs_in msg rendered).
Proof.
  intros W svc m collection error q r H.
  destruct (initCollection_raised svc m collection error H) as [m1 E].
  rewrite E. clear E. split; [|split; [|split]].
  - intros msg I M A. rewrite (initCollection_catch_string error msg m1 I M).
    apply includes_spec in A. now rewrite A.
  - intros msg I M A C. rewrite (initCollection_catch_string error msg m1 I M).
    apply includes_false in A. rewrite A. cbn [fst].
    assert (O : Str.includes msg "ECONNREFUSED" || Str.includes msg "ETIMEDOUT"
                = true).
    { apply orb_true_iff. destruct C as [C | C]; [left | right];
        now apply includes_spec. }
    now rewrite O.
  - intros rendered S [I | [msg [M [A [R T]]]]].
    + rewrite (initCollection_catch_non_error error m1 I). now rewrite S.
    + destruct (instanceof_Error error) eqn:I.
      * rewrite (initCollection_catch_string error msg m1 I M).
        assert (A' : Str.includes msg "unauthorized" = false).
        { apply includes_false. intros O.
          apply occurs_in_toLowerCase in O. exact (A O). }
        apply includes_false in R, T. rewrite A', R, T, S. reflexivity.
      * rewrite (initCollection_catch_non_error error m1 I). now rewrite S.
  - intros n msg ->. eexists. split; [reflexivity|].
    apply Error_toString_shows_message.
Qed.

(** The theorem on a store that rejects the query as unauthorized. *)
Lemma C5_initCollection_error_classes_witness :
  fst (initCollection Sim.services "docs"
         (Sim.boot Sim.cfg_qdrant_only
            (Sim.with_qdrant_fault (JsError "Error" "401 unauthorized")
               Sim.calm))) =
  Abrupt (McpError InvalidRequest
            "Failed to authenticate with Qdrant cloud. Please check your API key.").
Proof.
  apply (proj1 (C5_initCollection_error_classes Sim.World Sim.services
                  (Sim.boot Sim.cfg_qdrant_only
                     (Sim.with_qdrant_fault (JsError "Error" "401 unauthorized")
                        Sim.calm))
                  "docs" (JsError "Error" "401 unauthorized")
                  (or_introl eq_refl))
           "401 unauthorized" eq_refl eq_refl).
  apply includes_spec. reflexivity.
Defined.

(** C5 fails as stated, at three rejections of the query.  The message
    [Unauthorized], which tells of an authorization failure, gives the
    generic error.  The message [Collection unauthorized_users not found],
    which tells of none, gives the authentication error.  A rejection with a
    Symbol gives no [McpError] at all: the conversion to a string in the
    [catch] block raises a [TypeError], and that is what the caller sees. *)
Lemma C5_counterexample_misclassified :
  fst (initCollection Sim.services "docs"
         (Sim.boot Sim.cfg_qdrant_only
            (Sim.with_qdrant_fault (JsError "Error" "Unauthorized") Sim.calm)))
  = Abrupt (McpError InternalError
              "Failed to initialize Qdrant cloud collection: Error: Unauthorized") /\
  fst (initCollection Sim.services "docs"
         (Sim.boot Sim.cfg_qdrant_only
            (Sim.with_qdrant_fault
               (JsError "Error" "Collection unauthorized_users not found")
               Sim.calm)))
  = Abrupt (McpError InvalidRequest
              "Failed to authenticate with Qdrant cloud. Please check your API key.") /\
  fst (initCollection Sim.services "docs"
         (Sim.boot Sim.cfg_qdrant_only
            (Sim.with_qdrant_fault
               (Unprintable "Cannot convert a Symbol value to a string")
               Sim.calm)))
  = Abrupt (new_TypeError "Cannot convert a Symbol value to a string").
Proof. repeat split. Qed.

(* ------------------------------------------------------------------ *)
(** ** The browser handle                                              *)
(* ------------------------------------------------------------------ *)

Lemma count_app (p : Event -> bool) (t u : list Event) :
  count p (t ++ u) = count p t + count p u.
Proof. unfold count. now rewrite filter_app, length_app. Qed.

Lemma count_closes (p : Event -> bool) (b : Browser) (k : nat) :
  p (EvClose b) = false -> count p (repeat (EvClose b) k) = 0.
Proof.
  intros Hp. unfold count. induction k as [|k IH]; [reflexivity|].
  cbn [repeat filter]. now rewrite Hp.
Qed.

Section BrowserFacts.
Context {W : Type}.
Variable svc : Services W.

Lemma initBrowser_present (m : Machine W) (b : Browser) :
  browser (this m) = Some b -> initBrowser svc m = (Normal tt, m).
Proof.
  intros Hb. unfold initBrowser, bind, get_this. now rewrite Hb.
Qed.

Lemma initBrowser_absent (m : Machine W) :
  browser (this m) = None ->
  initBrowser svc m =
  match chromium_launch svc (world m) with
  | (Normal b, w') => (Normal tt, after_launch m b w')
  | (Abrupt e, w') => (Abrupt e, after_call m (EvLaunch (Abrupt e)) w')
  end.
Proof.
  intros Hb. unfold initBrowser, bind, get_this. rewrite Hb.
  unfold launch. destruct (chromium_launch svc (world m)) as [[b | e] w'];
    reflexivity.
Qed.

Lemma cleanup_run (m : Machine W) :
  cleanup svc m =
  match browser (this m) with
  | Some b =>
      (fst (browser_close svc b (world m)),
       after_call m (EvClose b) (snd (browser_close svc b (world m))))
  | None => (Normal tt, m)
  end.
Proof.
  unfold cleanup, bind, get_this. destruct (browser (this m)) as [b|];
    [|reflexivity].
  unfold await, after_call. now destruct (browser_close svc b (world m)).
Qed.

(** Once a handle is stored, no call changes the field or launches: the
    calls that follow only add [close] calls on that handle. *)
Lemma run_ops_present (ops : list Op) (m : Machine W) (b : Browser) :
  browser (this m) = Some b ->
  browser (this (run_ops svc ops m)) = Some b /\
  exists k, trace (run_ops svc ops m) = (trace m ++ repeat (EvClose b) k)%list.
Proof.
  revert m. induction ops as [|op ops IH]; intros m Hb.
  - split; [exact Hb|]. exists 0. cbn. now rewrite app_nil_r.
  - cbn [run_ops fold_left]. fold (run_ops svc ops (run_op svc op m)).
    destruct op; cbn [run_op].
    + rewrite (initBrowser_present m b Hb). cbn [snd]. now apply IH.
    + rewrite cleanup_run, Hb. cbn [snd].
      destruct (IH (after_call m (EvClose b)
                      (snd (browser_close svc b (world m)))) Hb) as [H1 [k H2]].
      split; [exact H1|]. exists (S k). rewrite H2. cbn [after_call trace repeat].
      now rewrite <- app_assoc.
Qed.

(** From a machine without a handle, a sequence of calls adds at most one
    launch that resolved. *)
Lemma run_ops_absent (ops : list Op) (m : Machine W) :
  browser (this m) = None ->
  count is_launched (trace (run_ops svc ops m)) <=
  S (count is_launched (trace m)).
Proof.
  revert m. induction ops as [|op ops IH]; intros m Hb.
  - cbn. lia.
  - cbn [run_ops fold_left]. fold (run_ops svc ops (run_op svc op m)).
    destruct op; cbn [run_op].
    + rewrite (initBrowser_absent m Hb).
      destruct (chromium_launch svc (world m)) as [[b | e] w']; cbn [snd].
      * destruct (run_ops_present ops (after_launch m b w') b eq_refl)
          as [_ [k Hk]].
        rewrite Hk. cbn [after_launch trace].
        rewrite !count_app, count_closes by reflexivity. cbn. lia.
      * specialize (IH (after_call m (EvLaunch (Abrupt e)) w') Hb).
        cbn [after_call trace] in IH. rewrite count_snoc in IH.
        cbn [is_launched] in IH. cbn [after_call]. lia.
    + rewrite cleanup_run, Hb. cbn [snd]. now apply IH.
Qed.

End BrowserFacts.

Lemma constructed_fresh (cfg : Config) :
  browser (fst (constructed cfg)) = None /\
  count is_launch_call (snd (constructed cfg)) = 0.
Proof.
  unfold constructed. now destruct (narrow (OPENAI_API_KEY cfg)).
Qed.

(** C6, as the code has it.  With a handle stored, [cleanup] calls [close]
    on it and completes as [close] does; the handle stays stored, and a
    second [cleanup] calls [close] on the same handle again.  With no
    handle (also when [initBrowser] was never called) [cleanup] does
    nothing and completes normally, and so does a second call. *)
Theorem C6_cleanup_keeps_handle :
  forall (W : Type) (svc : Services W) (m : Machine W),
    match browser (this m) with
    | Some b =>
        let r1 := browser_close svc b (world m) in
        let m1 := after_call m (EvClose b) (snd r1) in
        let r2 := browser_close svc b (snd r1) in
        let m2 := after_call m1 (EvClose b) (snd r2) in
        cleanup svc m = (fst r1, m1) /\
        browser (this m1) = Some b /\
        cleanup svc m1 = (fst r2, m2) /\
        trace m2 = (trace m ++ [EvClose b; EvClose b])%list
    | None =>
        cleanup svc m = (Normal tt, m) /\
        bind (cleanup svc) (fun _ => cleanup svc) m = (Normal tt, m)
    end.
Proof.
  intros W svc m. destruct (browser (this m)) as [b|] eqn:Hb.
  - cbv zeta. split; [rewrite cleanup_run, Hb; reflexivity|].
    split; [exact Hb|]. split.
    + rewrite cleanup_run. cbn [after_call this world]. now rewrite Hb.
    + cbn [after_call trace]. now rewrite <- app_assoc.
  - assert (C : cleanup svc m = (Normal tt, m)) by (rewrite cleanup_run; now rewrite Hb).
    split; [exact C|]. unfold bind. now rewrite C.
Qed.

(** C6 fails as stated: after [initBrowser] and [cleanup] the handle is
    still stored; the field did not go back to absent. *)
Lemma C6_counterexample_handle_not_released :
  exists m1 m2,
    initBrowser Sim.services (Sim.boot Sim.cfg_qdrant_only Sim.calm)
    = (Normal tt, m1) /\
    browser (this m1) = Some 0 /\
    cleanup Sim.services m1 = (Normal tt, m2) /\
    trace m2 = (trace m1 ++ [EvClose 0])%list /\
    browser (this m2) <> None.
Proof.
  eexists. eexists. split; [reflexivity|]. split; [reflexivity|].
  split; [reflexivity|]. split; [reflexivity|]. discriminate.
Qed.

(** C7.  With a handle stored, [initBrowser] does nothing: no launch, no
    change.  With none, and a launch that resolves to [b], it launches
    once and stores [b]; a second call, and any number of further calls,
    then change nothing, so that the calls together made exactly one launch
    and the field holds the one handle. *)
Theorem C7_initBrowser_idempotent :
  forall (W : Type) (svc : Services W) (m : Machine W),
    (forall b, browser (this m) = Some b -> initBrowser svc m = (Normal tt, m)) /\
    (browser (this m) = None ->
     forall b w',
       chromium_launch svc (world m) = (Normal b, w') ->
       let m1 := after_launch m b w' in
       initBrowser svc m = (Normal tt, m1) /\
       initBrowser svc m1 = (Normal tt, m1) /\
       bind (initBrowser svc) (fun _ => initBrowser svc) m = (Normal tt, m1) /\
       browser (this m1) = Some b /\
       count is_launch_call (trace m1) = S (count is_launch_call (trace m)) /\
       forall n, run_ops svc (repeat OpInitBrowser n) m1 = m1).
Proof.
  intros W svc m. split; [apply initBrowser_present|].
  intros Hb b w' L m1.
  assert (H1 : initBrowser svc m = (Normal tt, m1))
    by (rewrite (initBrowser_absent svc m Hb), L; reflexivity).
  assert (H2 : initBrowser svc m1 = (Normal tt, m1))
    by (apply (initBrowser_present svc m1 b); reflexivity).
  split; [exact H1|]. split; [exact H2|].
  split; [unfold bind; now rewrite H1|].
  split; [reflexivity|]. split.
  - unfold m1. cbn [after_launch trace]. rewrite count_snoc. cbn. lia.
  - induction n as [|n IH]; [reflexivity|].
    cbn [repeat run_ops fold_left run_op]. rewrite H2. exact IH.
Qed.

(** The theorem on a freshly constructed client and a launcher that
    answers. *)
Lemma C7_initBrowser_idempotent_witness :
  bind (initBrowser Sim.services) (fun _ => initBrowser Sim.services)
       (Sim.boot Sim.cfg_qdrant_only Sim.calm) =
  (Normal tt,
   after_launch (Sim.boot Sim.cfg_qdrant_only Sim.calm) 0
                (Sim.bump_browser Sim.calm)).
Proof.
  apply (proj2 (C7_initBrowser_idempotent Sim.World Sim.services
                  (Sim.boot Sim.cfg_qdrant_only Sim.calm))
           eq_refl 0 (Sim.bump_browser Sim.calm) eq_refl).
Defined.

(** C8.  When [QDRANT_URL] or [QDRANT_API_KEY] is absent from the
    environment, importing the module raises an [Error], and no client
    object (vector store, embeddings, browser) has been created by then. *)
Theorem C8_construction_requires_qdrant :
  forall (lib : ClientLibraries) (env : Env),
    env "QDRANT_URL" = None \/ env "QDRANT_API_KEY" = None ->
    exists msg,
      startup lib env = (Abrupt (new_Error msg), []) /\
      (msg = "QDRANT_URL environment variable is required for cloud storage" \/
       msg = "QDRANT_API_KEY environment variable is required for cloud storage").
Proof.
  intros lib env H. unfold startup, module_guard.
  destruct (narrow (env "QDRANT_URL")) as [url|] eqn:U.
  - destruct H as [H | H].
    + rewrite H in U. discriminate U.
    + rewrite H. cbn [narrow]. eexists. split; [reflexivity | now right].
  - eexists. split; [reflexivity | now left].
Qed.

(** The theorem on the empty environment. *)
Lemma C8_construction_requires_qdrant_witness :
  exists msg,
    startup Sim.libraries (fun _ => None) = (Abrupt (new_Error msg), []).
Proof.
  destruct (C8_construction_requires_qdrant Sim.libraries (fun _ => None)
              (or_introl eq_refl))
    as [msg [H _]].
  now exists msg.
Defined.

(** C10.  No operation clears the stored handle.  On a client that starts
    without a handle and without a launch behind it, after any sequence of
    [initBrowser] and [cleanup] calls: at most one launch has resolved;
    once a handle is stored it stays stored and no call launches again,
    whatever calls follow; [cleanup] leaves the handle, [initBrowser] after
    it does nothing, and a second [cleanup] calls [close] on the same,
    already closed, handle again. *)
Theorem C10_browser_handle_never_cleared :
  forall (W : Type) (svc : Services W) (m : Machine W) (ops : list Op),
    browser (this m) = None ->
    count is_launched (trace m) = 0 ->
    let m' := run_ops svc ops m in
    count is_launched (trace m') <= 1 /\
    forall b,
      browser (this m') = Some b ->
      (forall more,
          browser (this (run_ops svc more m')) = Some b /\
          count is_launch_call (trace (run_ops svc more m')) =
          count is_launch_call (trace m')) /\
      let c1 := snd (cleanup svc m') in
      let c2 := snd (cleanup svc c1) in
      browser (this c1) = Some b /\
      initBrowser svc c1 = (Normal tt, c1) /\
      trace c2 = (trace m' ++ [EvClose b; EvClose b])%list /\
      browser (this c2) = Some b.
Proof.
  intros W svc m ops Hb H0 m'. split.
  - pose proof (run_ops_absent svc ops m Hb) as H. fold m' in H. lia.
  - intros b Hb'. split.
    + intros more. destruct (run_ops_present svc more m' b Hb') as [H1 [k H2]].
      split; [exact H1|]. rewrite H2, count_app, count_closes by reflexivity. lia.
    + cbv zeta. rewrite (cleanup_run svc m'), Hb'. cbn [snd].
      set (c1 := after_call m' (EvClose b) (snd (browser_close svc b (world m')))).
      assert (B1 : browser (this c1) = Some b) by exact Hb'.
      split; [exact B1|]. split; [now apply (initBrowser_present svc c1 b)|].
      rewrite (cleanup_run svc c1), B1. subst c1.
      cbn [snd after_call trace this]. rewrite <- app_assoc.
      split; [reflexivity | exact Hb'].
Qed.

(** The theorem on a freshly constructed client: launch, clean up, launch
    again, clean up again. *)
Lemma C10_browser_handle_never_cleared_witness :
  count is_launched
    (trace (run_ops Sim.services
              [OpInitBrowser; OpCleanup; OpInitBrowser; OpCleanup]
              (Sim.boot Sim.cfg_qdrant_only Sim.calm))) <= 1.
Proof.
  apply (C10_browser_handle_never_cleared Sim.World Sim.services
           (Sim.boot Sim.cfg_qdrant_only Sim.calm)
           [OpInitBrowser; OpCleanup; OpInitBrowser; OpCleanup]
           eq_refl eq_refl).
Defined.

(* ------------------------------------------------------------------ *)
(** ** Sample runs on the simulated world                              *)
(* ------------------------------------------------------------------ *)

(** A base URL that already ends in [/v1] gets [/embeddings] only. *)
Example ollamaUrl_with_v1 :
  ollamaUrl "http://localhost:11434/v1" = "http://localhost:11434/v1/embeddings".
Proof. reflexivity. Qed.

Example ollamaUrl_without_v1 :
  ollamaUrl "http://localhost:11434" = "http://localhost:11434/v1/embeddings".
Proof. reflexivity. Qed.

(** With both Qdrant values the module loads and the constructor creates
    the vector-store client only (no embeddings key here). *)
Example startup_qdrant_only :
  startup Sim.libraries Sim.env_qdrant_only =
  (Normal (Sim.cfg_qdrant_only, fst (constructed Sim.cfg_qdrant_only)),
   [EvNewQdrantClient "https://qdrant.example:6333" "secret"]).
Proof. reflexivity. Qed.

(** An empty value is as good as none for the guards. *)
Example startup_empty_url :
  startup Sim.libraries (fun k => if k =? "QDRANT_URL" then Some "" else Some "x") =
  (Abrupt (new_Error
             "QDRANT_URL environment variable is required for cloud storage"),
   []).
Proof. reflexivity. Qed.

(** A URL without a scheme passes the guards and is refused by the
    vector-store client's constructor: no client object exists. *)
Example startup_url_without_scheme :
  startup Sim.strict_libraries
          (fun k => if k =? "QDRANT_URL" then Some "localhost:6333"
                    else if k =? "QDRANT_API_KEY" then Some "secret"
                    else None) =
  (Abrupt (JsError "QdrantClientConfigError"
             "The `url` param expects full URL with scheme, ex.: `http://localhost:6333`."),
   []).
Proof. reflexivity. Qed.

(** No key and no base URL: the SDK branch raises before any call, and the
    fallback vector of 768 numbers is returned. *)
Example getEmbeddings_no_configuration :
  exists xs m',
    getEmbeddings Sim.services Sim.cfg_qdrant_only "hello"
      (Sim.boot Sim.cfg_qdrant_only Sim.calm) = (Normal (number_array xs), m') /\
    List.length xs = 768 /\
    forallb finite xs = true /\
    unit_within_tolerance xs = true /\
    trace m' =
    [EvNewQdrantClient "https://qdrant.example:6333" "secret";
     EvConsoleError "Embedding error details:"
       (McpError InvalidRequest "OpenAI API key not configured");
     EvConsoleWarn "Generating fallback random embeddings"].
Proof.
  exists (embedding_of_draws (repeat 0.25%float 768)). eexists.
  split; [vm_compute; reflexivity|].
  repeat split; vm_compute; reflexivity.
Qed.

(** A body without [data]: the direct branch raises, the fallback answers. *)
Example getEmbeddings_malformed_body :
  fst (getEmbeddings_try Sim.services Sim.cfg_ollama "hello"
         (Sim.boot Sim.cfg_ollama
            (Sim.with_http (Normal (JObj [("error", JStr "no model")])) Sim.calm)))
  = Abrupt (new_Error "Invalid response format from Ollama embeddings API").
Proof. reflexivity. Qed.

(** The three classes of [initCollection]'s errors. *)
Example initCollection_unauthorized :
  fst (initCollection Sim.services "docs"
         (Sim.boot Sim.cfg_qdrant_only
            (Sim.with_qdrant_fault (JsError "Error" "401 unauthorized") Sim.calm)))
  = Abrupt (McpError InvalidRequest
              "Failed to authenticate with Qdrant cloud. Please check your API key.").
Proof. reflexivity. Qed.

Example initCollection_refused :
  fst (initCollection Sim.services "docs"
         (Sim.boot Sim.cfg_qdrant_only
            (Sim.with_qdrant_fault
               (JsError "Error" "connect ECONNREFUSED 127.0.0.1:6333") Sim.calm)))
  = Abrupt (McpError InternalError
              "Failed to connect to Qdrant cloud. Please check your QDRANT_URL.").
Proof. reflexivity. Qed.

Example initCollection_other :
  fst (initCollection Sim.services "docs"
         (Sim.boot Sim.cfg_qdrant_only
            (Sim.with_qdrant_fault (JsError "Error" "boom") Sim.calm)))
  = Abrupt (McpError InternalError
              "Failed to initialize Qdrant cloud collection: Error: boom").
Proof. reflexivity. Qed.

(** The first call on an empty store creates the collection with the
    fixed descriptor. *)
Example initCollection_creates :
  trace (snd (initCollection Sim.services "docs"
                (Sim.boot Sim.cfg_qdrant_only Sim.calm))) =
  [EvNewQdrantClient "https://qdrant.example:6333" "secret";
   EvGetCollections (qdrantClient (fst (constructed Sim.cfg_qdrant_only)));
   EvCreateCollection (qdrantClient (fst (constructed Sim.cfg_qdrant_only)))
     "docs"
     {| vectors_size := 768; vectors_distance := "Cosine";
        default_segment_number := 2; memmap_threshold := 20000;
        replication_factor := 2 |}].
Proof. reflexivity. Qed.

(* ================================================================== *)
(** * Further properties of the same code                              *)
(* ================================================================== *)

(* ------------------------------------------------------------------ *)
(** ** Module load and constructor                                     *)
(* ------------------------------------------------------------------ *)

Lemma defined_narrow (o : option string) :
  defined o = true <-> exists s, narrow o = Some s.
Proof.
  destruct o as [t|]; simpl.
  - destruct (t =? ""); simpl; split; try discriminate; eauto.
    intros [s E]. discriminate E.
  - split; [discriminate | intros [s E]; discriminate E].
Qed.

Lemma narrow_keeps (o : option string) (s : string) :
  narrow o = Some s -> o = Some s.
Proof. intros H. now apply narrow_Some in H. Qed.

(** Conjunctions and existentials among the hypotheses, taken apart. *)
Ltac break_hyps :=
  repeat match goal with
         | H : exists _, _ |- _ => destruct H
         | H : _ /\ _ |- _ => destruct H
         end.

(** X1.  The module's guards (lines 13-19) pass exactly when both Qdrant
    values are defined and not empty.  They run in order: a missing or
    empty [QDRANT_URL] gives the first message whatever the key is, and the
    second message is seen only with a good URL and a missing or empty
    key. *)
Theorem module_guard_outcome_by_environment :
  forall env : Env,
    let url_ok := defined (env "QDRANT_URL") in
    let key_ok := defined (env "QDRANT_API_KEY") in
    ((exists cfg, module_guard env = Normal cfg) <->
     url_ok = true /\ key_ok = true) /\
    (module_guard env =
     Abrupt (new_Error
               "QDRANT_URL environment variable is required for cloud storage") <->
     url_ok = false) /\
    (module_guard env =
     Abrupt (new_Error
               "QDRANT_API_KEY environment variable is required for cloud storage") <->
     url_ok = true /\ key_ok = false).
Proof.
  intros env url_ok key_ok. subst url_ok key_ok. unfold module_guard.
  destruct (narrow (env "QDRANT_URL")) as [url|] eqn:U.
  - assert (DU : defined (env "QDRANT_URL") = true)
      by (apply defined_narrow; eauto).
    rewrite DU.
    destruct (narrow (env "QDRANT_API_KEY")) as [key|] eqn:K.
    + assert (DK : defined (env "QDRANT_API_KEY") = true)
        by (apply defined_narrow; eauto).
      rewrite DK. repeat split; intros; break_hyps; eauto; discriminate.
    + apply narrow_None in K. rewrite K.
      repeat split; intros; break_hyps; eauto; discriminate.
  - apply narrow_None in U. rewrite U.
    repeat split; intros; break_hyps; eauto; discriminate.
Qed.

(** A constructor that returns has built what [constructed] says. *)
Lemma constructor_returns (lib : ClientLibraries) (cfg : Config)
      (client : ApiClient) (created : list Event) :
  constructor lib cfg = (Normal client, created) ->
  (client, created) = constructed cfg.
Proof.
  unfold constructor, constructed.
  destruct (QdrantClient_throws lib _ _); [discriminate|].
  destruct (narrow (OPENAI_API_KEY cfg)) as [key|].
  - destruct (OpenAI_throws lib key _); [discriminate|].
    now intros H; injection H as <- <-.
  - now intros H; injection H as <- <-.
Qed.

Lemma startup_inversion (lib : ClientLibraries) (env : Env) (cfg : Config)
      (client : ApiClient) (created : list Event) :
  startup lib env = (Normal (cfg, client), created) ->
  env "QDRANT_URL" = Some (QDRANT_URL cfg) /\
  env "QDRANT_API_KEY" = Some (QDRANT_API_KEY cfg) /\
  OPENAI_API_KEY cfg = env "OPENAI_API_KEY" /\
  OPENAI_BASE_URL cfg = env "OPENAI_BASE_URL" /\
  (client, created) = constructed cfg.
Proof.
  unfold startup, module_guard. intros H.
  destruct (narrow (env "QDRANT_URL")) as [url|] eqn:U; [|discriminate H].
  destruct (narrow (env "QDRANT_API_KEY")) as [key|] eqn:K; [|discriminate H].
  apply narrow_keeps in U, K.
  destruct (constructor lib _) as [[c | e] ev] eqn:C; [|discriminate H].
  injection H as <- <- <-. apply constructor_returns in C.
  repeat split; try assumption; reflexivity.
Qed.

(** X2.  What a successful load and construction leave: the vector-store
    client holds the two values of the environment; the browser field is
    empty; the embeddings client exists exactly when [OPENAI_API_KEY] is
    defined and not empty, and then holds that key and the base URL as the
    environment has it; the objects were created in that order. *)
Theorem startup_builds_clients_from_environment :
  forall (lib : ClientLibraries) (env : Env) (cfg : Config)
         (client : ApiClient) (created : list Event),
    startup lib env = (Normal (cfg, client), created) ->
    env "QDRANT_URL" = Some (qdrant_url (qdrantClient client)) /\
    env "QDRANT_API_KEY" = Some (qdrant_apiKey (qdrantClient client)) /\
    browser client = None /\
    (openaiClient client = None <-> defined (env "OPENAI_API_KEY") = false) /\
    (forall o,
        openaiClient client = Some o ->
        env "OPENAI_API_KEY" = Some (openai_apiKey o) /\
        openai_baseURL o = env "OPENAI_BASE_URL") /\
    created =
    (EvNewQdrantClient (qdrant_url (qdrantClient client))
                       (qdrant_apiKey (qdrantClient client)) ::
     match openaiClient client with
     | Some o => [EvNewOpenAI (openai_apiKey o) (openai_baseURL o)]
     | None => []
     end)%list /\
    OPENAI_API_KEY cfg = env "OPENAI_API_KEY" /\
    OPENAI_BASE_URL cfg = env "OPENAI_BASE_URL".
Proof.
  intros lib env cfg client created H.
  destruct (startup_inversion lib env cfg client created H)
    as [U [K [OK [OB C]]]].
  unfold constructed in C. rewrite OK, OB in C.
  destruct (narrow (env "OPENAI_API_KEY")) as [okey|] eqn:O;
    injection C as -> ->;
    cbn [qdrantClient openaiClient browser qdrant_url qdrant_apiKey].
  - pose proof (narrow_keeps _ _ O) as O'.
    assert (D : defined (env "OPENAI_API_KEY") = true)
      by (apply defined_narrow; eauto).
    repeat split; intros; try assumption; try reflexivity; try congruence.
    all: match goal with H : Some _ = Some _ |- _ => injection H as <- end.
    all: first [exact O' | reflexivity].
  - apply narrow_None in O.
    repeat split; intros; try assumption; try reflexivity; try congruence.
Qed.

(** The theorem on an environment with the two Qdrant values only. *)
Lemma startup_builds_clients_from_environment_witness :
  Sim.env_qdrant_only "QDRANT_URL" = Some "https://qdrant.example:6333" /\
  openaiClient (fst (constructed Sim.cfg_qdrant_only)) = None.
Proof.
  destruct (startup_builds_clients_from_environment
              Sim.libraries Sim.env_qdrant_only Sim.cfg_qdrant_only
              (fst (constructed Sim.cfg_qdrant_only))
              (snd (constructed Sim.cfg_qdrant_only)) eq_refl)
    as [Hurl [_ [_ [Hnone _]]]].
  split; [exact Hurl | apply Hnone; reflexivity].
Defined.

(* ------------------------------------------------------------------ *)
(** ** The request target                                              *)
(* ------------------------------------------------------------------ *)

(** X3.  Whatever the base URL, the target starts with it and ends in
    [/v1/embeddings]; a base that already ends in [/v1] does not get the
    segment twice. *)
Theorem ollamaUrl_shape :
  forall base : string,
    (exists post, ollamaUrl base = base ++ post) /\
    (exists pre, ollamaUrl base = pre ++ "/v1/embeddings") /\
    (forall pre, base = pre ++ "/v1" -> ollamaUrl base = pre ++ "/v1/embeddings").
Proof.
  intros base. unfold ollamaUrl.
  destruct (Str.endsWith base "/v1") eqn:E.
  - apply endsWith_spec in E. destruct E as [pre ->].
    split; [eauto|]. split.
    + exists pre. now rewrite string_app_assoc.
    + intros pre' E. rewrite E. now rewrite string_app_assoc.
  - split; [eauto|]. split; [eauto|].
    intros pre E'. assert (Str.endsWith base "/v1" = true)
      by (apply endsWith_spec; eauto).
    congruence.
Qed.

(* ------------------------------------------------------------------ *)
(** ** The generator at any dimension                                  *)
(* ------------------------------------------------------------------ *)

(** X4.  For every dimension [n], zero included, the generator completes
    normally with exactly [n] numbers, after exactly [n] calls of
    [Math.random], and leaves the trace and the client as they were. *)
Theorem generateRandomEmbedding_any_dimension :
  forall (W : Type) (svc : Services W) (n : nat) (m : Machine W),
    exists xs m',
      generateRandomEmbedding svc n m = (Normal xs, m') /\
      List.length xs = n /\
      xs = embedding_of_draws (fst (draws_from svc n (world m))) /\
      List.length (fst (draws_from svc n (world m))) = n /\
      world m' = snd (draws_from svc n (world m)) /\
      trace m' = trace m /\
      this m' = this m.
Proof.
  intros W svc n m. rewrite generateRandomEmbedding_run.
  eexists. eexists. split; [reflexivity|].
  rewrite embedding_of_draws_length, draws_from_length.
  repeat split; reflexivity.
Qed.

(* ------------------------------------------------------------------ *)
(** ** The SDK branch                                                  *)
(* ------------------------------------------------------------------ *)

(** X5.  Without a base URL override and with an SDK client, [getEmbeddings]
    makes one call, [embeddings.create] with model [nomic-embed-text] and
    the text, and no HTTP request.  The first entry's embedding is
    returned as it came; a rejected call, or a response with no entry
    (reading [embedding] of [undefined] raises a [TypeError]), goes to the
    [catch] block. *)
Theorem getEmbeddings_sdk_branch :
  forall (W : Type) (svc : Services W) (cfg : Config) (text : string)
         (m : Machine W) (client : OpenAI),
    defined (OPENAI_BASE_URL cfg) = false ->
    openaiClient (this m) = Some client ->
    let r := embeddings_create svc client "nomic-embed-text" text (world m) in
    let m1 :=
      after_call m (EvEmbeddingsCreate client "nomic-embed-text" text) (snd r) in
    getEmbeddings svc cfg text m =
    match fst r with
    | Normal response =>
        match data response with
        | first :: _ => (Normal (number_array (embedding first)), m1)
        | [] =>
            getEmbeddings_catch svc
              (new_TypeError
                 "Cannot read properties of undefined (reading 'embedding')") m1
        end
    | Abrupt e => getEmbeddings_catch svc e m1
    end.
Proof.
  intros W svc cfg text m client Hbase Hclient r m1.
  rewrite getEmbeddings_of_try. unfold getEmbeddings_try.
  apply narrow_None in Hbase. rewrite Hbase, embed_sdk_run, Hclient.
  cbv zeta. fold r. fold m1.
  destruct (fst r) as [response | e]; [|reflexivity].
  destruct (data response); reflexivity.
Qed.

(** The theorem with a key and an SDK that answers one two-component
    embedding. *)
Lemma getEmbeddings_sdk_branch_witness :
  let client := {| openai_apiKey := "sk-test"; openai_baseURL := None |} in
  let cfg := {| OPENAI_API_KEY := Some "sk-test"; OPENAI_BASE_URL := None;
                QDRANT_URL := "https://qdrant.example:6333";
                QDRANT_API_KEY := "secret" |} in
  let w := {| Sim.http := Normal JUndefined;
              Sim.sdk := Normal {| data := [{| embedding := [1%float; 0%float] |}] |};
              Sim.store := []; Sim.qdrant_fault := None; Sim.next_browser := 0;
              Sim.launch_fault := None; Sim.close_fault := None;
              Sim.draw_default := 0.25%float |} in
  getEmbeddings Sim.services cfg "hello" (Sim.boot cfg w) =
  (Normal (number_array [1%float; 0%float]),
   after_call (Sim.boot cfg w)
     (EvEmbeddingsCreate client "nomic-embed-text" "hello") w).
Proof.
  intros client cfg w.
  exact (getEmbeddings_sdk_branch Sim.World Sim.services cfg "hello"
           (Sim.boot cfg w) client eq_refl eq_refl).
Defined.

(** X6.  With no embeddings configuration in the environment (key and base URL
    both undefined or empty), [getEmbeddings] on the constructed client
    contacts no service: the [try] block raises [InvalidRequest] at once,
    leaving the machine as it was, and the value returned is the local
    vector of 768 numbers, after the two console records. *)
Theorem getEmbeddings_without_configuration :
  forall (W : Type) (svc : Services W) (lib : ClientLibraries) (env : Env)
         (cfg : Config) (client : ApiClient) (created : list Event) (w : W)
         (text : string),
    startup lib env = (Normal (cfg, client), created) ->
    defined (env "OPENAI_API_KEY") = false ->
    defined (env "OPENAI_BASE_URL") = false ->
    let m := {| world := w; trace := created; this := client |} in
    let error := McpError InvalidRequest "OpenAI API key not configured" in
    getEmbeddings_try svc cfg text m = (Abrupt error, m) /\
    exists xs,
      getEmbeddings svc cfg text m =
      (Normal (number_array xs),
       {| world := snd (draws_from svc 768 w);
          trace := (created ++
                    [EvConsoleError "Embedding error details:" error;
                     EvConsoleWarn "Generating fallback random embeddings"])%list;
          this := client |}) /\
      List.length xs = 768.
Proof.
  intros W svc lib env cfg client created w text S Hkey Hbase m error.
  destruct (startup_inversion lib env cfg client created S) as [_ [_ [K [B C]]]].
  assert (Hnone : openaiClient client = None).
  { unfold constructed in C. rewrite K in C. apply narrow_None in Hkey.
    rewrite Hkey in C. now injection C as -> _. }
  assert (T : getEmbeddings_try svc cfg text m = (Abrupt error, m)).
  { unfold getEmbeddings_try. rewrite B. apply narrow_None in Hbase.
    rewrite Hbase, embed_sdk_run. cbn [this m]. now rewrite Hnone. }
  split; [exact T|].
  rewrite getEmbeddings_of_try, T, getEmbeddings_catch_run.
  eexists. split; [reflexivity|].
  now rewrite embedding_of_draws_length, draws_from_length.
Qed.

(** The theorem on the environment with the two Qdrant values only. *)
Lemma getEmbeddings_without_configuration_witness :
  getEmbeddings_try Sim.services Sim.cfg_qdrant_only "hello"
    (Sim.boot Sim.cfg_qdrant_only Sim.calm) =
  (Abrupt (McpError InvalidRequest "OpenAI API key not configured"),
   Sim.boot Sim.cfg_qdrant_only Sim.calm).
Proof.
  exact (proj1 (getEmbeddings_without_configuration Sim.World Sim.services
                  Sim.libraries Sim.env_qdrant_only Sim.cfg_qdrant_only
                  (fst (constructed Sim.cfg_qdrant_only))
                  (snd (constructed Sim.cfg_qdrant_only))
                  Sim.calm "hello" eq_refl eq_refl eq_refl)).
Defined.

(* ------------------------------------------------------------------ *)
(** ** What each method may touch                                      *)
(* ------------------------------------------------------------------ *)

Lemma count_none (p q : Event -> bool) (delta : list Event) :
  Forall (fun ev => q ev = true) delta ->
  (forall ev, q ev = true -> p ev = false) ->
  count p delta = 0.
Proof.
  intros HF Hpq. unfold count. induction HF as [|ev delta Hq _ IH];
    [reflexivity|].
  cbn [filter]. now rewrite (Hpq ev Hq).
Qed.

Ltac explicit_delta delta :=
  exists delta;
  split; [cbn [after_call trace]; rewrite <- ?app_assoc; reflexivity|];
  split; [reflexivity|];
  split; [repeat constructor | cbn; lia].

Section Footprints.
Context {W : Type}.
Variable svc : Services W.
Variable cfg : Config.

(** The events one call of [getEmbeddings] adds: at most one request,
    and console records. *)
Lemma getEmbeddings_delta (text : string) (m : Machine W) :
  exists delta,
    trace (snd (getEmbeddings svc cfg text m)) = (trace m ++ delta)%list /\
    this (snd (getEmbeddings svc cfg text m)) = this m /\
    Forall (fun ev => is_embedding_request ev || is_console ev = true) delta /\
    count is_embedding_request delta <= 1.
Proof.
  rewrite getEmbeddings_of_try. unfold getEmbeddings_try.
  destruct (narrow (OPENAI_BASE_URL cfg)) as [base|].
  - pose proof (embed_direct_run svc cfg base text m) as R. cbv zeta in R.
    rewrite R. clear R.
    set (ev := EvAxiosPost _ _ _).
    destruct (fst (axios_post svc _ _ _ (world m))) as [d | e];
      [destruct (truthy (data0_embedding d))|];
      rewrite ?getEmbeddings_catch_run; cbn [snd].
    + explicit_delta [ev].
    + explicit_delta
        [ev;
         EvConsoleError "Embedding error details:"
           (new_Error "Invalid response format from Ollama embeddings API");
         EvConsoleWarn "Generating fallback random embeddings"].
    + explicit_delta
        [ev; EvConsoleError "Embedding error details:" e;
         EvConsoleWarn "Generating fallback random embeddings"].
  - rewrite embed_sdk_run. destruct (openaiClient (this m)) as [client|].
    + cbv zeta. set (ev := EvEmbeddingsCreate _ _ _).
      destruct (fst (embeddings_create svc client _ text (world m)))
        as [response | e];
        [destruct (data response)|];
        rewrite ?getEmbeddings_catch_run; cbn [snd].
      * explicit_delta
          [ev;
           EvConsoleError "Embedding error details:"
             (new_TypeError
                "Cannot read properties of undefined (reading 'embedding')");
           EvConsoleWarn "Generating fallback random embeddings"].
      * explicit_delta [ev].
      * explicit_delta
          [ev; EvConsoleError "Embedding error details:" e;
           EvConsoleWarn "Generating fallback random embeddings"].
    + rewrite getEmbeddings_catch_run. cbn [snd].
      explicit_delta
        [EvConsoleError "Embedding error details:"
           (McpError InvalidRequest "OpenAI API key not configured");
         EvConsoleWarn "Generating fallback random embeddings"].
Qed.

(** The events one call of [initCollection] adds: the query, then at
    most the creation. *)
Lemma initCollection_delta (collection : string) (m : Machine W) :
  let q := qdrantClient (this m) in
  let m' := snd (initCollection svc collection m) in
  this m' = this m /\
  (trace m' = (trace m ++ [EvGetCollections q])%list \/
   trace m' =
   (trace m ++
    [EvGetCollections q; EvCreateCollection q collection collection_params])%list).
Proof.
  cbv zeta. rewrite initCollection_of_try.
  pose proof (initCollection_try_run svc collection m) as R. cbv zeta in R.
  rewrite R. clear R.
  destruct (fst (getCollections svc (qdrantClient (this m)) (world m)))
    as [cs | e].
  - destruct (listed collection cs).
    + split; [reflexivity | left; reflexivity].
    + set (m2 := after_call _ (EvCreateCollection _ _ _) _).
      assert (T : this m2 = this m /\
                  trace m2 =
                  (trace m ++
                   [EvGetCollections (qdrantClient (this m));
                    EvCreateCollection (qdrantClient (this m)) collection
                      collection_params])%list).
      { split; [reflexivity|]. unfold m2. cbn [after_call trace].
        now rewrite <- app_assoc. }
      destruct (fst (createCollection svc _ collection collection_params _))
        as [[] | e].
      * cbn [snd]. split; [apply T | right; apply T].
      * destruct (initCollection_catch_run e m2) as [s [E _]]. rewrite E.
        cbn [snd]. split; [apply T | right; apply T].
  - match goal with
    | |- context [initCollection_catch e ?m1] =>
        destruct (initCollection_catch_run e m1) as [s [E _]]; rewrite E
    end.
    cbn [snd]. split; [reflexivity | left; reflexivity].
Qed.

End Footprints.

Lemma count_extended (p : Event -> bool) (t t' delta : list Event) :
  t' = (t ++ delta)%list -> count p delta = 0 -> count p t' = count p t.
Proof. intros -> H. rewrite count_app, H. lia. Qed.

(** X7.  [getEmbeddings] only adds to the trace; it leaves the client's fields
    as they were, makes at most one embeddings request (HTTP or SDK),
    and never calls the vector store or the browser. *)
Theorem getEmbeddings_footprint :
  forall (W : Type) (svc : Services W) (cfg : Config) (text : string)
         (m : Machine W),
    let m' := snd (getEmbeddings svc cfg text m) in
    this m' = this m /\
    (exists delta, trace m' = (trace m ++ delta)%list) /\
    count is_embedding_request (trace m') <=
    S (count is_embedding_request (trace m)) /\
    count is_qdrant_call (trace m') = count is_qdrant_call (trace m) /\
    count is_browser_call (trace m') = count is_browser_call (trace m).
Proof.
  intros W svc cfg text m m'.
  destruct (getEmbeddings_delta svc cfg text m) as [delta [T [S [F C]]]].
  fold m' in T, S. split; [exact S|]. split; [eauto|].
  split; [rewrite T, count_app; lia|]. split.
  - apply (count_extended _ _ _ delta T).
    apply (count_none _ _ delta F). now intros [].
  - apply (count_extended _ _ _ delta T).
    apply (count_none _ _ delta F). now intros [].
Qed.

(** X8.  [initCollection] leaves the client's fields as they were; it always
    queries first and then makes at most the one creation, for the name
    given and with the fixed descriptor; it makes no embeddings request and
    no browser call. *)
Theorem initCollection_footprint :
  forall (W : Type) (svc : Services W) (m : Machine W) (collection : string),
    let q := qdrantClient (this m) in
    let m' := snd (initCollection svc collection m) in
    this m' = this m /\
    (trace m' = (trace m ++ [EvGetCollections q])%list \/
     trace m' =
     (trace m ++
      [EvGetCollections q;
       EvCreateCollection q collection
         {| vectors_size := 768; vectors_distance := "Cosine";
            default_segment_number := 2; memmap_threshold := 20000;
            replication_factor := 2 |}])%list) /\
    count is_embedding_request (trace m') = count is_embedding_request (trace m) /\
    count is_browser_call (trace m') = count is_browser_call (trace m) /\
    count is_create (trace m') <= S (count is_create (trace m)).
Proof.
  intros W svc m collection q m'.
  destruct (initCollection_delta svc collection m) as [S T].
  fold q in T. fold m' in S, T. split; [exact S|]. split; [exact T|].
  destruct T as [T | T]; rewrite T, !count_app; cbn; lia.
Qed.

(* ------------------------------------------------------------------ *)
(** ** initCollection: what reaches the caller                         *)
(* ------------------------------------------------------------------ *)

(** X9.  Whatever the [try] block raises, [initCollection] raises too, and
    leaves the machine as the [try] block left it: the [catch] block makes
    no call and never completes normally.  For an [Error] with a string
    message and the inherited [toString], for the SDK's error and for a
    value that is not an [Error] and converts to a string, the caller sees
    an [McpError], whose code is [InvalidRequest] exactly when the value is
    an [Error] whose message contains [unauthorized].  For a value that is
    not an [Error] and cannot be converted to a string, and for an [Error]
    on whose message [includes] cannot be called, the caller sees the
    [TypeError] raised inside the [catch] block. *)
Theorem initCollection_failure_reaches_caller :
  forall (W : Type) (svc : Services W) (m m' : Machine W) (collection : string)
         (error : Thrown),
    initCollection_try svc collection m = (Abrupt error, m') ->
    exists surfaced,
      initCollection svc collection m = (Abrupt surfaced, m') /\
      (ordinary error = true ->
       exists code msg,
         surfaced = McpError code msg /\
         (code = InvalidRequest <->
          exists text,
            instanceof_Error error = true /\
            message_of error = JStr text /\
            Str.occurs_in "unauthorized" text)) /\
      (forall reason,
          error = Unprintable reason -> surfaced = new_TypeError reason) /\
      (forall v rendering t,
          error = ErrorObject v rendering ->
          js_includes v "unauthorized" = Abrupt t ->
          surfaced = t).
Proof.
  intros W svc m m' collection error T.
  rewrite initCollection_of_try, T.
  destruct (initCollection_catch_run error m') as [s [E Hs]].
  exists s. split; [exact E|].
  assert (G : forall text,
             instanceof_Error error = true ->
             message_of error = JStr text ->
             forall rendered, to_string error = Normal rendered ->
             exists code msg,
               s = McpError code msg /\
               (code = InvalidRequest <->
                exists text',
                  instanceof_Error error = true /\
                  message_of error = JStr text' /\
                  Str.occurs_in "unauthorized" text')).
  { intros text I M rendered S.
    rewrite (initCollection_catch_string error text m' I M), S in E.
    destruct (Str.includes text "unauthorized") eqn:A.
    - injection E as <-. eexists. eexists. split; [reflexivity|].
      split; [intros _|reflexivity].
      exists text. repeat split; auto. now apply includes_spec.
    - apply includes_false in A.
      destruct (Str.includes text "ECONNREFUSED" || Str.includes text "ETIMEDOUT");
        injection E as <-; (eexists; eexists; split; [reflexivity|]);
        (split; [discriminate|]);
        intros [text' [_ [M' O]]]; rewrite M in M'; injection M' as <-;
        contradiction. }
  split; [|split].
  - intros Ho. destruct error as [n msg | c msg | v r | r | reason];
      try discriminate Ho.
    + now apply (G msg eq_refl eq_refl _ eq_refl).
    + now apply (G _ eq_refl eq_refl _ eq_refl).
    + rewrite (initCollection_catch_non_error (NonError r) m' eq_refl) in E.
      injection E as <-. eexists. eexists. split; [reflexivity|].
      split; [discriminate|]. intros [text [I _]]. discriminate I.
  - intros reason ->.
    rewrite (initCollection_catch_non_error (Unprintable reason) m' eq_refl) in E.
    now injection E as <-.
  - intros v rendering t -> A.
    inversion Hs as [e I A' | e I A' C | e r [I | [A' _]] S | e t' I A'
                     | e t' [I | [A' _]] S]; subst; cbn [message_of] in *;
      try congruence; try discriminate I.
Qed.

(** The theorem on a store that rejects the query with a refused
    connection. *)
Lemma initCollection_failure_reaches_caller_witness :
  exists surfaced,
    initCollection Sim.services "docs"
      (Sim.boot Sim.cfg_qdrant_only
         (Sim.with_qdrant_fault
            (JsError "Error" "connect ECONNREFUSED 127.0.0.1:6333") Sim.calm))
    = (Abrupt surfaced,
       after_call
         (Sim.boot Sim.cfg_qdrant_only
            (Sim.with_qdrant_fault
               (JsError "Error" "connect ECONNREFUSED 127.0.0.1:6333") Sim.calm))
         (EvGetCollections (qdrantClient (fst (constructed Sim.cfg_qdrant_only))))
         (Sim.with_qdrant_fault
            (JsError "Error" "connect ECONNREFUSED 127.0.0.1:6333") Sim.calm)).
Proof.
  destruct (initCollection_failure_reaches_caller Sim.World Sim.services
              (Sim.boot Sim.cfg_qdrant_only
                 (Sim.with_qdrant_fault
                    (JsError "Error" "connect ECONNREFUSED 127.0.0.1:6333")
                    Sim.calm))
              _ "docs" _ eq_refl) as [surfaced [E _]].
  exists surfaced. exact E.
Defined.

(** X10.  A thrown value that is not an [Error] is never classified by its
    text.  When it converts to a string, a rejection of the query with it
    gives the generic [InternalError] that quotes that string, even if the
    string is [unauthorized] or [ECONNREFUSED].  When it cannot be
    converted (a Symbol), the template literal of the [catch] block raises
    a [TypeError], and that is what the caller sees. *)
Theorem initCollection_non_error_values :
  forall (W : Type) (svc : Services W) (m : Machine W) (collection : string)
         (error : Thrown),
    fst (getCollections svc (qdrantClient (this m)) (world m)) = Abrupt error ->
    (forall rendering,
        error = NonError rendering ->
        fst (initCollection svc collection m) =
        Abrupt (McpError InternalError
                  ("Failed to initialize Qdrant cloud collection: " ++ rendering))) /\
    (forall reason,
        error = Unprintable reason ->
        fst (initCollection svc collection m) = Abrupt (new_TypeError reason)).
Proof.
  intros W svc m collection error G.
  rewrite initCollection_of_try.
  pose proof (initCollection_try_run svc collection m) as R. cbv zeta in R.
  rewrite R, G. clear R. split.
  - intros rendering ->.
    now rewrite (initCollection_catch_non_error (NonError rendering) _ eq_refl).
  - intros reason ->.
    now rewrite (initCollection_catch_non_error (Unprintable reason) _ eq_refl).
Qed.

(** The theorem on a store whose client throws the string
    [unauthorized]. *)
Lemma initCollection_non_error_values_witness :
  fst (initCollection Sim.services "docs"
         (Sim.boot Sim.cfg_qdrant_only
            (Sim.with_qdrant_fault (NonError "unauthorized") Sim.calm))) =
  Abrupt (McpError InternalError
            "Failed to initialize Qdrant cloud collection: unauthorized").
Proof.
  exact (proj1 (initCollection_non_error_values Sim.World Sim.services
                  (Sim.boot Sim.cfg_qdrant_only
                     (Sim.with_qdrant_fault (NonError "unauthorized") Sim.calm))
                  "docs" (NonError "unauthorized") eq_refl)
           "unauthorized" eq_refl).
Defined.

(** X11.  When the store answers the query without the name (an empty store
    included) and accepts the creation, [initCollection] completes normally
    after exactly these two calls, the creation being for the name given
    with vectors of size 768, cosine distance, two segments, a memory-map
    threshold of 20000 and a replication factor of 2. *)
Theorem initCollection_creates_with_descriptor :
  forall (W : Type) (svc : Services W) (m : Machine W) (collection : string)
         (cs : list CollectionDescription) (w1 w2 : W),
    let q := qdrantClient (this m) in
    let params :=
      {| vectors_size := 768; vectors_distance := "Cosine";
         default_segment_number := 2; memmap_threshold := 20000;
         replication_factor := 2 |} in
    getCollections svc q (world m) = (Normal cs, w1) ->
    (forall c, In c cs -> name c <> collection) ->
    createCollection svc q collection params w1 = (Normal tt, w2) ->
    initCollection svc collection m =
    (Normal tt,
     {| world := w2;
        trace := (trace m ++
                  [EvGetCollections q; EvCreateCollection q collection params])%list;
        this := this m |}).
Proof.
  intros W svc m collection cs w1 w2 q params G Hnot C.
  assert (L : listed collection cs = false).
  { destruct (listed collection cs) eqn:L; [|reflexivity].
    apply listed_spec in L. destruct L as [c [Hin E]].
    now destruct (Hnot c Hin). }
  rewrite initCollection_of_try.
  pose proof (initCollection_try_run svc collection m) as R. cbv zeta in R.
  fold q in R. rewrite R, G. cbn [fst snd]. rewrite L.
  change collection_params with params. rewrite C. cbn [fst snd].
  unfold after_call. cbn [trace this world]. now rewrite <- app_assoc.
Qed.

(** The theorem on the simulated store, empty. *)
Lemma initCollection_creates_with_descriptor_witness :
  fst (initCollection Sim.services "docs"
         (Sim.boot Sim.cfg_qdrant_only Sim.calm)) = Normal tt.
Proof.
  rewrite (initCollection_creates_with_descriptor Sim.World Sim.services
             (Sim.boot Sim.cfg_qdrant_only Sim.calm) "docs" []
             Sim.calm (Sim.add_collection "docs" Sim.calm)
             eq_refl (fun c H => match H with end) eq_refl).
  reflexivity.
Defined.

(* ------------------------------------------------------------------ *)
(** ** initBrowser when the launch fails                               *)
(* ------------------------------------------------------------------ *)

(** X12.  A launch that rejects is passed to the caller as it is, and nothing
    is stored: the field stays empty, so [cleanup] then does nothing and
    the next [initBrowser] launches again and stores what that launch
    gives. *)
Theorem initBrowser_failure_is_retried :
  forall (W : Type) (svc : Services W) (m : Machine W) (e : Thrown) (w' : W),
    browser (this m) = None ->
    chromium_launch svc (world m) = (Abrupt e, w') ->
    let m1 := after_call m (EvLaunch (Abrupt e)) w' in
    initBrowser svc m = (Abrupt e, m1) /\
    browser (this m1) = None /\
    cleanup svc m1 = (Normal tt, m1) /\
    forall b w'',
      chromium_launch svc w' = (Normal b, w'') ->
      initBrowser svc m1 = (Normal tt, after_launch m1 b w'').
Proof.
  intros W svc m e w' Hb L m1.
  split; [rewrite (initBrowser_absent svc m Hb), L; reflexivity|].
  split; [exact Hb|]. split.
  - rewrite cleanup_run. cbn [m1 after_call this]. now rewrite Hb.
  - intros b w'' L'. rewrite (initBrowser_absent svc m1 Hb).
    cbn [m1 after_call world]. now rewrite L'.
Qed.

(** The theorem on a launcher that cannot find the executable. *)
Lemma initBrowser_failure_is_retried_witness :
  let w := {| Sim.http := Normal JUndefined; Sim.sdk := Normal {| data := [] |};
              Sim.store := []; Sim.qdrant_fault := None; Sim.next_browser := 0;
              Sim.launch_fault := Some (JsError "Error" "Executable doesn't exist");
              Sim.close_fault := None; Sim.draw_default := 0.25%float |} in
  fst (initBrowser Sim.services (Sim.boot Sim.cfg_qdrant_only w)) =
  Abrupt (JsError "Error" "Executable doesn't exist").
Proof.
  intros w.
  destruct (initBrowser_failure_is_retried Sim.World Sim.services
              (Sim.boot Sim.cfg_qdrant_only w)
              (JsError "Error" "Executable doesn't exist") w eq_refl eq_refl)
    as [H _].
  now rewrite H.
Defined.

(* ------------------------------------------------------------------ *)
(** ** Any sequence of calls of the four methods                       *)
(* ------------------------------------------------------------------ *)

Section Lifetime.
Context {W : Type}.
Variable svc : Services W.
Variable cfg : Config.









End Lifetime.


(* ------------------------------------------------------------------ *)
(** ** The direct branch on a well-formed body                         *)
(* ------------------------------------------------------------------ *)

(** X14.  When the server answers an object whose [data] is an array whose
    first entry is an object with an array under [embedding], that array is
    returned as it is, whatever its length (the empty array included) and
    whatever else the body holds; the other entries of [data] are not
    read. *)
Theorem getEmbeddings_direct_well_formed :
  forall (W : Type) (svc : Services W) (cfg : Config) (text base : string)
         (m : Machine W) (fields entry : list (string * JsVal))
         (rest items : list JsVal),
    OPENAI_BASE_URL cfg = Some base ->
    base <> "" ->
    fst (axios_post svc (ollamaUrl base) (request_body text)
           (request_headers cfg) (world m)) = Normal (JObj fields) ->
    lookup_field fields "data" = JArr (JObj entry :: rest) ->
    lookup_field entry "embedding" = JArr items ->
    fst (getEmbeddings svc cfg text m) = Normal (JArr items).
Proof.
  intros W svc cfg text base m fields entry rest items Hb Hne Hr Hd He.
  assert (N : narrow (OPENAI_BASE_URL cfg) = Some base) by now apply narrow_Some.
  rewrite getEmbeddings_of_try. unfold getEmbeddings_try. rewrite N.
  pose proof (embed_direct_run svc cfg base text m) as R. cbv zeta in R.
  rewrite R, Hr. clear R.
  assert (D : data0_embedding (JObj fields) = JArr items).
  { unfold data0_embedding, opt_member. cbn [member key_string].
    rewrite Hd. cbn [member nth key_string]. now rewrite He. }
  rewrite D. reflexivity.
Qed.

(** The theorem on a server that answers an empty embedding. *)
Lemma getEmbeddings_direct_well_formed_witness :
  fst (getEmbeddings Sim.services Sim.cfg_ollama "hello"
         (Sim.boot Sim.cfg_ollama
            (Sim.with_http
               (Normal (JObj [("model", JStr "nomic-embed-text");
                              ("data", JArr [JObj [("embedding", JArr [])]])]))
               Sim.calm))) = Normal (JArr []).
Proof.
  apply (getEmbeddings_direct_well_formed Sim.World Sim.services Sim.cfg_ollama
           "hello" "http://localhost:11434" _
           [("model", JStr "nomic-embed-text");
            ("data", JArr [JObj [("embedding", JArr [])]])]
           [("embedding", JArr [])] [] []);
    [reflexivity | discriminate | reflexivity | reflexivity | reflexivity].
Defined.

(* ------------------------------------------------------------------ *)
(** ** The zero vector, at any dimension                               *)
(* ------------------------------------------------------------------ *)

Lemma sum_of_squares_zeros (n : nat) :
  sum_of_squares (repeat 0%float n) = 0%float.
Proof.
  unfold sum_of_squares.
  induction n as [|n IH]; [reflexivity|].
  cbn [repeat fold_left].
  change (PrimFloat.add 0 (PrimFloat.mul 0 0)) with 0%float. exact IH.
Qed.

Lemma embedding_of_half_draws (n : nat) :
  embedding_of_draws (repeat 0.5%float n) = repeat PrimFloat.nan n.
Proof.
  unfold embedding_of_draws, divide_all, magnitude_of.
  rewrite map_repeat. change (scale_draw 0.5%float) with 0%float.
  rewrite sum_of_squares_zeros, map_repeat. reflexivity.
Qed.

(** X15.  On the doubles, at every dimension: when each value of [Math.random]
    is 0.5 the drawn vector is zero, and the generator, which divides by
    the magnitude without a test, completes normally with a vector whose
    components are all NaN. *)
Theorem generateRandomEmbedding_zero_vector :
  forall (W : Type) (svc : Services W) (n : nat) (m : Machine W),
    fst (draws_from svc n (world m)) = repeat 0.5%float n ->
    exists xs,
      fst (generateRandomEmbedding svc n m) = Normal xs /\
      List.length xs = n /\
      Forall (fun x => PrimFloat.is_nan x = true) xs.
Proof.
  intros W svc n m H. rewrite generateRandomEmbedding_run. cbn [fst].
  rewrite H, embedding_of_half_draws. eexists. split; [reflexivity|].
  split; [apply repeat_length|].
  apply Forall_forall. intros x Hx. apply repeat_spec in Hx. now subst x.
Qed.

(** The theorem at dimension 4. *)
Lemma generateRandomEmbedding_zero_vector_witness :
  exists xs,
    fst (generateRandomEmbedding Sim.services 4
           (Sim.boot Sim.cfg_qdrant_only (Sim.with_draw 0.5%float Sim.calm)))
    = Normal xs /\
    List.length xs = 4 /\
    Forall (fun x => PrimFloat.is_nan x = true) xs.
Proof.
  exact (generateRandomEmbedding_zero_vector Sim.World Sim.services 4
           (Sim.boot Sim.cfg_qdrant_only (Sim.with_draw 0.5%float Sim.calm))
           eq_refl).
Defined.

(* ------------------------------------------------------------------ *)
(** ** Components of the fallback vector                               *)
(* ------------------------------------------------------------------ *)

(** X16.  On the doubles, at every dimension up to 1000: when [Math.random]
    returns doubles in [[0, 1)] that are not all 0.5, every component of
    the vector returned is a finite double whose magnitude is at most
    1 + 1e-12. *)
Theorem fallback_components_bounded :
  forall (W : Type) (svc : Services W) (n : nat) (m : Machine W),
    n <= 1000 ->
    let draws := fst (draws_from svc n (world m)) in
    forallb unit_draw draws = true ->
    existsb (fun r => negb (PrimFloat.eqb r 0.5%float)) draws = true ->
    exists returned : list float,
      fst (generateRandomEmbedding svc n m) = Normal returned /\
      Forall (fun y => finite y = true /\
                       (Rabs (value y) <= 1 + 1 / 1000000000000)%R)
             returned.
Proof.
  intros W svc n m Hn draws Hd Hnz.
  rewrite generateRandomEmbedding_run. cbn [fst]. fold draws.
  exists (embedding_of_draws draws). split; [reflexivity|].
  pose proof (drawn_in_range draws Hd) as Hr.
  pose proof (drawn_nonzero draws Hd Hnz) as Hz.
  assert (Hle : List.length (map scale_draw draws) <= 1000)
    by (unfold draws; now rewrite length_map, draws_from_length).
  pose proof roundoff_bounds as Hu.
  pose proof (normalised_components _ Hr Hle Hz) as Hc.
  change (embedding_of_draws draws)
    with (divide_all (map scale_draw draws) (magnitude_of (map scale_draw draws))).
  eapply Forall_impl; [|exact Hc].
  intros y [Fy Hy]. split; [exact Fy|].
  eapply Rle_trans; [exact Hy|]. lra.
Qed.

(** The theorem at dimension 3, when [Math.random] returns 0.75 each
    time. *)
Lemma fallback_components_bounded_witness :
  exists returned : list float,
    fst (generateRandomEmbedding Sim.services 3
           (Sim.boot Sim.cfg_qdrant_only (Sim.with_draw 0.75%float Sim.calm)))
    = Normal returned /\
    Forall (fun y => finite y = true /\
                     (Rabs (value y) <= 1 + 1 / 1000000000000)%R)
           returned.
Proof.
  pose proof (fallback_components_bounded Sim.World Sim.services 3
                (Sim.boot Sim.cfg_qdrant_only
                   (Sim.with_draw 0.75%float Sim.calm))) as H.
  cbv zeta in H.
  exact (H ltac:(lia) ltac:(vm_compute; reflexivity)
           ltac:(vm_compute; reflexivity)).
Defined.

(* ------------------------------------------------------------------ *)
(** ** initCollection when the query fails                             *)
(* ------------------------------------------------------------------ *)

(** X17.  When [getCollections] rejects, no creation is attempted: the
    query is the only call made, [initCollection] completes abruptly, and
    the world is as the query left it. *)
Theorem initCollection_query_failure_creates_nothing :
  forall (W : Type) (svc : Services W) (m : Machine W) (collection : string)
         (e : Thrown) (w1 : W),
    getCollections svc (qdrantClient (this m)) (world m) = (Abrupt e, w1) ->
    exists surfaced,
      initCollection svc collection m =
      (Abrupt surfaced,
       after_call m (EvGetCollections (qdrantClient (this m))) w1) /\
      count is_create
        (trace (after_call m (EvGetCollections (qdrantClient (this m))) w1)) =
      count is_create (trace m).
Proof.
  intros W svc m collection e w1 G.
  rewrite initCollection_of_try.
  pose proof (initCollection_try_run svc collection m) as R. cbv zeta in R.
  rewrite R, G. cbn [fst snd]. clear R.
  match goal with
  | |- context [initCollection_catch e ?m1] =>
      destruct (initCollection_catch_run e m1) as [s [E _]]
  end.
  exists s. split; [exact E|].
  cbn [after_call trace]. rewrite count_snoc. cbn. lia.
Qed.

(** The theorem on a store whose query times out. *)
Lemma initCollection_query_failure_creates_nothing_witness :
  exists surfaced,
    initCollection Sim.services "docs"
      (Sim.boot Sim.cfg_qdrant_only
         (Sim.with_qdrant_fault (JsError "Error" "connect ETIMEDOUT") Sim.calm)) =
    (Abrupt surfaced,
     after_call
       (Sim.boot Sim.cfg_qdrant_only
          (Sim.with_qdrant_fault (JsError "Error" "connect ETIMEDOUT") Sim.calm))
       (EvGetCollections (qdrantClient (fst (constructed Sim.cfg_qdrant_only))))
       (Sim.with_qdrant_fault (JsError "Error" "connect ETIMEDOUT") Sim.calm)).
Proof.
  destruct (initCollection_query_failure_creates_nothing Sim.World Sim.services
              (Sim.boot Sim.cfg_qdrant_only
                 (Sim.with_qdrant_fault (JsError "Error" "connect ETIMEDOUT")
                    Sim.calm))
              "docs" (JsError "Error" "connect ETIMEDOUT")
              (Sim.with_qdrant_fault (JsError "Error" "connect ETIMEDOUT") Sim.calm)
              eq_refl) as [surfaced [E _]].
  exists surfaced. exact E.
Defined.
